(** * AutoAWQ quantizer: a shallow embedding of [awq/quantize/quantizer.py]

    The development follows the methods of [AwqQuantizer] one by one.
    Tensor entries are exact rationals ([Q]): every arithmetic operation of
    the quantizer except [pow] and [sqrt] is rational, and those two enter as
    parameters.  A tensor is a shape together with its row-major data, as in
    torch, so that [reshape] and [view] keep the data and only check sizes.
    Python exceptions are values of [exn]; a method that can raise returns a
    [result]. *)

From Stdlib Require Import String.
From Stdlib Require Import ZArith QArith Qround Qabs Qminmax.
From Stdlib Require Import List Lia Lqa Bool Arith PeanoNat.
Import ListNotations.

Set Implicit Arguments.

(* ================================================================== *)
(** * Values, exceptions and results *)

(** An entry of the output of a module, or a loss: a finite number, or a
    non-finite float ([inf] or [nan]). *)
Inductive fval : Type :=
| Finite (q : Q)
| NonFinite.

Inductive exn : Type :=
| AssertionError
| RuntimeError
| IndexError
| ZeroDivisionError
| AttributeError
| ValueError (msg : string)
| Exception.

Inductive result (A : Type) : Type :=
| Ok (a : A)
| Raise (e : exn).

Arguments Ok {A} a.
Arguments Raise {A} e.

Definition bind {A B} (r : result A) (k : A -> result B) : result B :=
  match r with
  | Ok a => k a
  | Raise e => Raise e
  end.

Definition assert (b : bool) : result unit :=
  if b then Ok tt else Raise AssertionError.

Declare Scope result_scope.
Delimit Scope result_scope with result.
Notation "x <- c1 ;; c2" := (bind c1 (fun x => c2))
  (at level 61, c1 at next level, right associativity) : result_scope.
Notation "c1 ;;; c2" := (bind c1 (fun _ => c2))
  (at level 61, right associativity) : result_scope.
Open Scope result_scope.

(* ================================================================== *)
(** * Lists: rows of a reshaped tensor *)

Section Rows.
Context {A : Type}.

(** The [n] consecutive rows of length [g] of a row-major buffer. *)
Fixpoint rows_of (n g : nat) (l : list A) : list (list A) :=
  match n with
  | O => []
  | S n' => firstn g l :: rows_of n' g (skipn g l)
  end.

Lemma rows_of_length n g l : length (rows_of n g l) = n.
Proof. revert l; induction n; simpl; intros; auto. Qed.

Lemma rows_of_concat n g l :
  length l = (n * g)%nat -> concat (rows_of n g l) = l.
Proof.
  revert l; induction n; simpl; intros l Hl.
  - destruct l; simpl in *; auto; discriminate.
  - rewrite IHn.
    + apply firstn_skipn.
    + rewrite length_skipn. lia.
Qed.

Lemma rows_of_row_length n g l r :
  length l = (n * g)%nat -> In r (rows_of n g l) -> length r = g.
Proof.
  revert l; induction n; simpl; intros l Hl Hin.
  - contradiction.
  - destruct Hin as [<- | Hin].
    + rewrite length_firstn. lia.
    + apply (IHn (skipn g l)); auto. rewrite length_skipn. lia.
Qed.

End Rows.

(* ================================================================== *)
(** * Numbers *)

Open Scope Q_scope.

(** [torch.round]: round to the nearest integer, ties to even. *)
Definition round_half_even (q : Q) : Z :=
  let f := Qfloor q in
  match Qcompare (q - inject_Z f) (1 # 2) with
  | Lt => f
  | Gt => (f + 1)%Z
  | Eq => if Z.even f then f else (f + 1)%Z
  end.

(** [torch.clamp(x, lo, hi)] is [min(max(x, lo), hi)]. *)
Definition clampZ (x lo hi : Z) : Z := Z.min (Z.max x lo) hi.
Definition clampQ (x lo hi : Q) : Q := Qmin (Qmax x lo) hi.

(** [x.clamp(min=m)]. *)
Definition clamp_min (x m : Q) : Q := Qmax x m.

(** [amax] and [amin] over a row, which the callers know not to be empty
    (torch refuses to reduce over an empty dimension). *)
Definition amax (l : list Q) : Q :=
  match l with
  | [] => 0
  | x :: t => fold_left Qmax t x
  end.

Definition amin (l : list Q) : Q :=
  match l with
  | [] => 0
  | x :: t => fold_left Qmin t x
  end.

Definition Qsum (l : list Q) : Q := fold_left Qplus l 0.

Lemma Qfloor_frac q : 0 <= q - inject_Z (Qfloor q) /\ q - inject_Z (Qfloor q) < 1.
Proof.
  pose proof (Qfloor_le q) as H1.
  pose proof (Qlt_floor q) as H2.
  rewrite inject_Z_plus in H2. change (inject_Z 1) with 1 in H2.
  split; lra.
Qed.

Lemma round_half_even_cases q :
  round_half_even q = Qfloor q \/ round_half_even q = (Qfloor q + 1)%Z.
Proof.
  unfold round_half_even.
  destruct (Qcompare _ _); auto. destruct (Z.even _); auto.
Qed.

Lemma round_half_even_err q :
  Qabs (inject_Z (round_half_even q) - q) <= 1 # 2.
Proof.
  destruct (Qfloor_frac q) as [H0 H1].
  unfold round_half_even.
  destruct (Qcompare (q - inject_Z (Qfloor q)) (1 # 2)) eqn:E.
  - apply Qeq_alt in E. destruct (Z.even (Qfloor q)).
    + apply Qabs_case; intros; lra.
    + rewrite inject_Z_plus. change (inject_Z 1) with 1.
      apply Qabs_case; intros; lra.
  - apply Qlt_alt in E. apply Qabs_case; intros; lra.
  - apply Qgt_alt in E. rewrite inject_Z_plus. change (inject_Z 1) with 1.
    apply Qabs_case; intros; lra.
Qed.

Ltac qcompare_spec E :=
  first [ apply Qeq_alt in E | apply Qlt_alt in E | apply Qgt_alt in E ].

Lemma round_half_even_inject_Z n : round_half_even (inject_Z n) = n.
Proof.
  unfold round_half_even. rewrite Qfloor_Z.
  destruct (Qcompare _ _) eqn:E; qcompare_spec E; try lra; auto.
Qed.

Lemma round_half_even_mono q1 q2 :
  q1 <= q2 -> (round_half_even q1 <= round_half_even q2)%Z.
Proof.
  intros Hle.
  pose proof (Qfloor_resp_le _ _ Hle) as Hf.
  destruct (Qfloor_frac q1) as [A0 A1].
  destruct (Qfloor_frac q2) as [B0 B1].
  destruct (Z.eq_dec (Qfloor q1) (Qfloor q2)) as [Heq | Hne].
  - unfold round_half_even. rewrite <- Heq in *.
    destruct (Qcompare (q1 - _) _) eqn:E1; qcompare_spec E1;
      destruct (Qcompare (q2 - _) _) eqn:E2; qcompare_spec E2;
      try destruct (Z.even (Qfloor q1)); try lia; try lra.
  - destruct (round_half_even_cases q1) as [-> | ->];
      destruct (round_half_even_cases q2) as [-> | ->]; lia.
Qed.

Lemma fold_left_Qmax_ge l x : x <= fold_left Qmax l x.
Proof.
  revert x; induction l as [| y l IH]; simpl; intros x.
  - apply Qle_refl.
  - eapply Qle_trans; [apply (Q.le_max_l x y) | apply IH].
Qed.

Lemma fold_left_Qmax_In l x y : In y l -> y <= fold_left Qmax l x.
Proof.
  revert x; induction l as [| z l IH]; simpl; intros x Hin.
  - contradiction.
  - destruct Hin as [-> | Hin].
    + eapply Qle_trans; [apply (Q.le_max_r x y) | apply fold_left_Qmax_ge].
    + apply IH; auto.
Qed.

Lemma fold_left_Qmin_le l x : fold_left Qmin l x <= x.
Proof.
  revert x; induction l as [| y l IH]; simpl; intros x.
  - apply Qle_refl.
  - eapply Qle_trans; [apply IH | apply (Q.le_min_l x y)].
Qed.

Lemma fold_left_Qmin_In l x y : In y l -> fold_left Qmin l x <= y.
Proof.
  revert x; induction l as [| z l IH]; simpl; intros x Hin.
  - contradiction.
  - destruct Hin as [-> | Hin].
    + eapply Qle_trans; [apply fold_left_Qmin_le | apply (Q.le_min_r x y)].
    + apply IH; auto.
Qed.

Lemma amax_ge l y : In y l -> y <= amax l.
Proof.
  destruct l as [| x t]; simpl; [contradiction |].
  intros [-> | Hin]; [apply fold_left_Qmax_ge | apply fold_left_Qmax_In; auto].
Qed.

Lemma amin_le l y : In y l -> amin l <= y.
Proof.
  destruct l as [| x t]; simpl; [contradiction |].
  intros [-> | Hin]; [apply fold_left_Qmin_le | apply fold_left_Qmin_In; auto].
Qed.

Lemma clampZ_hi x lo hi : (clampZ x lo hi <= hi)%Z.
Proof. unfold clampZ; lia. Qed.

Lemma clampZ_lo x lo hi : (lo <= hi)%Z -> (lo <= clampZ x lo hi)%Z.
Proof. unfold clampZ; lia. Qed.

Lemma clampZ_id x lo hi : (lo <= x <= hi)%Z -> clampZ x lo hi = x.
Proof. unfold clampZ; lia. Qed.

(* ================================================================== *)
(** * Tensors *)

Record tensor : Type := mkTensor { shape : list nat; data : list Q }.

Definition numel (s : list nat) : nat := fold_right Nat.mul 1%nat s.

Definition wf_tensor (t : tensor) : Prop :=
  length (data t) = numel (shape t).

(** The size torch infers for the single [-1] of a [reshape]/[view] whose
    other sizes multiply to [known], for a tensor of [n] elements: ambiguous
    or impossible when [known] is 0, impossible when it does not divide. *)
Definition infer_dim (n known : nat) : result nat :=
  if (known =? 0)%nat then Raise RuntimeError
  else if (n mod known =? 0)%nat then Ok (n / known)%nat
  else Raise RuntimeError.

(** [t.view(-1, g)] and [t.reshape(-1, g)] for a Python integer [g]: a
    negative [g] is a second inferred size ([-1]) or an invalid one. *)
Definition view_rows (t : tensor) (g : Z) : result tensor :=
  if (g <? 0)%Z then Raise RuntimeError
  else
    n <- infer_dim (numel (shape t)) (Z.to_nat g) ;;
    Ok (mkTensor [n; Z.to_nat g] (data t)).

(** [shape[-1]]. *)
Definition last_dim (s : list nat) : result nat :=
  match rev s with
  | [] => Raise IndexError
  | d :: _ => Ok d
  end.

(** [shape[0]]. *)
Definition first_dim (s : list nat) : result nat :=
  match s with
  | [] => Raise IndexError
  | d :: _ => Ok d
  end.

(* ================================================================== *)
(** * Configuration: the fields of [AwqQuantizer] the searches read *)

Inductive device : Type := Cpu | Accelerator.

Record config : Type := mkConfig {
  w_bit : Z;
  group_size : Z;
  zero_point : bool;
  version : string;
  duo_scaling : bool;
  max_chunk_memory : Z
}.

(* ================================================================== *)
(** * [pseudo_quantize_tensor] *)

Definition eps5 : Q := 1 # 100000.

(** One row of the two-dimensional view: the integer codes before they are
    mapped back, the row's scale and, in zero-point mode, its zero. *)
Record qrow : Type := mkQrow {
  codes : list Z;
  qscale : Q;
  qzero : option Z
}.

(** [max_int] and [min_int].  For a bit width of at least 1 the powers
    are those of Python, and from 2 on [max_int] is positive in both modes,
    so that the division by it below is the real one; the statements about
    the quantizer assume [w_bit >= 2]. *)
Definition max_int (cfg : config) : Z :=
  if zero_point cfg then (2 ^ w_bit cfg - 1)%Z else (2 ^ (w_bit cfg - 1) - 1)%Z.

Definition min_int (cfg : config) : Z :=
  if zero_point cfg then 0%Z else (- 2 ^ (w_bit cfg - 1))%Z.

Definition quantize_row (cfg : config) (row : list Q) : qrow :=
  if zero_point cfg then
    let max_val := amax row in
    let min_val := amin row in
    let scales := clamp_min (max_val - min_val) eps5 / inject_Z (max_int cfg) in
    let zeros := clampZ (- round_half_even (min_val / scales))
                        (min_int cfg) (max_int cfg) in
    mkQrow
      (map (fun w => clampZ (round_half_even (w / scales) + zeros)
                            (min_int cfg) (max_int cfg)) row)
      scales (Some zeros)
  else
    let max_val := clamp_min (amax (map Qabs row)) eps5 in
    let scales := max_val / inject_Z (max_int cfg) in
    mkQrow
      (map (fun w => clampZ (round_half_even (w / scales))
                            (min_int cfg) (max_int cfg)) row)
      scales None.

(** The values the row holds after quantization:
    [(code - zeros) * scales], or [code * scales]. *)
Definition dequantize_row (r : qrow) : list Q :=
  match qzero r with
  | Some z => map (fun c => (inject_Z c - inject_Z z) * qscale r) (codes r)
  | None => map (fun c => inject_Z c * qscale r) (codes r)
  end.

(** The part of [pseudo_quantize_tensor] up to the quantized rows: the
    optional reshape into groups, the two-dimension assertion, the row-wise
    reduction (which torch refuses over an empty dimension) and the view of
    the per-row results as [org_w_shape[0]] rows.  The three assertions
    that no entry of the weight and of the scales is NaN have nothing to
    refuse over the rationals and are not represented; in floating point
    they fail on a NaN input and when a scale overflows. *)
Definition quantize_groups (cfg : config) (w : tensor)
  : result (nat * nat * list qrow) :=
  let org_w_shape := shape w in
  w2 <- (if (0 <? group_size cfg)%Z then
           last <- last_dim org_w_shape ;;
           assert (Z.of_nat last mod group_size cfg =? 0)%Z ;;;
           view_rows w (group_size cfg)
         else Ok w) ;;
  assert (length (shape w2) =? 2)%nat ;;;
  match shape w2 with
  | [n; g] =>
      if (g =? 0)%nat then Raise RuntimeError
      else
        org0 <- first_dim org_w_shape ;;
        cols <- infer_dim n org0 ;;
        Ok (org0, cols, map (quantize_row cfg) (rows_of n g (data w2)))
  | _ => Raise AssertionError
  end.

(** The entry of the [zeros] tensor for one row. *)
Definition zero_value (q : qrow) : Q :=
  match qzero q with
  | Some z => inject_Z z
  | None => 0
  end.

Definition pseudo_quantize_tensor (cfg : config) (w : tensor)
  : result (tensor * tensor * option tensor) :=
  r <- quantize_groups cfg w ;;
  let '(org0, cols, qs) := r in
  let zeros :=
    if zero_point cfg then
      Some (mkTensor [org0; cols] (map zero_value qs))
    else None in
  Ok (mkTensor (shape w) (concat (map dequantize_row qs)),
      mkTensor [org0; cols] (map qscale qs),
      zeros).

(** The integer codes [pseudo_quantize_tensor] computes on the way
    (the clamped values, before the zero is subtracted and the scale
    applied), in the order of the entries of the input. *)
Definition pseudo_quantize_codes (cfg : config) (w : tensor)
  : result (list Z) :=
  r <- quantize_groups cfg w ;;
  let '(_, _, qs) := r in
  Ok (concat (map codes qs)).

(* ================================================================== *)
(** * Rounding error of one quantized entry *)

Lemma Qdiv_le_mono x y s : 0 < s -> x <= y -> x / s <= y / s.
Proof.
  intros Hs Hxy. unfold Qdiv.
  apply Qmult_le_compat_r; auto.
  apply Qlt_le_weak, Qinv_lt_0_compat; auto.
Qed.

Lemma scaled_round_err (x a s : Q) :
  0 < s -> Qabs (x - a) <= 1 # 2 -> Qabs (x * s - a * s) <= s / 2.
Proof.
  intros Hs H.
  assert (E : x * s - a * s == (x - a) * s) by ring.
  rewrite E, Qabs_Qmult.
  rewrite (Qabs_pos s) by lra.
  assert (E2 : s / 2 == (1 # 2) * s) by (field).
  rewrite E2. apply Qmult_le_compat_r; lra.
Qed.

Lemma inject_Z_le_iff a b : (a <= b)%Z -> inject_Z a <= inject_Z b.
Proof. intros; rewrite <- Zle_Qle; auto. Qed.

Lemma clamp_min_pos x : 0 < clamp_min x eps5.
Proof.
  unfold clamp_min.
  eapply Qlt_le_trans; [| apply Q.le_max_r]. reflexivity.
Qed.

Lemma clamp_min_ge x : x <= clamp_min x eps5.
Proof. apply Q.le_max_l. Qed.

Section Entry.
Variable M : Z.
Hypothesis M_pos : (0 < M)%Z.

Let MQ_pos : 0 < inject_Z M.
Proof. change 0 with (inject_Z 0). rewrite <- Zlt_Qlt. exact M_pos. Qed.

(** Symmetric mode: [clamp(round(w / s), -M - 1, M) * s] with
    [s = max_val / M] and [|w| <= max_val]. *)
Lemma symmetric_entry_err (max_val w : Q) :
  0 < max_val -> Qabs w <= max_val ->
  let s := max_val / inject_Z M in
  Qabs (inject_Z (clampZ (round_half_even (w / s)) (- M - 1) M) * s - w)
    <= s / 2.
Proof.
  intros Hmv Hw s.
  assert (Hs : 0 < s).
  { unfold s, Qdiv. apply Qmult_lt_0_compat; auto.
    apply Qinv_lt_0_compat; auto. }
  assert (Hs0 : ~ s == 0) by lra.
  assert (HM : inject_Z M == max_val / s).
  { unfold s. field. split; lra. }
  assert (Hlo : - max_val <= w /\ w <= max_val).
  { revert Hw. apply Qabs_case; intros; lra. }
  destruct Hlo as [Hlo Hhi].
  assert (Ha_hi : w / s <= inject_Z M).
  { rewrite HM. apply Qdiv_le_mono; auto. }
  assert (Ha_lo : inject_Z (- M) <= w / s).
  { rewrite inject_Z_opp, HM.
    assert (E : - (max_val / s) == (- max_val) / s) by (field; auto).
    rewrite E. apply Qdiv_le_mono; auto. }
  apply round_half_even_mono in Ha_hi, Ha_lo.
  rewrite round_half_even_inject_Z in Ha_hi, Ha_lo.
  rewrite clampZ_id by lia.
  set (x := inject_Z (round_half_even (w / s))).
  assert (Ew : x * s - w == x * s - (w / s) * s) by (field; auto).
  rewrite Ew.
  apply scaled_round_err; auto. apply round_half_even_err.
Qed.

(** Zero-point mode: [(clamp(round(w / s) + z, 0, M) - z) * s] with
    [s = range / M], [z = clamp(-round(min_val / s), 0, M)], for an entry
    of a row whose values span zero. *)
Lemma zero_point_entry_err (range min_val w : Q) :
  0 < range -> min_val <= 0 -> - range <= min_val ->
  min_val <= w -> w <= min_val + range ->
  let s := range / inject_Z M in
  let z := clampZ (- round_half_even (min_val / s)) 0 M in
  Qabs (inject_Z (clampZ (round_half_even (w / s) + z) 0 M - z) * s - w)
    <= s / 2.
Proof.
  intros Hr Hmn0 Hmn Hw_lo Hw_hi s z.
  assert (Hs : 0 < s).
  { unfold s, Qdiv. apply Qmult_lt_0_compat; auto.
    apply Qinv_lt_0_compat; auto. }
  assert (Hs0 : ~ s == 0) by lra.
  assert (HM : inject_Z M == range / s).
  { unfold s. field. split; lra. }
  set (m := min_val / s) in *.
  set (a := w / s).
  assert (Hm0 : m <= inject_Z 0).
  { assert (E : inject_Z 0 == 0 / s) by (change (inject_Z 0) with 0; field; auto).
    rewrite E. apply Qdiv_le_mono; auto. }
  assert (HmM : inject_Z (- M) <= m).
  { rewrite inject_Z_opp, HM.
    assert (E : - (range / s) == (- range) / s) by (field; auto).
    rewrite E. apply Qdiv_le_mono; auto. }
  assert (Ham : m <= a) by (apply Qdiv_le_mono; auto).
  assert (HaM : a <= m + inject_Z M).
  { rewrite HM.
    assert (E : m + range / s == (min_val + range) / s)
      by (unfold m; field; auto).
    rewrite E. apply Qdiv_le_mono; auto. }
  pose proof (round_half_even_err m) as Em.
  pose proof (round_half_even_err a) as Ea.
  pose proof (round_half_even_mono Ham) as Mam.
  apply round_half_even_mono in Hm0, HmM.
  rewrite round_half_even_inject_Z in Hm0, HmM.
  assert (Hz : z = (- round_half_even m)%Z) by (unfold z; apply clampZ_id; lia).
  assert (Ew : forall x, x * s - w == x * s - a * s)
    by (intros x; unfold a; field; auto).
  rewrite Ew.
  apply scaled_round_err; auto.
  destruct (Z_le_gt_dec (round_half_even a + z) M) as [Hin | Hout].
  - rewrite clampZ_id by lia.
    replace (round_half_even a + z - z)%Z with (round_half_even a) by lia.
    exact Ea.
  - unfold clampZ. rewrite Z.min_r by lia.
    rewrite Hz in *.
    replace (M - - round_half_even m)%Z with (M + round_half_even m)%Z by lia.
    assert (Hge : (M + round_half_even m + 1 <= round_half_even a)%Z) by lia.
    apply inject_Z_le_iff in Hge.
    rewrite !inject_Z_plus in *. change (inject_Z 1) with 1 in Hge.
    revert Em Ea. apply Qabs_case; apply Qabs_case; apply Qabs_case;
      intros; lra.
Qed.
End Entry.

(* ================================================================== *)
(** * [pseudo_quantize_tensor] on a weight matrix *)

Lemma infer_dim_mul n k : k <> 0%nat -> infer_dim (n * k) k = Ok n.
Proof.
  intros Hk. unfold infer_dim.
  destruct (Nat.eqb_spec k 0); [contradiction |].
  rewrite Nat.Div0.mod_mul, Nat.div_mul by auto. reflexivity.
Qed.

Lemma infer_dim_ok n k m : infer_dim n k = Ok m -> k <> 0%nat /\ n = (m * k)%nat.
Proof.
  unfold infer_dim.
  destruct (Nat.eqb_spec k 0); [discriminate |].
  destruct (Nat.eqb_spec (n mod k) 0); [| discriminate].
  intros [= <-]. split; auto.
  pose proof (Nat.div_mod_eq n k). lia.
Qed.

(** The length of a quantization group for rows of [c] entries. *)
Definition gsize (cfg : config) (c : nat) : nat :=
  if (0 <? group_size cfg)%Z then Z.to_nat (group_size cfg) else c.

(** [group_size] is not positive, or it divides the row length. *)
Definition groupable (cfg : config) (c : nat) : Prop :=
  (group_size cfg <= 0)%Z \/ (Z.of_nat c mod group_size cfg = 0)%Z.

Lemma gsize_divides cfg c :
  (0 < c)%nat -> groupable cfg c ->
  (0 < gsize cfg c)%nat /\ c = (c / gsize cfg c * gsize cfg c)%nat.
Proof.
  intros Hc Hg. unfold gsize.
  destruct (Z.ltb_spec 0 (group_size cfg)) as [Hpos | Hneg].
  - destruct Hg as [Hg | Hg]; [lia |].
    set (g := Z.to_nat (group_size cfg)).
    assert (Eg : group_size cfg = Z.of_nat g) by (unfold g; lia).
    assert (Hg0 : (0 < g)%nat) by lia.
    split; auto.
    rewrite Eg, <- Nat2Z.inj_mod in Hg.
    pose proof (Nat.div_mod_eq c g). lia.
  - split; auto. rewrite Nat.div_same by lia. lia.
Qed.

Lemma quantize_groups_matrix cfg w r c :
  shape w = [r; c] -> (0 < r)%nat -> (0 < c)%nat -> groupable cfg c ->
  quantize_groups cfg w =
    Ok (r, (c / gsize cfg c)%nat,
        map (quantize_row cfg)
            (rows_of (r * (c / gsize cfg c)) (gsize cfg c) (data w))).
Proof.
  intros Hsh Hr Hc Hg.
  destruct (@gsize_divides cfg c Hc Hg) as [Hg0 Hdiv].
  unfold quantize_groups, gsize in *. rewrite Hsh.
  set (k := (c / _)%nat) in *.
  destruct (Z.ltb_spec 0 (group_size cfg)) as [Hpos | Hneg].
  - destruct Hg as [Hg | Hg]; [lia |].
    unfold last_dim. cbn [rev app bind].
    rewrite Hg. cbn [Z.eqb assert bind].
    unfold view_rows. destruct (Z.ltb_spec (group_size cfg) 0); [lia |].
    rewrite Hsh. cbn [numel fold_right].
    replace (r * (c * 1))%nat with (r * k * Z.to_nat (group_size cfg))%nat by lia.
    rewrite infer_dim_mul by lia.
    cbn [bind shape length Nat.eqb assert data first_dim].
    destruct (Nat.eqb_spec (Z.to_nat (group_size cfg)) 0); [lia |].
    rewrite (Nat.mul_comm r k), infer_dim_mul by lia.
    cbn [bind]. rewrite (Nat.mul_comm k r). reflexivity.
  - cbn [bind]. rewrite Hsh. cbn [length Nat.eqb assert bind first_dim].
    destruct (Nat.eqb_spec c 0); [lia |].
    assert (Hk : k = 1%nat) by (unfold k; apply Nat.div_same; lia).
    rewrite Hk, Nat.mul_1_r.
    replace (infer_dim r r) with (infer_dim (1 * r) r) by (f_equal; lia).
    rewrite infer_dim_mul by lia. reflexivity.
Qed.

Lemma two_pow_ge b : (2 <= b)%Z -> (4 <= 2 ^ b)%Z /\ (2 <= 2 ^ (b - 1))%Z.
Proof.
  intros Hb. split.
  - change 4%Z with (2 ^ 2)%Z. apply Z.pow_le_mono_r; lia.
  - change 2%Z with (2 ^ 1)%Z at 1. apply Z.pow_le_mono_r; lia.
Qed.

Lemma max_int_pos cfg : (2 <= w_bit cfg)%Z -> (0 < max_int cfg)%Z.
Proof.
  intros Hb. destruct (two_pow_ge Hb). unfold max_int.
  destruct (zero_point cfg); lia.
Qed.

Lemma min_le_max_int cfg : (2 <= w_bit cfg)%Z -> (min_int cfg <= max_int cfg)%Z.
Proof.
  intros Hb. destruct (two_pow_ge Hb). unfold max_int, min_int.
  destruct (zero_point cfg); lia.
Qed.

Lemma quantize_row_codes_range cfg row :
  (2 <= w_bit cfg)%Z ->
  Forall (fun c => (min_int cfg <= c <= max_int cfg)%Z)
         (codes (quantize_row cfg row)).
Proof.
  intros Hb. pose proof (@min_le_max_int cfg Hb) as Hle.
  unfold quantize_row.
  destruct (zero_point cfg); cbn [codes]; apply Forall_forall;
    intros c Hin; apply in_map_iff in Hin; destruct Hin as [w [<- _]];
    split; auto using clampZ_lo, clampZ_hi.
Qed.

Lemma Forall_concat {A} (P : A -> Prop) (ll : list (list A)) :
  Forall (Forall P) ll -> Forall P (concat ll).
Proof.
  induction 1; simpl; auto. apply Forall_app; auto.
Qed.

(** C6.  For [w_bit >= 2], every integer code [pseudo_quantize_tensor]
    computes lies in [[min_int, max_int]], where zero-point mode has
    [min_int = 0] and [max_int = 2^w_bit - 1] and symmetric mode has
    [max_int = 2^(w_bit-1) - 1] and [min_int = -max_int - 1]; and on a
    weight matrix whose row length the group size divides (or with a
    non-positive group size) the codes are produced, one per entry. *)
Theorem C6_codes_within_range cfg w :
  (2 <= w_bit cfg)%Z ->
  (zero_point cfg = true ->
     min_int cfg = 0%Z /\ max_int cfg = (2 ^ w_bit cfg - 1)%Z) /\
  (zero_point cfg = false ->
     max_int cfg = (2 ^ (w_bit cfg - 1) - 1)%Z /\
     min_int cfg = (- max_int cfg - 1)%Z) /\
  (forall cs, pseudo_quantize_codes cfg w = Ok cs ->
     Forall (fun c => (min_int cfg <= c <= max_int cfg)%Z) cs) /\
  (forall r c, shape w = [r; c] -> wf_tensor w ->
     (0 < r)%nat -> (0 < c)%nat -> groupable cfg c ->
     exists cs, pseudo_quantize_codes cfg w = Ok cs /\
                length cs = length (data w)).
Proof.
  intros Hb. repeat split.
  - unfold min_int. rewrite H. reflexivity.
  - unfold max_int. rewrite H. reflexivity.
  - unfold max_int. rewrite H. reflexivity.
  - unfold max_int, min_int. rewrite H. lia.
  - intros cs. unfold pseudo_quantize_codes.
    destruct (quantize_groups cfg w) as [[[org0 cols] qs] | e] eqn:E;
      cbn [bind]; [| discriminate].
    intros [= <-]. apply Forall_concat.
    unfold quantize_groups in E.
    destruct (if (0 <? group_size cfg)%Z then _ else _) as [w2 |];
      cbn [bind] in E; [| discriminate].
    destruct (assert _); cbn [bind] in E; [| discriminate].
    destruct (shape w2) as [| n [| g [| ? ?]]]; try discriminate.
    destruct (g =? 0)%nat; [discriminate |].
    destruct (first_dim _); cbn [bind] in E; [| discriminate].
    destruct (infer_dim _ _); cbn [bind] in E; [| discriminate].
    injection E as _ _ <-.
    apply Forall_forall. intros l Hin.
    apply in_map_iff in Hin. destruct Hin as [q [<- Hq]].
    apply in_map_iff in Hq. destruct Hq as [row [<- _]].
    apply quantize_row_codes_range; auto.
  - intros r c Hsh Hwf Hr Hc Hg.
    unfold pseudo_quantize_codes.
    rewrite (@quantize_groups_matrix cfg w r c Hsh Hr Hc Hg). cbn [bind].
    eexists; split; [reflexivity |].
    destruct (@gsize_divides cfg c Hc Hg) as [Hg0 Hdiv].
    set (g := gsize cfg c) in *. set (k := (c / g)%nat) in *.
    assert (Hlen : length (data w) = (r * k * g)%nat).
    { unfold wf_tensor in Hwf. rewrite Hwf, Hsh. cbn [numel fold_right].
      rewrite Hdiv at 1. lia. }
    rewrite <- (@rows_of_concat _ (r * k) g (data w) Hlen) at 2.
    rewrite map_map.
    generalize (rows_of (r * k) g (data w)).
    induction l as [| row l IH]; cbn [map concat]; auto.
    rewrite !length_app, IH. f_equal.
    unfold quantize_row. destruct (zero_point cfg); cbn [codes];
      apply length_map.
Qed.

(** Four-bit zero-point quantization in groups of two, on the row
    [[1; 2; 3; 100]]. *)
Definition cfg_zp4_g2 : config := mkConfig 4 2 true "gemm" true 1024.
Definition w_example : tensor := mkTensor [1; 4]%nat [1; 2; 3; 100].

Lemma C6_codes_within_range_witness :
  (2 <= w_bit cfg_zp4_g2)%Z /\
  pseudo_quantize_codes cfg_zp4_g2 w_example = Ok [15; 15; 0; 15]%Z /\
  Forall (fun c => (0 <= c <= 15)%Z) [15; 15; 0; 15]%Z.
Proof.
  assert (Hb : (2 <= w_bit cfg_zp4_g2)%Z) by (simpl; lia).
  split; [exact Hb |]. split; [reflexivity |].
  exact (proj1 (proj2 (proj2 (@C6_codes_within_range cfg_zp4_g2 w_example Hb)))
           [15; 15; 0; 15]%Z eq_refl).
Defined.

(** Eight-bit symmetric quantization of the row [[-5; 3; 127]] as one
    group: the scale is 1 and the codes are the entries. *)
Example symmetric_codes_of_integers :
  pseudo_quantize_codes (mkConfig 8 (-1) false "gemm" true 1024)
    (mkTensor [1; 3]%nat [-5; 3; 127]) = Ok [-5; 3; 127]%Z.
Proof. reflexivity. Qed.

(* ================================================================== *)
(** * [pseudo_dequantize_tensor] *)

(** [t.repeat(1, k)] on a matrix: every row is tiled [k] times.  A vector
    counts as a single row; more than two dimensions are refused. *)
Definition repeat_cols (t : tensor) (k : nat) : result tensor :=
  let tile (a b : nat) :=
    Ok (mkTensor [a; (b * k)%nat]
          (concat (map (fun row => concat (repeat row k))
                       (rows_of a b (data t))))) in
  match shape t with
  | [b] => tile 1%nat b
  | [a; b] => tile a b
  | _ => Raise RuntimeError
  end.

(** [t.reshape(s)] for an explicit shape [s]. *)
Definition reshape (t : tensor) (s : list nat) : result tensor :=
  if (numel (shape t) =? numel s)%nat then Ok (mkTensor s (data t))
  else Raise RuntimeError.

Definition zip_with {A B C} (f : A -> B -> C) (a : list A) (b : list B)
  : list C :=
  map (fun p => f (fst p) (snd p)) (combine a b).

(** [w] is the weight of the linear layer, holding the integer codes. *)
Definition pseudo_dequantize_tensor (cfg : config) (w : tensor)
    (scales : tensor) (zeros : option tensor) : result tensor :=
  wl <- last_dim (shape w) ;;
  sl <- last_dim (shape scales) ;;
  repeat_count <- (if (sl =? 0)%nat then Raise ZeroDivisionError
                   else Ok (wl / sl)%nat) ;;
  s1 <- repeat_cols scales repeat_count ;;
  scales' <- reshape s1 (shape w) ;;
  if zero_point cfg then
    match zeros with
    | None => Raise AttributeError
    | Some zs =>
        z1 <- repeat_cols zs repeat_count ;;
        zeros' <- reshape z1 (shape w) ;;
        Ok (mkTensor (shape w)
              (zip_with Qmult (zip_with Qminus (data w) (data zeros'))
                        (data scales')))
    end
  else
    Ok (mkTensor (shape w) (zip_with Qmult (data w) (data scales'))).

(* ================================================================== *)
(** * The rounding bound of [pseudo_quantize_tensor] *)

Lemma nth_concat_uniform {A} (ll : list (list A)) (g i : nat) (d : A) :
  (0 < g)%nat -> Forall (fun l => length l = g) ll ->
  nth i (concat ll) d = nth (i mod g) (nth (i / g) ll []) d.
Proof.
  intros Hg Hall. revert i.
  induction Hall as [| l ll Hl Hall IH]; intros i.
  - cbn [concat]. destruct (i / g)%nat, i; destruct (_ mod g)%nat; reflexivity.
  - cbn [concat]. destruct (Nat.lt_ge_cases i g) as [Hlt | Hge].
    + rewrite app_nth1 by lia.
      rewrite Nat.div_small, Nat.mod_small by lia. reflexivity.
    + rewrite app_nth2 by lia. rewrite Hl, IH.
      replace i with (1 * g + (i - g))%nat at 3 4 by lia.
      rewrite Nat.div_add_l by lia.
      rewrite (Nat.add_comm (1 * g)), Nat.Div0.mod_add.
      reflexivity.
Qed.

(** A row whose values span zero: its minimum is not positive and its
    maximum is not negative. *)
Definition spans_zero (row : list Q) : Prop := amin row <= 0 /\ 0 <= amax row.

(** The value an entry [w] of [row] has after quantization. *)
Definition row_entry (cfg : config) (row : list Q) (w : Q) : Q :=
  let q := quantize_row cfg row in
  match qzero q with
  | Some z =>
      (inject_Z (clampZ (round_half_even (w / qscale q) + z)
                        (min_int cfg) (max_int cfg)) - inject_Z z) * qscale q
  | None =>
      inject_Z (clampZ (round_half_even (w / qscale q))
                       (min_int cfg) (max_int cfg)) * qscale q
  end.

Lemma dequantize_quantize_row cfg row :
  dequantize_row (quantize_row cfg row) = map (row_entry cfg row) row.
Proof.
  unfold row_entry, dequantize_row, quantize_row.
  destruct (zero_point cfg); cbn [qzero codes qscale];
    rewrite map_map; reflexivity.
Qed.

Lemma Qabs_le_amax row w : In w row -> Qabs w <= amax (map Qabs row).
Proof. intros Hin. apply amax_ge. apply in_map; auto. Qed.

Lemma row_entry_err cfg row w :
  (2 <= w_bit cfg)%Z -> In w row ->
  zero_point cfg = false \/ spans_zero row ->
  Qabs (row_entry cfg row w - w) <= qscale (quantize_row cfg row) / 2.
Proof.
  intros Hb Hin Hcond.
  pose proof (@max_int_pos cfg Hb) as HM.
  unfold row_entry, quantize_row, max_int, min_int in *.
  destruct (zero_point cfg) eqn:Ezp; cbn [qzero qscale].
  - destruct Hcond as [Hcond | [Hmn Hmx]]; [discriminate |].
    pose proof (amax_ge row w Hin) as Hw_hi.
    pose proof (amin_le row w Hin) as Hw_lo.
    pose proof (clamp_min_pos (amax row - amin row)) as Hr.
    pose proof (clamp_min_ge (amax row - amin row)) as Hge.
    set (s := clamp_min (amax row - amin row) eps5 / _).
    set (z := clampZ (- _) 0 _).
    set (c := clampZ _ 0 _).
    assert (E : (inject_Z c - inject_Z z) * s - w == inject_Z (c - z) * s - w).
    { unfold Zminus. rewrite inject_Z_plus, inject_Z_opp. ring. }
    rewrite E.
    apply (@zero_point_entry_err (2 ^ w_bit cfg - 1)%Z HM
             (clamp_min (amax row - amin row) eps5) (amin row) w);
      auto; lra.
  - pose proof (Qabs_le_amax row w Hin) as Hw.
    pose proof (clamp_min_pos (amax (map Qabs row))) as Hr.
    pose proof (clamp_min_ge (amax (map Qabs row))) as Hge.
    replace (- 2 ^ (w_bit cfg - 1))%Z
      with (- (2 ^ (w_bit cfg - 1) - 1) - 1)%Z by lia.
    apply (@symmetric_entry_err (2 ^ (w_bit cfg - 1) - 1)%Z HM
             (clamp_min (amax (map Qabs row)) eps5) w); auto; lra.
Qed.

Lemma nth_map_default {A B} (f : A -> B) (l : list A) (i : nat) dA dB :
  (i < length l)%nat -> nth i (map f l) dB = f (nth i l dA).
Proof.
  intros Hi. rewrite (nth_indep _ dB (f dA)) by (rewrite length_map; auto).
  apply map_nth.
Qed.

Lemma rows_of_Forall_length {A} n g (l : list A) :
  length l = (n * g)%nat -> Forall (fun r => length r = g) (rows_of n g l).
Proof.
  intros Hl. apply Forall_forall. intros r Hr.
  eapply rows_of_row_length; eauto.
Qed.

(** The quantization groups of a matrix with rows of [c] entries, in
    row-major order. *)
Definition groups_of (cfg : config) (w : tensor) (c : nat) : list (list Q) :=
  rows_of (length (data w) / gsize cfg c) (gsize cfg c) (data w).

Lemma pseudo_quantize_tensor_matrix cfg w r c :
  shape w = [r; c] -> wf_tensor w ->
  (0 < r)%nat -> (0 < c)%nat -> groupable cfg c ->
  let qs := map (quantize_row cfg) (groups_of cfg w c) in
  pseudo_quantize_tensor cfg w =
    Ok (mkTensor [r; c] (concat (map dequantize_row qs)),
        mkTensor [r; (c / gsize cfg c)%nat] (map qscale qs),
        if zero_point cfg then
          Some (mkTensor [r; (c / gsize cfg c)%nat] (map zero_value qs))
        else None) /\
  length (data w) = (r * (c / gsize cfg c) * gsize cfg c)%nat.
Proof.
  intros Hsh Hwf Hr Hc Hg qs.
  destruct (@gsize_divides cfg c Hc Hg) as [Hg0 Hdiv].
  assert (Hlen : length (data w) = (r * (c / gsize cfg c) * gsize cfg c)%nat).
  { unfold wf_tensor in Hwf. rewrite Hwf, Hsh. cbn [numel fold_right].
    rewrite Hdiv at 1. lia. }
  split; auto.
  unfold pseudo_quantize_tensor.
  rewrite (@quantize_groups_matrix cfg w r c Hsh Hr Hc Hg). cbn [bind].
  unfold qs, groups_of. rewrite Hlen, Nat.div_mul by lia.
  rewrite Hsh. reflexivity.
Qed.

(** The bound of the claim at entry [i] of a matrix with rows of [c]
    entries: the dequantized entry is within half the scale of its group. *)
Definition within_half_scale (cfg : config) (c : nat)
    (w w_hat scales : tensor) (i : nat) : Prop :=
  Qabs (nth i (data w_hat) 0 - nth i (data w) 0)
    <= nth (i / gsize cfg c) (data scales) 0 / 2.

Lemma within_half_scale_matrix cfg w r c i :
  (2 <= w_bit cfg)%Z ->
  shape w = [r; c] -> wf_tensor w ->
  (0 < r)%nat -> (0 < c)%nat -> groupable cfg c ->
  (i < length (data w))%nat ->
  zero_point cfg = false \/
    spans_zero (nth (i / gsize cfg c) (groups_of cfg w c) []) ->
  let qs := map (quantize_row cfg) (groups_of cfg w c) in
  within_half_scale cfg c w
    (mkTensor [r; c] (concat (map dequantize_row qs)))
    (mkTensor [r; (c / gsize cfg c)%nat] (map qscale qs)) i.
Proof.
  intros Hb Hsh Hwf Hr Hc Hg Hi Hcond qs.
  destruct (@pseudo_quantize_tensor_matrix cfg w r c Hsh Hwf Hr Hc Hg)
    as [_ Hlen].
  destruct (@gsize_divides cfg c Hc Hg) as [Hg0 _].
  unfold within_half_scale, qs, groups_of in *. cbn [data].
  set (g := gsize cfg c) in *. set (k := (c / g)%nat) in *.
  rewrite Hlen, Nat.div_mul in * by lia.
  set (rows := rows_of (r * k) g (data w)) in *.
  assert (Hrows : Forall (fun row => length row = g) rows)
    by (apply rows_of_Forall_length; auto).
  assert (Hdata : data w = concat rows)
    by (symmetry; apply rows_of_concat; auto).
  assert (Hig : (i / g < length rows)%nat).
  { unfold rows. rewrite rows_of_length.
    apply Nat.Div0.div_lt_upper_bound; lia. }
  set (row := nth (i / g) rows []) in *.
  assert (Hrow_in : In row rows) by (apply nth_In; auto).
  assert (Hrow_len : length row = g).
  { rewrite Forall_forall in Hrows. auto. }
  assert (Him : (i mod g < length row)%nat).
  { rewrite Hrow_len. apply Nat.mod_upper_bound. lia. }
  rewrite !map_map.
  rewrite (@nth_map_default _ _ _ rows (i / g) [] 0) by auto.
  rewrite Hdata at 1.
  rewrite (@nth_concat_uniform _ rows g i 0) by auto.
  rewrite (@nth_concat_uniform _ _ g i 0); auto.
  - rewrite (@nth_map_default _ _ _ rows (i / g) [] []) by auto.
    fold row. rewrite dequantize_quantize_row.
    rewrite (@nth_map_default _ _ _ row (i mod g) 0 0) by auto.
    apply row_entry_err; auto. apply nth_In; auto.
  - apply Forall_forall. intros l Hl.
    apply in_map_iff in Hl. destruct Hl as [row' [<- Hin']].
    rewrite dequantize_quantize_row, length_map.
    rewrite Forall_forall in Hrows. auto.
Qed.

(** ** [pseudo_dequantize_tensor] when every row is one group *)

Lemma rows_of_singletons {A} (l : list A) :
  rows_of (length l) 1 l = map (fun x => [x]) l.
Proof. induction l as [| x l IH]; cbn; [| rewrite IH]; reflexivity. Qed.

Lemma concat_repeat_singleton {A} (x : A) k :
  concat (repeat [x] k) = repeat x k.
Proof. induction k; cbn; [| rewrite IHk]; reflexivity. Qed.

Lemma zip_with_app {A B C} (f : A -> B -> C) a1 a2 b1 b2 :
  length a1 = length b1 ->
  zip_with f (a1 ++ a2) (b1 ++ b2) = zip_with f a1 b1 ++ zip_with f a2 b2.
Proof.
  unfold zip_with. revert b1.
  induction a1 as [| x a1 IH]; intros [| y b1] Hl; try discriminate.
  - reflexivity.
  - cbn. f_equal. apply IH. cbn in Hl. lia.
Qed.

Lemma zip_with_length {A B C} (f : A -> B -> C) a b :
  length a = length b -> length (zip_with f a b) = length a.
Proof.
  intros Hl. unfold zip_with. rewrite length_map, length_combine. lia.
Qed.

Lemma zip_with_repeat {A B C} (f : A -> B -> C) a y :
  zip_with f a (repeat y (length a)) = map (fun x => f x y) a.
Proof. induction a as [| x a IH]; cbn; [| unfold zip_with in IH; rewrite IH]; reflexivity. Qed.

Lemma tile_single_column (l : list Q) n k :
  length l = n ->
  concat (map (fun row => concat (repeat row k)) (rows_of n 1 l))
  = concat (map (fun x => repeat x k) l).
Proof.
  intros <-. rewrite rows_of_singletons, map_map. f_equal.
  apply map_ext. intros x. apply concat_repeat_singleton.
Qed.

Lemma quantize_row_codes_length cfg row :
  length (codes (quantize_row cfg row)) = length row.
Proof.
  unfold quantize_row. destruct (zero_point cfg); cbn [codes]; apply length_map.
Qed.

Lemma dequantize_row_as_zip (q : qrow) :
  let n := length (codes q) in
  dequantize_row q =
    match qzero q with
    | Some _ =>
        zip_with Qmult
          (zip_with Qminus (map inject_Z (codes q)) (repeat (zero_value q) n))
          (repeat (qscale q) n)
    | None => zip_with Qmult (map inject_Z (codes q)) (repeat (qscale q) n)
    end.
Proof.
  destruct q as [cs s [z |]]; unfold dequantize_row, zero_value;
    cbn [codes qscale qzero]; induction cs as [| c cs IH]; cbn; auto;
    unfold zip_with in IH; rewrite <- IH; reflexivity.
Qed.

Lemma quantize_row_qzero cfg row :
  qzero (quantize_row cfg row) =
    if zero_point cfg
    then Some (clampZ (- round_half_even
                         (amin row / qscale (quantize_row cfg row)))
                      (min_int cfg) (max_int cfg))
    else None.
Proof. unfold quantize_row. destruct (zero_point cfg); reflexivity. Qed.

Lemma dequantize_rows_as_zip cfg (rows : list (list Q)) c :
  Forall (fun row => length row = c) rows ->
  let qs := map (quantize_row cfg) rows in
  let ws := map inject_Z (concat (map codes qs)) in
  let ss := concat (map (fun x => repeat x c) (map qscale qs)) in
  let zs := concat (map (fun x => repeat x c) (map zero_value qs)) in
  concat (map dequantize_row qs) =
    (if zero_point cfg then zip_with Qmult (zip_with Qminus ws zs) ss
     else zip_with Qmult ws ss).
Proof.
  induction 1 as [| row rows Hrow Hrows IH]; cbn zeta in *.
  - destruct (zero_point cfg); reflexivity.
  - cbn [map concat]. rewrite map_app.
    assert (Hlc : length (codes (quantize_row cfg row)) = c)
      by (rewrite quantize_row_codes_length; auto).
    rewrite IH. clear IH.
    pose proof (dequantize_row_as_zip (quantize_row cfg row)) as Hq.
    cbn zeta in Hq. rewrite Hlc, quantize_row_qzero in Hq. rewrite Hq.
    destruct (zero_point cfg) eqn:Ezp.
    + rewrite !zip_with_app; auto.
      * rewrite zip_with_length; rewrite !length_map, ?repeat_length; lia.
      * rewrite length_map, repeat_length; lia.
    + rewrite !zip_with_app; auto.
      rewrite length_map, repeat_length; lia.
Qed.

Lemma pseudo_dequantize_single_group cfg w r c :
  shape w = [r; c] -> wf_tensor w ->
  (0 < r)%nat -> (0 < c)%nat -> gsize cfg c = c ->
  let qs := map (quantize_row cfg) (groups_of cfg w c) in
  pseudo_dequantize_tensor cfg
    (mkTensor [r; c] (map inject_Z (concat (map codes qs))))
    (mkTensor [r; 1%nat] (map qscale qs))
    (if zero_point cfg then Some (mkTensor [r; 1%nat] (map zero_value qs))
     else None)
  = Ok (mkTensor [r; c] (concat (map dequantize_row qs))).
Proof.
  intros Hsh Hwf Hr Hc Hgs qs.
  assert (Hlen : length (data w) = (r * c)%nat).
  { unfold wf_tensor in Hwf. rewrite Hwf, Hsh. cbn. lia. }
  assert (Hrows : Forall (fun row => length row = c) (groups_of cfg w c)).
  { unfold groups_of. rewrite Hgs, Hlen, Nat.div_mul by lia.
    apply rows_of_Forall_length; auto. }
  assert (Hqs : length qs = r).
  { unfold qs, groups_of. rewrite length_map, rows_of_length, Hgs, Hlen.
    apply Nat.div_mul; lia. }
  pose proof (@dequantize_rows_as_zip cfg _ c Hrows) as Hzip.
  cbn zeta in Hzip. fold qs in Hzip. rewrite Hzip.
  unfold pseudo_dequantize_tensor, last_dim, repeat_cols, reshape.
  cbn [shape rev app bind Nat.eqb data].
  rewrite Nat.div_1_r.
  assert (Hnum : (numel [r; (1 * c)%nat] =? numel [r; c])%nat = true).
  { apply Nat.eqb_eq. cbn. lia. }
  destruct (zero_point cfg).
  - cbn [bind shape data]. rewrite Hnum. cbn [bind shape data].
    rewrite !tile_single_column by (rewrite length_map; auto). reflexivity.
  - cbn [bind shape data]. rewrite Hnum. cbn [bind shape data].
    rewrite !tile_single_column by (rewrite length_map; auto). reflexivity.
Qed.

(** ** The claim and its amendment *)

(** The rounding bound at every entry, with no condition on the groups. *)
Definition rounding_bound_everywhere (cfg : config) (w : tensor) (c : nat)
  : Prop :=
  exists w_hat scales zeros,
    pseudo_quantize_tensor cfg w = Ok (w_hat, scales, zeros) /\
    forall i, (i < length (data w))%nat ->
              within_half_scale cfg c w w_hat scales i.

(** The rounding bound in symmetric mode and, in zero-point mode, at the
    entries of the groups whose values span zero; and the agreement of
    [pseudo_dequantize_tensor] with the returned matrix when a row is one
    group. *)
Definition rounding_bound_spanning (cfg : config) (w : tensor) (c : nat)
  : Prop :=
  exists w_hat scales zeros,
    pseudo_quantize_tensor cfg w = Ok (w_hat, scales, zeros) /\
    shape w_hat = shape w /\
    (forall i, (i < length (data w))%nat ->
       zero_point cfg = false \/
         spans_zero (nth (i / gsize cfg c) (groups_of cfg w c) []) ->
       within_half_scale cfg c w w_hat scales i) /\
    (gsize cfg c = c ->
       exists cs,
         pseudo_quantize_codes cfg w = Ok cs /\
         pseudo_dequantize_tensor cfg
           (mkTensor (shape w) (map inject_Z cs)) scales zeros = Ok w_hat).

(** C1, as stated, fails in zero-point mode: with [w_bit = 4] and
    [group_size = 2] the row [[1; 2]] has scale [1/15] and zero [0] (the
    zero is clamped into [[0, 15]]), both entries get code 15 and come back
    as 1, so the second entry is off by 1, more than half a scale. *)
Definition w_positive : tensor := mkTensor [1; 2]%nat [1; 2].

Lemma C1_counterexample :
  ((2 <= w_bit cfg_zp4_g2)%Z /\ wf_tensor w_positive /\
   groupable cfg_zp4_g2 2) /\
  pseudo_quantize_tensor cfg_zp4_g2 w_positive =
    Ok (mkTensor [1; 2]%nat [15 # 15; 15 # 15],
        mkTensor [1; 1]%nat [1 # 15],
        Some (mkTensor [1; 1]%nat [0])) /\
  ~ rounding_bound_everywhere cfg_zp4_g2 w_positive 2.
Proof.
  split; [| split].
  - repeat split; [cbn; lia | right; reflexivity].
  - reflexivity.
  - intros (w_hat & scales & zeros & Hq & Hall).
    vm_compute in Hq. injection Hq as <- <- _.
    specialize (Hall 1%nat (Nat.lt_succ_diag_r 1)).
    vm_compute in Hall. apply Hall. reflexivity.
Qed.

(** [pseudo_dequantize_tensor] tiles the scales of a row
    ([scales.repeat(1, k)]) instead of repeating each one over its group:
    with two groups per row it applies the second group's scale to the
    second entry of the first group. *)
Lemma pseudo_dequantize_tiles_scales :
  pseudo_quantize_tensor cfg_zp4_g2 w_example =
    Ok (mkTensor [1; 4]%nat [15 # 15; 15 # 15; 0 # 15; 1455 # 15],
        mkTensor [1; 2]%nat [1 # 15; 97 # 15],
        Some (mkTensor [1; 2]%nat [0; 0])) /\
  pseudo_quantize_codes cfg_zp4_g2 w_example = Ok [15; 15; 0; 15]%Z /\
  pseudo_dequantize_tensor cfg_zp4_g2
    (mkTensor [1; 4]%nat (map inject_Z [15; 15; 0; 15]%Z))
    (mkTensor [1; 2]%nat [1 # 15; 97 # 15])
    (Some (mkTensor [1; 2]%nat [0; 0]))
  = Ok (mkTensor [1; 4]%nat [15 # 15; 1455 # 15; 0 # 15; 1455 # 15]).
Proof. repeat split. Qed.

(** C1, amended.  For [w_bit >= 2] and a weight matrix whose row length
    the group size divides (or with a non-positive group size, one group
    per row), [pseudo_quantize_tensor] returns a matrix of the same shape
    whose entries differ from those of [W] by at most half the scale of
    their group in symmetric mode, and in zero-point mode for the entries
    of every group whose minimum is at most 0 and whose maximum is at
    least 0; when every row is one group, [pseudo_dequantize_tensor]
    applied to the codes, scales and zeros returns that same matrix. *)
Theorem C1_rounding_bound cfg w r c :
  (2 <= w_bit cfg)%Z ->
  shape w = [r; c] -> wf_tensor w ->
  (0 < r)%nat -> (0 < c)%nat -> groupable cfg c ->
  rounding_bound_spanning cfg w c.
Proof.
  intros Hb Hsh Hwf Hr Hc Hg.
  destruct (@pseudo_quantize_tensor_matrix cfg w r c Hsh Hwf Hr Hc Hg)
    as [Hq Hlen].
  cbn zeta in Hq.
  unfold rounding_bound_spanning. rewrite Hq.
  do 3 eexists. split; [reflexivity |]. split; [symmetry; exact Hsh |].
  split.
  - intros i Hi Hcond.
    apply (@within_half_scale_matrix cfg w r c i); auto.
  - intros Hgs.
    unfold pseudo_quantize_codes.
    rewrite (@quantize_groups_matrix cfg w r c Hsh Hr Hc Hg). cbn [bind].
    eexists. split; [reflexivity |].
    pose proof (@pseudo_dequantize_single_group cfg w r c Hsh Hwf Hr Hc Hgs)
      as Hd.
    cbn zeta in Hd. unfold groups_of in *.
    rewrite Hlen, Hgs, Nat.div_mul in * by lia.
    rewrite Nat.div_same in * by lia.
    rewrite Hsh. exact Hd.
Qed.

(** Four-bit zero-point quantization with one group per row. *)
Definition cfg_zp4_row : config := mkConfig 4 (-1) true "gemm" true 1024.
Definition w_spanning : tensor := mkTensor [1; 2]%nat [-1; 2].

Lemma C1_rounding_bound_witness :
  ((2 <= w_bit cfg_zp4_row)%Z /\ shape w_spanning = [1; 2]%nat /\
   wf_tensor w_spanning /\ (0 < 1)%nat /\ (0 < 2)%nat /\
   groupable cfg_zp4_row 2) /\
  rounding_bound_spanning cfg_zp4_row w_spanning 2.
Proof.
  assert (H1 : (2 <= w_bit cfg_zp4_row)%Z) by (cbn; lia).
  assert (H2 : shape w_spanning = [1; 2]%nat) by reflexivity.
  assert (H3 : wf_tensor w_spanning) by reflexivity.
  assert (H4 : (0 < 1)%nat) by lia.
  assert (H5 : (0 < 2)%nat) by lia.
  assert (H6 : groupable cfg_zp4_row 2) by (left; cbn; lia).
  split; [repeat split; auto |].
  exact (@C1_rounding_bound cfg_zp4_row w_spanning 1 2 H1 H2 H3 H4 H5 H6).
Defined.

(* ================================================================== *)
(** * [_compute_loss] *)

(** Arithmetic on output entries and losses.  A non-finite operand makes
    the difference, the square and the sum non-finite.  The operations on
    finite operands are the exact ones: the overflow of the difference of
    two finite entries of a half-precision output is not represented. *)
Definition fsub (a b : fval) : fval :=
  match a, b with
  | Finite x, Finite y => Finite (x - y)
  | _, _ => NonFinite
  end.

Definition fadd (a b : fval) : fval :=
  match a, b with
  | Finite x, Finite y => Finite (x + y)
  | _, _ => NonFinite
  end.

Definition fsq (a : fval) : fval :=
  match a with
  | Finite x => Finite (x * x)
  | NonFinite => NonFinite
  end.

(** Division by a positive element count. *)
Definition fdiv_nat (a : fval) (n : nat) : fval :=
  match a with
  | Finite x => Finite (x / inject_Z (Z.of_nat n))
  | NonFinite => NonFinite
  end.

Definition fsum (l : list fval) : fval := fold_left fadd l (Finite 0).

(** Equality of values: equality of rationals on finite ones. *)
Definition feq (a b : fval) : Prop :=
  match a, b with
  | Finite x, Finite y => x == y
  | NonFinite, NonFinite => True
  | _, _ => False
  end.

(** An elementwise binary operation on vectors, with torch's broadcasting
    of a one-element operand. *)
Definition bzip {A} (f : A -> A -> A) (a b : list A) : result (list A) :=
  if (length a =? length b)%nat then Ok (zip_with f a b)
  else match a, b with
       | [x], _ => Ok (map (f x) b)
       | _, [y] => Ok (map (fun x => f x y) a)
       | _, _ => Raise RuntimeError
       end.

(** [torch.split(t, k)] on a vector, for [k > 0]: chunks of [k] entries,
    the last one shorter; a single empty chunk for an empty vector. *)
Definition torch_split {A} (l : list A) (k : nat) : list (list A) :=
  match l with
  | [] => [[]]
  | _ => rows_of ((length l + k - 1) / k) k l
  end.

(** The body of the loop over [zip(fp16_chunks, int_w_chunks)]. *)
Fixpoint loss_loop (pairs : list (list fval * list fval)) (loss : fval)
  : result fval :=
  match pairs with
  | [] => Ok loss
  | (fp16_chunk, int_w_chunk) :: rest =>
      d <- bzip fsub fp16_chunk int_w_chunk ;;
      let chunk_loss := fsum (map fsq d) in
      loss_loop rest (fadd loss chunk_loss)
  end.

(** The chunk size [min(max_chunk_memory // (element_size * 2), n)];
    [element_size] is the positive byte size of the output's dtype. *)
Definition loss_chunk_size (cfg : config) (element_size : Z) (n : nat) : Z :=
  Z.min (max_chunk_memory cfg / (element_size * 2)) (Z.of_nat n).

Definition _compute_loss (cfg : config) (element_size : Z)
    (fp16_output int_w_output : list fval) : result fval :=
  let num_elements := length fp16_output in
  let chunk_size := loss_chunk_size cfg element_size num_elements in
  if (chunk_size <=? 0)%Z then
    (* [torch.split] refuses a negative size, and a zero size unless the
       vector is empty, in which case the final division fails *)
    if ((chunk_size =? 0)%Z && (num_elements =? 0)%nat)%bool
    then Raise ZeroDivisionError else Raise RuntimeError
  else
    let fp16_chunks := torch_split fp16_output (Z.to_nat chunk_size) in
    let int_w_chunks := torch_split int_w_output (Z.to_nat chunk_size) in
    loss <- loss_loop (combine fp16_chunks int_w_chunks) (Finite 0) ;;
    if (num_elements =? 0)%nat then Raise ZeroDivisionError
    else Ok (fdiv_nat loss num_elements).

(** The unchunked computation [sum((a - b)^2) / n]. *)
Definition mse_reference (a b : list fval) : fval :=
  fdiv_nat (fsum (map fsq (zip_with fsub a b))) (length a).

Lemma feq_refl a : feq a a.
Proof. destruct a; simpl; auto. reflexivity. Qed.

Lemma feq_sym a b : feq a b -> feq b a.
Proof. destruct a, b; simpl; auto. intros; symmetry; auto. Qed.

Lemma feq_trans a b c : feq a b -> feq b c -> feq a c.
Proof.
  destruct a, b, c; simpl; auto; try contradiction.
  intros; etransitivity; eauto.
Qed.

Lemma fadd_feq a a' b b' : feq a a' -> feq b b' -> feq (fadd a b) (fadd a' b').
Proof.
  destruct a, a', b, b'; simpl; auto; try contradiction.
  intros -> ->. reflexivity.
Qed.

Lemma fadd_assoc a b c : feq (fadd (fadd a b) c) (fadd a (fadd b c)).
Proof. destruct a, b, c; simpl; auto. ring. Qed.

Lemma fadd_0_r a : feq (fadd a (Finite 0)) a.
Proof. destruct a; simpl; auto. ring. Qed.

Lemma fold_left_fadd_feq l x y :
  feq x y -> feq (fold_left fadd l x) (fold_left fadd l y).
Proof.
  revert x y; induction l as [| z l IH]; simpl; intros x y H; auto.
  apply IH. apply fadd_feq; auto using feq_refl.
Qed.

Lemma fold_left_fadd_acc l x :
  feq (fold_left fadd l x) (fadd x (fsum l)).
Proof.
  unfold fsum. revert x; induction l as [| z l IH]; simpl; intros x.
  - apply feq_sym, fadd_0_r.
  - eapply feq_trans; [apply IH |].
    eapply feq_trans; [apply fadd_assoc |].
    apply fadd_feq; [apply feq_refl |].
    apply feq_sym. eapply feq_trans; [apply IH |].
    apply fadd_feq; [| apply feq_refl].
    destruct z; simpl; auto. ring.
Qed.

Lemma fsum_app l1 l2 : feq (fsum (l1 ++ l2)) (fadd (fsum l1) (fsum l2)).
Proof.
  unfold fsum at 1. rewrite fold_left_app.
  apply fold_left_fadd_acc.
Qed.

Lemma fdiv_nat_feq a b n : feq a b -> feq (fdiv_nat a n) (fdiv_nat b n).
Proof. destruct a, b; simpl; auto. intros ->. reflexivity. Qed.

Lemma zip_with_firstn_skipn {A B C} (f : A -> B -> C) k a b :
  length a = length b ->
  zip_with f a b =
    zip_with f (firstn k a) (firstn k b) ++
    zip_with f (skipn k a) (skipn k b).
Proof.
  intros Hl.
  rewrite <- zip_with_app by (rewrite !length_firstn; lia).
  rewrite !firstn_skipn. reflexivity.
Qed.

Lemma bzip_same_length {A} (f : A -> A -> A) a b :
  length a = length b -> bzip f a b = Ok (zip_with f a b).
Proof. intros Hl. unfold bzip. rewrite Hl, Nat.eqb_refl. reflexivity. Qed.

(** The loop over the chunks accumulates the sum of all squared
    differences, whatever the chunk length. *)
Lemma loss_loop_rows m k a b acc :
  length a = length b -> (length a <= m * k)%nat ->
  exists r,
    loss_loop (combine (rows_of m k a) (rows_of m k b)) acc = Ok r /\
    feq r (fadd acc (fsum (map fsq (zip_with fsub a b)))).
Proof.
  revert a b acc. induction m as [| m IH]; intros a b acc Hl Hle.
  - destruct a; [| cbn in Hle; lia]. destruct b; [| discriminate].
    cbn. eexists; split; [reflexivity |]. apply feq_sym, fadd_0_r.
  - cbn [rows_of combine loss_loop].
    rewrite bzip_same_length by (rewrite !length_firstn; lia).
    cbn [bind].
    destruct (IH (skipn k a) (skipn k b)
                 (fadd acc (fsum (map fsq (zip_with fsub (firstn k a)
                                                    (firstn k b))))))
      as [r [Hr Hfeq]].
    + rewrite !length_skipn; lia.
    + rewrite length_skipn. cbn in Hle. lia.
    + exists r. split; [exact Hr |].
      eapply feq_trans; [exact Hfeq |].
      eapply feq_trans; [apply fadd_assoc |].
      apply fadd_feq; [apply feq_refl |].
      rewrite (zip_with_firstn_skipn fsub k a b Hl), map_app.
      apply feq_sym, fsum_app.
Qed.

Lemma ceil_div_covers n k : (0 < k)%nat -> (n <= (n + k - 1) / k * k)%nat.
Proof.
  intros Hk.
  pose proof (Nat.div_mod_eq (n + k - 1) k) as E.
  pose proof (Nat.mod_upper_bound (n + k - 1) k) as Hm.
  lia.
Qed.

(** C9.  For two output vectors of equal length and any configuration
    whose derived chunk size is positive, [_compute_loss] returns a loss,
    and it equals the unchunked [sum((a - b)^2) / n]; hence any two chunk
    sizes give equal losses. *)
Theorem C9_chunked_loss_equals_reference cfg element_size a b :
  length a = length b ->
  (0 < loss_chunk_size cfg element_size (length a))%Z ->
  (exists loss,
     _compute_loss cfg element_size a b = Ok loss /\
     feq loss (mse_reference a b)) /\
  (forall cfg' element_size',
     (0 < loss_chunk_size cfg' element_size' (length a))%Z ->
     exists loss loss',
       _compute_loss cfg element_size a b = Ok loss /\
       _compute_loss cfg' element_size' a b = Ok loss' /\
       feq loss loss').
Proof.
  intros Hl.
  assert (Hone : forall cfg0 es0,
             (0 < loss_chunk_size cfg0 es0 (length a))%Z ->
             exists loss,
               _compute_loss cfg0 es0 a b = Ok loss /\
               feq loss (mse_reference a b)).
  { intros cfg0 es0 Hk. unfold _compute_loss.
    set (cs := loss_chunk_size cfg0 es0 (length a)) in *.
    destruct (Z.leb_spec cs 0) as [Hneg | _]; [lia |].
    assert (Hn : (0 < length a)%nat).
    { unfold cs, loss_chunk_size in Hk. lia. }
    set (k := Z.to_nat cs). assert (Hk0 : (0 < k)%nat) by (unfold k; lia).
    unfold torch_split.
    destruct a as [| x a']; [cbn in Hn; lia |].
    destruct b as [| y b']; [discriminate |].
    rewrite <- Hl.
    destruct (@loss_loop_rows ((length (x :: a') + k - 1) / k) k
                (x :: a') (y :: b') (Finite 0) Hl
                (ceil_div_covers (length (x :: a')) Hk0))
      as [r [Hr Hfeq]].
    rewrite Hr. cbn [bind].
    destruct (Nat.eqb_spec (length (x :: a')) 0); [cbn in *; lia |].
    eexists; split; [reflexivity |].
    unfold mse_reference. apply fdiv_nat_feq.
    eapply feq_trans; [exact Hfeq |].
    destruct (fsum _); simpl; auto. ring. }
  intros Hk. split; [apply Hone; auto |].
  intros cfg' es' Hk'.
  destruct (Hone cfg element_size Hk) as [l1 [H1 F1]].
  destruct (Hone cfg' es' Hk') as [l2 [H2 F2]].
  exists l1, l2. repeat split; auto.
  eapply feq_trans; [exact F1 | apply feq_sym; exact F2].
Qed.

(** A budget of one 16-byte chunk, so that two-byte entries go four at a
    time, and one of 1 GiB, so that everything is one chunk. *)
Definition cfg_chunk4 : config := mkConfig 4 2 true "gemm" true 16.
Definition cfg_gib : config := mkConfig 4 2 true "gemm" true (1024 * 1024 * 1024).
Definition out_a : list fval :=
  map Finite [1; 2; 3; 4; 5; 6; 7; 8; 9; 10].
Definition out_b : list fval :=
  map Finite [1; 1; 1; 1; 1; 1; 1; 1; 1; 7 # 2].

Lemma C9_chunked_loss_equals_reference_witness :
  (length out_a = length out_b /\
   (0 < loss_chunk_size cfg_chunk4 2 (length out_a))%Z /\
   (0 < loss_chunk_size cfg_gib 2 (length out_a))%Z) /\
  loss_chunk_size cfg_chunk4 2 (length out_a) = 4%Z /\
  loss_chunk_size cfg_gib 2 (length out_a) = 10%Z /\
  (exists loss loss',
     _compute_loss cfg_chunk4 2 out_a out_b = Ok loss /\
     _compute_loss cfg_gib 2 out_a out_b = Ok loss' /\
     feq loss loss').
Proof.
  assert (H1 : length out_a = length out_b) by reflexivity.
  assert (H2 : (0 < loss_chunk_size cfg_chunk4 2 (length out_a))%Z)
    by (vm_compute; reflexivity).
  assert (H3 : (0 < loss_chunk_size cfg_gib 2 (length out_a))%Z)
    by (vm_compute; reflexivity).
  split; [repeat split; auto |]. split; [reflexivity |].
  split; [reflexivity |].
  exact (proj2 (@C9_chunked_loss_equals_reference cfg_chunk4 2 out_a out_b
                  H1 H2) cfg_gib 2%Z H3).
Defined.

(* ================================================================== *)
(** * [_compute_best_clip] *)

Definition Qltb (x y : Q) : bool := negb (Qle_bool y x).

Lemma Qltb_spec x y : Qltb x y = true <-> x < y.
Proof.
  unfold Qltb. rewrite negb_true_iff.
  destruct (Qle_bool y x) eqn:E.
  - apply Qle_bool_iff in E. split; [discriminate | intros; lra].
  - split; auto. intros _. apply Qnot_le_lt. intros H.
    apply Qle_bool_iff in H. congruence.
Qed.

(** [t[::step]] along a list, for [step >= 1]. *)
Fixpoint stride_aux {A} (fuel step : nat) (l : list A) : list A :=
  match fuel with
  | O => []
  | S fuel' =>
      match l with
      | [] => []
      | x :: _ => x :: stride_aux fuel' step (skipn step l)
      end
  end.

Definition stride {A} (step : nat) (l : list A) : list A :=
  stride_aux (length l) step l.

Definition n_grid : nat := 20.
Definition max_shrink : Q := 1 # 2.
Definition n_sample_token : nat := 512.

(** [int(max_shrink * n_grid)]. *)
Definition n_shrink_steps : nat :=
  Z.to_nat (Qfloor (max_shrink * inject_Z (Z.of_nat n_grid))).

Definition oc_batch_size (co : nat) : nat :=
  if (co mod 256 =? 0)%nat then 256%nat else 64%nat.

(** The sizes fixed by the reshapes at the head of [_compute_best_clip],
    and the sampled tokens. *)
Record clip_layout : Type := mkLayout {
  l_co : nat;            (* output channels *)
  l_gs : nat;            (* entries per group *)
  l_ngx : nat;           (* groups per token of the features *)
  l_ngw : nat;           (* groups per weight row *)
  l_tokens : list (list Q)
}.

Definition clip_reshape (cfg : config) (w input_feat : tensor)
  : result clip_layout :=
  assert (length (shape w) =? 2)%nat ;;;
  match shape w with
  | [co; ci] =>
      let group_size :=
        if (0 <? group_size cfg)%Z then Z.to_nat (group_size cfg) else ci in
      last <- last_dim (shape input_feat) ;;
      n <- infer_dim (numel (shape input_feat)) last ;;
      ngx <- infer_dim (n * last) (1 * n * group_size) ;;
      let step_size := Nat.max 1 (n / n_sample_token) in
      let tokens :=
        stride step_size (rows_of n (ngx * group_size) (data input_feat)) in
      ngw <- infer_dim (co * ci) (co * 1 * group_size) ;;
      Ok (mkLayout co group_size ngx ngw tokens)
  | _ => Raise AssertionError
  end.

Definition dot (x w : list Q) : Q := Qsum (zip_with Qmult x w).

(** [(input_feat * w).sum(dim=-1)] at one channel and group: one value per
    token.  A single feature group is broadcast over the weight groups. *)
Definition group_out (lay : clip_layout) (g : nat) (wg : list Q) : list Q :=
  map (fun tok =>
         dot (nth (if (l_ngx lay =? 1)%nat then 0%nat else g)
                  (rows_of (l_ngx lay) (l_gs lay) tok) [])
             wg)
      (l_tokens lay).

(** The same for all channels and groups of a block, in the order of
    [min_errs]. *)
Definition block_out (lay : clip_layout) (groups : list (list Q))
  : list (list Q) :=
  map (fun pg => group_out lay (fst pg mod l_ngw lay) (snd pg))
      (combine (seq 0 (length groups)) groups).

Definition broadcastable (a b : nat) : bool :=
  ((a =? b) || (a =? 1) || (b =? 1))%nat%bool.

Definition mean (l : list Q) : Q := Qsum l / inject_Z (Z.of_nat (length l)).

(** One step of the grid: the candidate bound of every channel and group
    with the error measured for it, as pairs [(err, max_val)]. *)
Definition clip_trial (cfg : config) (lay : clip_layout) (bs : nat)
    (groups : list (list Q)) (org_max_val : list Q)
    (org_out : list (list Q)) (i_s : nat) : result (list (Q * Q)) :=
  let max_val :=
    map (fun m => m * (1 - inject_Z (Z.of_nat i_s)
                           / inject_Z (Z.of_nat n_grid))) org_max_val in
  let cur_w :=
    zip_with (fun wg mv => map (fun x => clampQ x (- mv) mv) wg)
             groups max_val in
  r <- pseudo_quantize_tensor cfg
         (mkTensor [bs; 1%nat; l_ngw lay; l_gs lay] (concat cur_w)) ;;
  let q_w := fst (fst r) in
  let cur_out :=
    block_out lay (rows_of (length groups) (l_gs lay) (data q_w)) in
  (* [.view(min_errs.shape)] of the per-group errors *)
  if negb ((l_ngx lay =? l_ngw lay) || (l_ngx lay =? 1))%nat%bool
  then Raise RuntimeError
  else
    let err :=
      zip_with (fun c o => mean (zip_with (fun a b => (a - b) * (a - b)) c o))
               cur_out org_out in
    Ok (combine err max_val).

(** [cur_best_idx = err < min_errs] and the two masked assignments, on the
    pairs [(min_errs, best_max_val)]. *)
Definition clip_update (st trial : list (Q * Q)) : list (Q * Q) :=
  zip_with (fun s t => if Qltb (fst t) (fst s) then t else s) st trial.

Fixpoint clip_grid (trial : nat -> result (list (Q * Q)))
    (steps : list nat) (st : list (Q * Q)) : result (list (Q * Q)) :=
  match steps with
  | [] => Ok st
  | i_s :: rest =>
      t <- trial i_s ;;
      clip_grid trial rest (clip_update st t)
  end.

Definition initial_min_err : Q := 1000000000.

(** The trial function of one block of [bs] output channels. *)
Definition block_trial (cfg : config) (lay : clip_layout) (bs : nat)
    (w_block : list Q) : nat -> result (list (Q * Q)) :=
  let groups := rows_of (bs * l_ngw lay) (l_gs lay) w_block in
  let org_max_val := map (fun wg => amax (map Qabs wg)) groups in
  clip_trial cfg lay bs groups org_max_val (block_out lay groups).

(** The body of the loop over the blocks: [best_max_val] of one block. *)
Definition clip_block (cfg : config) (lay : clip_layout) (bs : nat)
    (w_block : list Q) : result (list Q) :=
  let groups := rows_of (bs * l_ngw lay) (l_gs lay) w_block in
  let org_max_val := map (fun wg => amax (map Qabs wg)) groups in
  if negb (broadcastable (l_ngx lay) (l_ngw lay)) then Raise RuntimeError
  else
    st <- clip_grid (block_trial cfg lay bs w_block)
            (seq 0 n_shrink_steps)
            (map (fun m => (initial_min_err, m)) org_max_val) ;;
    Ok (map snd st).

Fixpoint map_result {A B} (f : A -> result B) (l : list A)
  : result (list B) :=
  match l with
  | [] => Ok []
  | x :: rest =>
      y <- f x ;;
      ys <- map_result f rest ;;
      Ok (y :: ys)
  end.

(** The blocks of output channels the search goes through. *)
Definition clip_blocks (lay : clip_layout) (w : tensor) : list (list Q) :=
  let bs := oc_batch_size (l_co lay) in
  rows_of (l_co lay / bs) (bs * l_ngw lay * l_gs lay) (data w).

Definition _compute_best_clip (cfg : config) (w input_feat : tensor)
  : result tensor :=
  lay <- clip_reshape cfg w input_feat ;;
  let oc_batch_size := oc_batch_size (l_co lay) in
  assert (l_co lay mod oc_batch_size =? 0)%nat ;;;
  best_max_val_all <-
    map_result (clip_block cfg lay oc_batch_size) (clip_blocks lay w) ;;
  Ok (mkTensor [l_co lay; l_ngw lay; 1%nat] (concat best_max_val_all)).

Unset Implicit Arguments.

(** ** The precondition on the number of output channels *)

Lemma clip_reshape_co cfg w x lay co ci :
  shape w = [co; ci] -> clip_reshape cfg w x = Ok lay -> l_co lay = co.
Proof.
  intros Hsh. unfold clip_reshape. rewrite Hsh.
  cbn [length Nat.eqb assert bind].
  destruct (last_dim _); cbn [bind]; [| discriminate].
  destruct (infer_dim _ _); cbn [bind]; [| discriminate].
  destruct (infer_dim _ _); cbn [bind]; [| discriminate].
  destruct (infer_dim _ _); cbn [bind]; [| discriminate].
  intros [= <-]. reflexivity.
Qed.

Lemma oc_batch_size_not_64 co :
  (co mod 64 <> 0)%nat -> (co mod oc_batch_size co =? 0)%nat = false.
Proof.
  intros H. unfold oc_batch_size.
  destruct (Nat.eqb_spec (co mod 256) 0) as [E | E].
  - exfalso. apply H.
    pose proof (Nat.div_mod_eq co 256).
    pose proof (Nat.div_mod_eq co 64).
    pose proof (Nat.mod_upper_bound co 64).
    lia.
  - apply Nat.eqb_neq. exact H.
Qed.

(** C10.  [_compute_best_clip] goes through the output channels in
    blocks of 256 when 256 divides their number and of 64 otherwise; when
    64 does not divide the number of output channels it never returns a
    result, and once the reshapes of the weight and of the features have
    gone through, what it raises is the assertion failure. *)
Theorem C10_clip_needs_channel_multiple_of_64 cfg w input_feat co ci :
  shape w = [co; ci] ->
  ((co mod 256 = 0)%nat -> oc_batch_size co = 256%nat) /\
  ((co mod 256 <> 0)%nat -> oc_batch_size co = 64%nat) /\
  (forall lay r,
     clip_reshape cfg w input_feat = Ok lay ->
     _compute_best_clip cfg w input_feat = Ok r ->
     length (clip_blocks lay w) = (co / oc_batch_size co)%nat /\
     (co mod 64 = 0)%nat) /\
  ((co mod 64 <> 0)%nat ->
     (exists e, _compute_best_clip cfg w input_feat = Raise e) /\
     (forall lay, clip_reshape cfg w input_feat = Ok lay ->
                  _compute_best_clip cfg w input_feat = Raise AssertionError)).
Proof.
  intros Hsh.
  assert (Hfail : (co mod 64 <> 0)%nat ->
            forall lay, clip_reshape cfg w input_feat = Ok lay ->
              _compute_best_clip cfg w input_feat = Raise AssertionError).
  { intros H64 lay Hlay. unfold _compute_best_clip. rewrite Hlay.
    cbn [bind]. rewrite (clip_reshape_co cfg w input_feat lay co ci Hsh Hlay).
    rewrite (oc_batch_size_not_64 co H64). reflexivity. }
  repeat split.
  - intros H. unfold oc_batch_size. rewrite H. reflexivity.
  - intros H. unfold oc_batch_size.
    destruct (Nat.eqb_spec (co mod 256) 0); [contradiction | reflexivity].
  - unfold clip_blocks. rewrite rows_of_length.
    rewrite (clip_reshape_co cfg w input_feat lay co ci Hsh H). reflexivity.
  - destruct (Nat.eq_dec (co mod 64) 0) as [E | E]; auto.
    rewrite (Hfail E lay H) in H0. discriminate.
  - destruct (clip_reshape cfg w input_feat) as [lay | e] eqn:Hlay.
    + exists AssertionError. apply (Hfail H lay); auto.
    + exists e. unfold _compute_best_clip. rewrite Hlay. reflexivity.
  - apply Hfail; auto.
Qed.

Definition w_three_rows : tensor := mkTensor [3; 2]%nat [1; 2; 3; 4; 5; 6].
Definition feat_two_tokens : tensor := mkTensor [2; 2]%nat [1; 2; -1; 3 # 2].

Lemma C10_clip_needs_channel_multiple_of_64_witness :
  (shape w_three_rows = [3; 2]%nat /\ (3 mod 64 <> 0)%nat) /\
  clip_reshape cfg_zp4_g2 w_three_rows feat_two_tokens =
    Ok (mkLayout 3 2 1 1 [[1; 2]; [-1; 3 # 2]]) /\
  _compute_best_clip cfg_zp4_g2 w_three_rows feat_two_tokens
    = Raise AssertionError.
Proof.
  assert (H1 : shape w_three_rows = [3; 2]%nat) by reflexivity.
  assert (H2 : (3 mod 64 <> 0)%nat) by (cbn; lia).
  split; [split; assumption |]. split; [reflexivity |].
  exact (proj2 (proj2 (proj2 (proj2
           (C10_clip_needs_channel_multiple_of_64 cfg_zp4_g2 w_three_rows
              feat_two_tokens 3%nat 2%nat H1))) H2)
           (mkLayout 3 2 1 1 [[1; 2]; [-1; 3 # 2]]) eq_refl).
Defined.

(** ** The running best of the grid never gets worse *)

Definition pair0 : Q * Q := (0, 0).

Lemma nth_zip_with {A B C} (f : A -> B -> C) a b p da db dc :
  (p < length a)%nat -> (p < length b)%nat ->
  nth p (zip_with f a b) dc = f (nth p a da) (nth p b db).
Proof.
  unfold zip_with. revert b p.
  induction a as [| x a IH]; intros [| y b] [| p] Ha Hb; cbn in *;
    try lia; auto.
  apply IH; lia.
Qed.

(** One masked assignment, at one channel and group. *)
Lemma clip_update_nth st t p :
  (p < length st)%nat -> length t = length st ->
  let s_p := nth p st pair0 in
  let t_p := nth p t pair0 in
  let n_p := nth p (clip_update st t) pair0 in
  fst n_p <= fst s_p /\ fst n_p <= fst t_p /\
  (n_p = s_p \/ (n_p = t_p /\ fst t_p < fst s_p)).
Proof.
  intros Hp Hl. cbn zeta. unfold clip_update.
  rewrite (nth_zip_with _ st t p pair0 pair0 pair0) by lia.
  destruct (Qltb (fst (nth p t pair0)) (fst (nth p st pair0))) eqn:E.
  - apply Qltb_spec in E. repeat split; try lra. right. split; auto.
  - assert (~ fst (nth p t pair0) < fst (nth p st pair0)).
    { intros H. apply Qltb_spec in H. congruence. }
    repeat split; try lra. left. reflexivity.
Qed.

Lemma clip_update_length st t :
  length t = length st -> length (clip_update st t) = length st.
Proof. intros Hl. unfold clip_update. apply zip_with_length. lia. Qed.

Section Grid.
Variable trial : nat -> result (list (Q * Q)).
Variable n : nat.

Lemma clip_grid_trials_ok steps st st' :
  clip_grid trial steps st = Ok st' ->
  forall i, In i steps -> exists t, trial i = Ok t.
Proof.
  revert st. induction steps as [| j rest IH]; intros st Hrun i Hin.
  - contradiction.
  - cbn [clip_grid] in Hrun.
    destruct (trial j) as [t |] eqn:Ej; cbn [bind] in Hrun; [| discriminate].
    destruct Hin as [<- | Hin]; [eauto | eapply IH; eauto].
Qed.

(** After the steps, the pair kept at a position is the initial one or the
    one of a step, and its error is at most the initial one and at most the
    error of every step. *)
Lemma clip_grid_keeps_minimum steps st st' :
  length st = n ->
  (forall i t, In i steps -> trial i = Ok t -> length t = n) ->
  clip_grid trial steps st = Ok st' ->
  length st' = n /\
  forall p, (p < n)%nat ->
    fst (nth p st' pair0) <= fst (nth p st pair0) /\
    (forall i t, In i steps -> trial i = Ok t ->
                 fst (nth p st' pair0) <= fst (nth p t pair0)) /\
    (nth p st' pair0 = nth p st pair0 \/
     exists i t, In i steps /\ trial i = Ok t /\
                 nth p st' pair0 = nth p t pair0).
Proof.
  revert st. induction steps as [| j rest IH]; intros st Hlen Htl Hrun.
  - cbn in Hrun. injection Hrun as <-. split; auto.
    intros p Hp. repeat split; auto; try apply Qle_refl.
    intros i t [].
  - cbn [clip_grid] in Hrun.
    destruct (trial j) as [t |] eqn:Ej; cbn [bind] in Hrun; [| discriminate].
    assert (Ht : length t = n) by (apply (Htl j t); cbn; auto).
    destruct (IH (clip_update st t)) as [Hlen' Hinv]; auto.
    + rewrite clip_update_length; lia.
    + intros i t' Hin. apply Htl. cbn; auto.
    + split; auto. intros p Hp.
      destruct (Hinv p Hp) as (Hle & Hall & Hsrc).
      destruct (clip_update_nth st t p) as (Us & Ut & Usrc); try lia.
      cbn zeta in Us, Ut, Usrc.
      split; [eapply Qle_trans; eauto |]. split.
      * intros i t' [<- | Hin] Hi.
        -- rewrite Ej in Hi. injection Hi as <-.
           eapply Qle_trans; eauto.
        -- apply (Hall i t'); auto.
      * destruct Hsrc as [Hsame | (i & t' & Hin & Hi & Heq)].
        -- rewrite Hsame.
           destruct Usrc as [-> | [-> _]]; [left; reflexivity |].
           right. exists j, t. cbn; auto.
        -- right. exists i, t'. cbn; auto.
Qed.
End Grid.

Lemma block_out_length lay groups :
  length (block_out lay groups) = length groups.
Proof.
  unfold block_out. rewrite length_map, length_combine, length_seq. lia.
Qed.

Lemma length_zip_with_min {A B C} (f : A -> B -> C) a b :
  length (zip_with f a b) = Nat.min (length a) (length b).
Proof. unfold zip_with. rewrite length_map. apply length_combine. Qed.

(** A step of the grid on a block: one pair per channel and group, whose
    second component is the candidate bound. *)
Lemma block_trial_pairs cfg lay bs w_block i t :
  block_trial cfg lay bs w_block i = Ok t ->
  let groups := rows_of (bs * l_ngw lay) (l_gs lay) w_block in
  length t = length groups /\
  forall p, (p < length groups)%nat ->
    snd (nth p t pair0) =
      amax (map Qabs (nth p groups []))
      * (1 - inject_Z (Z.of_nat i) / inject_Z (Z.of_nat n_grid)).
Proof.
  unfold block_trial, clip_trial. cbn zeta.
  set (groups := rows_of (bs * l_ngw lay) (l_gs lay) w_block).
  destruct (pseudo_quantize_tensor _ _) as [r |]; cbn [bind]; [| discriminate].
  destruct (negb _); [discriminate |].
  intros [= <-].
  set (max_val := map _ (map _ groups)).
  set (err := zip_with _ _ _).
  assert (Hmv : length max_val = length groups)
    by (unfold max_val; rewrite !length_map; reflexivity).
  assert (Herr : length err = length groups).
  { unfold err. rewrite length_zip_with_min, !block_out_length.
    rewrite rows_of_length. lia. }
  split; [rewrite length_combine; lia |].
  intros p Hp.
  unfold pair0. rewrite (combine_nth err max_val p 0 0) by lia. cbn [snd].
  unfold max_val. rewrite map_map.
  rewrite (@nth_map_default _ _ _ groups p [] 0) by auto. reflexivity.
Qed.

(** What the search returns for a channel and group of a block is the
    bound of some step of the grid, and the error measured at that step is
    at most the one measured at step 0, where nothing is clipped. *)
Definition never_worse_than_unclipped (cfg : config) (lay : clip_layout)
    (bs : nat) (w_block res : list Q) : Prop :=
  forall p, (p < length res)%nat ->
    exists i t0 ti,
      (i < n_shrink_steps)%nat /\
      block_trial cfg lay bs w_block 0 = Ok t0 /\
      block_trial cfg lay bs w_block i = Ok ti /\
      nth p res 0 == snd (nth p ti pair0) /\
      fst (nth p ti pair0) <= fst (nth p t0 pair0).

Lemma clip_block_never_worse cfg lay bs w_block res :
  clip_block cfg lay bs w_block = Ok res ->
  never_worse_than_unclipped cfg lay bs w_block res.
Proof.
  unfold clip_block. cbn zeta.
  set (groups := rows_of (bs * l_ngw lay) (l_gs lay) w_block).
  set (init := map (fun m => (initial_min_err, m)) _).
  destruct (negb _); [discriminate |].
  destruct (clip_grid _ _ _) as [st |] eqn:Hrun; cbn [bind]; [| discriminate].
  intros [= <-] p Hp.
  assert (Hinit : length init = length groups)
    by (unfold init; rewrite !length_map; reflexivity).
  assert (Htl : forall i t, In i (seq 0 n_shrink_steps) ->
                  block_trial cfg lay bs w_block i = Ok t ->
                  length t = length groups).
  { intros i t _ Hi. apply (block_trial_pairs cfg lay bs w_block i t Hi). }
  destruct (clip_grid_keeps_minimum _ (length groups) _ init st
              Hinit Htl Hrun) as [Hlen Hinv].
  rewrite length_map, Hlen in Hp.
  assert (H0 : In 0%nat (seq 0 n_shrink_steps))
    by (apply in_seq; vm_compute; lia).
  destruct (clip_grid_trials_ok _ _ init st Hrun 0%nat H0) as [t0 Ht0].
  destruct (Hinv p Hp) as (_ & Hall & Hsrc).
  change 0 with (snd pair0) at 1. rewrite map_nth.
  destruct Hsrc as [Hsame | (i & ti & Hin & Hi & Heq)].
  - exists 0%nat, t0, t0. repeat split; auto.
    + vm_compute; lia.
    + rewrite Hsame.
      destruct (block_trial_pairs cfg lay bs w_block 0 t0 Ht0) as [_ Hsnd].
      cbn zeta in Hsnd. fold groups in Hsnd. rewrite (Hsnd p Hp).
      unfold init. rewrite map_map.
      rewrite (@nth_map_default _ _ _ groups p [] pair0) by auto.
      cbn [snd].
      assert (E : 1 - inject_Z (Z.of_nat 0) / inject_Z (Z.of_nat n_grid) == 1)
        by reflexivity.
      rewrite E. ring.
    + apply Qle_refl.
  - exists i, t0, ti. repeat split; auto.
    + apply in_seq in Hin. lia.
    + rewrite Heq. reflexivity.
    + rewrite <- Heq. apply (Hall 0%nat t0); auto.
Qed.

Lemma map_result_Forall2 {A B} (f : A -> result B) l ys :
  map_result f l = Ok ys -> Forall2 (fun x y => f x = Ok y) l ys.
Proof.
  revert ys. induction l as [| x l IH]; intros ys; cbn [map_result].
  - intros [= <-]. constructor.
  - destruct (f x) as [y |] eqn:E; cbn [bind]; [| discriminate].
    destruct (map_result f l) as [ys' |]; cbn [bind]; [| discriminate].
    intros [= <-]. constructor; auto.
Qed.

(** C4.  Whenever [_compute_best_clip] returns, its result is made of
    the results of the blocks of output channels, and in every block the
    bound returned for a channel and group is the bound of a step of the
    grid whose measured error is at most the error measured at step 0
    (shrink factor 0); and at each step the running best of a position
    either stays or is replaced by a candidate of strictly smaller
    error. *)
Theorem C4_clip_never_worse_than_unclipped cfg w input_feat r :
  _compute_best_clip cfg w input_feat = Ok r ->
  (exists lay results,
     clip_reshape cfg w input_feat = Ok lay /\
     data r = concat results /\
     Forall2 (never_worse_than_unclipped cfg lay (oc_batch_size (l_co lay)))
             (clip_blocks lay w) results) /\
  (forall st t p,
     (p < length st)%nat -> length t = length st ->
     let s_p := nth p st pair0 in
     let t_p := nth p t pair0 in
     let n_p := nth p (clip_update st t) pair0 in
     fst n_p <= fst s_p /\ fst n_p <= fst t_p /\
     (n_p = s_p \/ (n_p = t_p /\ fst t_p < fst s_p))).
Proof.
  intros Hrun. split; [| exact clip_update_nth].
  unfold _compute_best_clip in Hrun.
  destruct (clip_reshape cfg w input_feat) as [lay |]; cbn [bind] in Hrun;
    [| discriminate].
  destruct (assert _); cbn [bind] in Hrun; [| discriminate].
  destruct (map_result _ _) as [results |] eqn:Hmap; cbn [bind] in Hrun;
    [| discriminate].
  injection Hrun as <-.
  exists lay, results. repeat split.
  apply map_result_Forall2 in Hmap.
  revert Hmap. apply Forall2_impl.
  intros blk res. apply clip_block_never_worse.
Qed.

(** A weight of 64 output channels and two input channels (one group),
    and two tokens of features. *)
Definition w_64x2 : tensor :=
  mkTensor [64; 2]%nat
    (concat (map (fun i => [inject_Z (Z.of_nat i) - 30;
                            (7 # 3) * inject_Z (Z.of_nat i)])
                 (seq 0 64))).

Lemma C4_clip_never_worse_than_unclipped_witness :
  exists r,
    _compute_best_clip cfg_zp4_g2 w_64x2 feat_two_tokens = Ok r /\
    shape r = [64; 1; 1]%nat /\
    exists lay results,
      clip_reshape cfg_zp4_g2 w_64x2 feat_two_tokens = Ok lay /\
      data r = concat results /\
      Forall2 (never_worse_than_unclipped cfg_zp4_g2 lay
                 (oc_batch_size (l_co lay)))
              (clip_blocks lay w_64x2) results.
Proof.
  destruct (_compute_best_clip cfg_zp4_g2 w_64x2 feat_two_tokens)
    as [r | e] eqn:E; [| vm_compute in E; discriminate].
  exists r. split; [reflexivity |]. split.
  - vm_compute in E. injection E as <-. reflexivity.
  - exact (proj1 (C4_clip_never_worse_than_unclipped cfg_zp4_g2 w_64x2
                    feat_two_tokens r E)).
Defined.

(* ================================================================== *)
(** * [_apply_quant] *)

Inductive kernel : Type := GEMM | GEMV | Marlin | GEMVFast.

(** The [if]/[elif] chain on [self.version]. *)
Definition select_kernel (v : string) : option kernel :=
  if String.eqb v "gemm" then Some GEMM
  else if String.eqb v "gemv" then Some GEMV
  else if String.eqb v "marlin" then Some Marlin
  else if String.eqb v "gemv_fast" then Some GEMVFast
  else None.

(** [t.t().contiguous()] of a matrix. *)
Definition transpose (t : tensor) : tensor :=
  match shape t with
  | [r; c] =>
      let rows := rows_of r c (data t) in
      mkTensor [c; r]
        (concat (map (fun j => map (fun row => nth j row 0) rows) (seq 0 c)))
  | _ => t
  end.

(** The scales and the zeros as the branch of a version hands them on:
    transposed for [gemm], as they are for the other three. *)
Definition kernel_scales (k : kernel) (scales : tensor) : tensor :=
  match k with GEMM => transpose scales | _ => scales end.

Definition kernel_zeros (k : kernel) (zeros : option tensor)
  : option tensor :=
  match k with GEMM => option_map transpose zeros | _ => zeros end.

Section ApplyQuant.

(** [linear_layer.to(get_best_device()).half()]: the weight of the layer
    after the cast to half precision, which the module undergoes in
    place.  The move to another device does not change the values. *)
Variable half : tensor -> tensor.

(** The classes [WQLinear_GEMM], [WQLinear_GEMV], [WQLinear_Marlin] and
    [WQLinear_GEMVFast] of [awq.modules.linear] are not part of the
    sources: [from_linear] is any function that, from the kernel, the
    layer's weight, the bit width, the group size, the scales and the
    zeros, builds a module or raises. *)
Variable q_linear : Type.
Variable from_linear :
  kernel -> tensor -> Z -> Z -> tensor -> option tensor -> result q_linear.

(** What a name of the module holds: the linear layer with its weight, or
    the module that replaced it. *)
Inductive layer : Type :=
| Linear (weight : tensor)
| WQLinear (q : q_linear).

Definition untouched (named_linears : list (string * tensor))
  : list (string * layer) :=
  map (fun nw => (fst nw, Linear (snd nw))) named_linears.

(** The loop of [_apply_quant] over [named_linears.items()].  The result
    is what the names hold when the loop ends or raises, with the
    outcome. *)
Fixpoint _apply_quant (cfg : config) (named_linears : list (string * tensor))
  : list (string * layer) * result unit :=
  match named_linears with
  | [] => ([], Ok tt)
  | (name, weight) :: rest =>
      (* linear_layer = linear_layer.to(get_best_device()).half() *)
      let weight16 := half weight in
      match pseudo_quantize_tensor cfg weight16 with
      | Raise e => ((name, Linear weight16) :: untouched rest, Raise e)
      | Ok (w_hat, scales, zeros) =>
          (* linear_layer.weight.data = w_hat *)
          match select_kernel (version cfg) with
          | None =>
              ((name, Linear w_hat) :: untouched rest,
               Raise (ValueError ("Unknown version " ++ version cfg)))
          | Some k =>
              match from_linear k w_hat (w_bit cfg) (group_size cfg)
                                (kernel_scales k scales)
                                (kernel_zeros k zeros) with
              | Raise e => ((name, Linear w_hat) :: untouched rest, Raise e)
              | Ok q =>
                  (* set_op_by_name(module, name, q_linear) *)
                  let (rest', outcome) := _apply_quant cfg rest in
                  ((name, WQLinear q) :: rest', outcome)
              end
          end
      end
  end.

(** The claim as stated: with an unknown version, the step raises the
    configuration error and every layer still holds its weight. *)
Definition raises_before_any_mutation (cfg : config)
    (named_linears : list (string * tensor)) : Prop :=
  exists msg,
    _apply_quant cfg named_linears
      = (untouched named_linears, Raise (ValueError msg)).

(** C2, amended.  With a version that is none of gemm, gemv, marlin
    and gemv_fast, [_apply_quant] raises the [ValueError] while it handles
    the first linear layer, once that layer has been cast to half
    precision and its weight replaced by the pseudo-quantized value of the
    cast weight: at that moment the first layer holds that
    pseudo-quantized weight, every other layer still holds the weight it
    had before the step, and no layer has been replaced by a packed
    module.  If the pseudo-quantization of the first layer itself raises,
    that error comes out when the first layer holds its weight cast to
    half precision and no other layer has changed. *)
Theorem C2_unknown_version_raises_after_first_layer cfg name w rest :
  select_kernel (version cfg) = None ->
  (forall w_hat scales zeros,
     pseudo_quantize_tensor cfg (half w) = Ok (w_hat, scales, zeros) ->
     _apply_quant cfg ((name, w) :: rest)
       = ((name, Linear w_hat) :: untouched rest,
          Raise (ValueError ("Unknown version " ++ version cfg)))) /\
  (forall e,
     pseudo_quantize_tensor cfg (half w) = Raise e ->
     _apply_quant cfg ((name, w) :: rest)
       = ((name, Linear (half w)) :: untouched rest, Raise e)).
Proof.
  intros Hv. split.
  - intros w_hat scales zeros Hq. cbn [_apply_quant]. rewrite Hq, Hv.
    reflexivity.
  - intros e Hq. cbn [_apply_quant]. rewrite Hq. reflexivity.
Qed.

End ApplyQuant.

Arguments Linear {q_linear} weight.
Arguments WQLinear {q_linear} q.

(** A layer whose weight is already held in half precision: the cast
    leaves its values as they are.  The entries 1, 2, 3 and 100 of the
    weights below are half-precision numbers. *)
Definition half_of_half (t : tensor) : tensor := t.

(** A [from_linear] that keeps what it is given: the output format, the
    layer's (pseudo-quantized) weight, the bit width, the group size, the
    scales and the zeros. *)
Record packed_linear : Type := mkPacked {
  p_kernel : kernel;
  p_weight : tensor;
  p_w_bit : Z;
  p_group_size : Z;
  p_scales : tensor;
  p_zeros : option tensor
}.

Definition record_linear (k : kernel) (weight : tensor) (w_bit group_size : Z)
    (scales : tensor) (zeros : option tensor) : result packed_linear :=
  Ok (mkPacked k weight w_bit group_size scales zeros).

Definition cfg_foo : config := mkConfig 4 2 true "foo" true 1024.

(** C2, as stated, fails: with [version = "foo"] and one linear layer of
    weight [[1; 2]], already in half precision, the error is raised when
    the layer already holds the pseudo-quantized weight [[1; 1]]. *)
Lemma C2_counterexample :
  select_kernel (version cfg_foo) = None /\
  _apply_quant half_of_half packed_linear record_linear cfg_foo
    [("fc"%string, w_positive)]
    = ([("fc"%string, Linear (mkTensor [1; 2]%nat [15 # 15; 15 # 15]))],
       Raise (ValueError "Unknown version foo")) /\
  ~ raises_before_any_mutation half_of_half packed_linear record_linear
      cfg_foo [("fc"%string, w_positive)].
Proof.
  split; [reflexivity |]. split; [reflexivity |].
  intros [msg H]. vm_compute in H. discriminate H.
Qed.

Lemma C2_unknown_version_raises_after_first_layer_witness :
  select_kernel (version cfg_foo) = None /\
  _apply_quant half_of_half packed_linear record_linear cfg_foo
    [("q"%string, w_positive); ("v"%string, w_example)]
    = ([("q"%string, Linear (mkTensor [1; 2]%nat [15 # 15; 15 # 15]));
        ("v"%string, Linear w_example)],
       Raise (ValueError "Unknown version foo")).
Proof.
  assert (Hv : select_kernel (version cfg_foo) = None) by reflexivity.
  split; [exact Hv |].
  exact (proj1 (C2_unknown_version_raises_after_first_layer half_of_half
                  packed_linear record_linear cfg_foo
                  "q"%string w_positive [("v"%string, w_example)] Hv)
           (mkTensor [1; 2]%nat [15 # 15; 15 # 15])
           (mkTensor [1; 1]%nat [1 # 15])
           (Some (mkTensor [1; 1]%nat [0])) eq_refl).
Defined.

(* ================================================================== *)
(** * Parameters, their storage, and [state_dict] *)

(** A [Parameter] object is a number; [params] gives the storage its
    [.data] is bound to and [storages] the tensor a storage holds.  Two
    tensors that share a storage see each other's in-place writes;
    [next_id] is the first storage not yet in use. *)
Record heap : Type := mkHeap {
  storages : nat -> tensor;
  next_id : nat;
  params : nat -> nat
}.

Definition upd {A} (f : nat -> A) (i : nat) (v : A) : nat -> A :=
  fun j => if (j =? i)%nat then v else f j.

Definition param_data (h : heap) (p : nat) : tensor :=
  storages h (params h p).

(** An in-place write through a parameter ([mul_], [copy_]). *)
Definition write_param (h : heap) (p : nat) (v : tensor) : heap :=
  mkHeap (upd (storages h) (params h p) v) (next_id h) (params h).

(** A new tensor in a storage of its own. *)
Definition alloc (h : heap) (v : tensor) : heap * nat :=
  (mkHeap (upd (storages h) (next_id h) v) (S (next_id h)) (params h),
   next_id h).

(** [p.data = v] for a freshly computed [v]: the parameter is bound to
    the storage of [v]. *)
Definition rebind_param (h : heap) (p : nat) (v : tensor) : heap :=
  let (h1, sid) := alloc h v in
  mkHeap (storages h1) (next_id h1) (upd (params h1) p sid).

(** A module: the keys of its [state_dict] with the parameter behind
    each. *)
Definition module : Type := list (string * nat).

Definition state_dict (m : module) (h : heap) : list (string * tensor) :=
  map (fun kp => (fst kp, param_data h (snd kp))) m.

(** [{k: v.cpu() for k, v in module.state_dict().items()}].  The values
    of [state_dict()] are detached tensors on the storage of the
    parameters; [.cpu()] copies a tensor that lives on an accelerator and
    returns the tensor itself when it is already in host memory. *)
Fixpoint snapshot (dev : device) (m : module) (h : heap)
  : heap * list (string * nat) :=
  match m with
  | [] => (h, [])
  | (k, p) :: rest =>
      match dev with
      | Cpu =>
          let (h', sd) := snapshot dev rest h in
          (h', (k, params h p) :: sd)
      | Accelerator =>
          let (h1, sid) := alloc h (param_data h p) in
          let (h', sd) := snapshot dev rest h1 in
          (h', (k, sid) :: sd)
      end
  end.

(** [module.load_state_dict(org_sd)]: [param.copy_(input_param)] key by
    key.  [org_sd] was built from the same module, so it has the same keys
    in the same order; the shapes of the parameters never change during
    the search, so the size check of [load_state_dict] is left out. *)
Fixpoint load_state_dict (m : module) (org_sd : list (string * nat))
    (h : heap) : result heap :=
  match m, org_sd with
  | [], [] => Ok h
  | (_, p) :: m', (_, sid) :: sd' =>
      load_state_dict m' sd' (write_param h p (storages h sid))
  | _, _ => Raise RuntimeError
  end.

(* ================================================================== *)
(** * [_compute_best_scale] *)

Definition eps4 : Q := 1 # 10000.

(** [w op scales.view(1, -1)] for the weight of a linear layer, a matrix:
    every row is combined with the scales, which have one entry per
    column (or a single entry). *)
Definition map_cols (f : Q -> Q -> Q) (w : tensor) (s : list Q)
  : result tensor :=
  match shape w with
  | [o; i] =>
      if (length s =? i)%nat then
        Ok (mkTensor [o; i]
              (concat (map (fun row => zip_with f row s)
                           (rows_of o i (data w)))))
      else match s with
           | [x] => Ok (mkTensor [o; i] (map (fun y => f y x) (data w)))
           | _ => Raise RuntimeError
           end
  | _ => Raise RuntimeError
  end.

(** [x / r] in floating point: not finite when [r] is zero (the
    numerators here are positive). *)
Definition fdivq (x r : Q) : fval :=
  if Qeq_bool r 0 then NonFinite else Finite (x / r).

(** [scales[torch.isinf(scales)] = 1; scales[torch.isnan(scales)] = 1]. *)
Definition replace_non_finite (scales : list fval) : list Q :=
  map (fun v => match v with Finite q => q | NonFinite => 1 end) scales.

Record search_state : Type := mkSearch {
  history : list fval;
  best_ratio : Q;
  best_scales : option (list Q);
  best_error : option Q   (* [None] is [float("inf")] *)
}.

(** [loss < best_error]. *)
Definition improves (loss : fval) (best_error : option Q) : bool :=
  match loss, best_error with
  | Finite l, None => true
  | Finite l, Some b => Qltb l b
  | NonFinite, _ => false
  end.

Section ScaleSearch.

(** [torch.pow] and [torch.sqrt], in exact arithmetic. *)
Variable tpow : Q -> Q -> Q.
Variable tsqrt : Q -> Q.

(** [_module_forward]: the output of the inspected module, flattened, for
    the values its [state_dict] holds and an input. *)
Variable forward : list (string * tensor) -> tensor -> list fval.

(** The byte size of an entry of the output. *)
Variable element_size : Z.

Variable dev : device.
Variable cfg : config.

(** The scales of one ratio, before the normalization. *)
Definition raw_scales (x_mean w_mean : list Q) (ratio : Q)
  : result (list Q) :=
  if duo_scaling cfg then
    bzip (fun x w =>
            clamp_min (tpow x ratio / (tpow w (1 - ratio) + eps4)) eps4)
         x_mean w_mean
  else Ok (map (fun x => clamp_min (tpow x ratio) eps4) x_mean).

Definition normalize_scales (scales : list Q) : list fval :=
  let r := tsqrt (amax scales * amin scales) in
  map (fun s => fdivq s r) scales.

(** The scales tried for [ratio]; [max()] and [min()] refuse an empty
    vector. *)
Definition candidate_scales (x_mean w_mean : list Q) (ratio : Q)
  : result (list Q) :=
  scales <- raw_scales x_mean w_mean ratio ;;
  match scales with
  | [] => Raise RuntimeError
  | _ => Ok (replace_non_finite (normalize_scales scales))
  end.

(** [for fc in linears2scale]: the in-place product, and the rebinding of
    the weight to the quantized product divided by the scales. *)
Fixpoint scale_layers (linears2scale : list nat) (scales : list Q)
    (h : heap) : result heap :=
  match linears2scale with
  | [] => Ok h
  | fc :: rest =>
      w1 <- map_cols Qmult (param_data h fc) scales ;;
      let h1 := write_param h fc w1 in
      q <- pseudo_quantize_tensor cfg (param_data h1 fc) ;;
      w2 <- map_cols Qdiv (fst (fst q)) scales ;;
      scale_layers rest scales (rebind_param h1 fc w2)
  end.

Definition ratio_of (k : nat) : Q :=
  inject_Z (Z.of_nat k) / inject_Z (Z.of_nat n_grid).

Section Search.
Variable x : tensor.
Variables w_mean x_mean : list Q.
Variable module2inspect : module.
Variable linears2scale : list nat.
Variable fp16_output : list fval.
Variable org_sd : list (string * nat).

(** The body of the loop for the [k]-th ratio. *)
Definition grid_step (acc : heap * search_state) (k : nat)
  : result (heap * search_state) :=
  let (h, st) := acc in
  let ratio := ratio_of k in
  scales <- candidate_scales x_mean w_mean ratio ;;
  h1 <- scale_layers linears2scale scales h ;;
  let int_w_output := forward (state_dict module2inspect h1) x in
  loss <- _compute_loss cfg element_size fp16_output int_w_output ;;
  let st' :=
    if improves loss (best_error st) then
      mkSearch (history st ++ [loss]) ratio (Some scales)
               (match loss with Finite l => Some l | NonFinite => None end)
    else
      mkSearch (history st ++ [loss]) (best_ratio st) (best_scales st)
               (best_error st) in
  h2 <- load_state_dict module2inspect org_sd h1 ;;
  Ok (h2, st').

Fixpoint grid_loop (ks : list nat) (acc : heap * search_state)
  : result (heap * search_state) :=
  match ks with
  | [] => Ok acc
  | k :: rest =>
      acc' <- grid_step acc k ;;
      grid_loop rest acc'
  end.

End Search.

Definition initial_search : search_state := mkSearch [] (-1) None None.

(** The snapshot [org_sd] and the loop over the [n_grid] ratios. *)
Definition search_trials (x : tensor) (w_mean x_mean : list Q)
    (module2inspect : module) (linears2scale : list nat)
    (fp16_output : list fval) (h : heap) : result (heap * search_state) :=
  let (h0, org_sd) := snapshot dev module2inspect h in
  grid_loop x w_mean x_mean module2inspect linears2scale fp16_output org_sd
            (seq 0 n_grid) (h0, initial_search).

(** The first component of the result is what [logging.debug] has been
    given; the second is the exception, or the memory after the search
    with the scales returned. *)
Definition _compute_best_scale (x : tensor) (w_mean x_mean : list Q)
    (module2inspect : module) (linears2scale : list nat)
    (fp16_output : list fval) (h : heap)
  : list (list fval) * result (heap * list Q) :=
  match search_trials x w_mean x_mean module2inspect linears2scale
                      fp16_output h with
  | Raise e => ([], Raise e)
  | Ok (h', st) =>
      if Qeq_bool (best_ratio st) (-1) then ([history st], Raise Exception)
      else
        match best_scales st with
        | Some s => ([], Ok (h', s))
        | None => ([], Raise AssertionError)   (* not reached *)
        end
  end.

End ScaleSearch.

(* ================================================================== *)
(** * A small instance: one linear layer *)

(** Rational stand-ins for [pow] and [sqrt].  [pow_standin] is the chord
    of [r |-> x^r] between [r = 0] and [r = 1], so it is exact at the
    exponents 0 and 1 and at the base 1; [sqrt_standin] is the square root
    rounded down to four decimals, exact on squares of such numbers. *)
Definition pow_standin (x r : Q) : Q := Qmax 0 (1 + r * (x - 1)).

Definition sqrt_standin (q : Q) : Q :=
  Z.sqrt (Qnum q * QDen q * 10 ^ 8) # (Qden q * 10 ^ 4).

(** The forward pass of a linear layer without bias: one output per token
    and output channel. *)
Definition linear_forward (sd : list (string * tensor)) (x : tensor)
  : list fval :=
  match sd, shape x with
  | (_, w) :: _, [n; i] =>
      concat (map (fun tok =>
                     map (fun row => Finite (dot tok row))
                         (rows_of (hd 0%nat (shape w)) i (data w)))
                  (rows_of n i (data x)))
  | _, _ => []
  end.

(** One parameter, bound to storage 0, which holds the weight [w]. *)
Definition heap_of (w : tensor) : heap :=
  mkHeap (fun _ => w) 1 (fun _ => 0%nat).

Definition fc_module : module := [("weight"%string, 0%nat)].

Definition cfg_duo : config := mkConfig 4 2 true "gemm" true 1024.
Definition cfg_no_duo : config := mkConfig 4 2 true "gemm" false 1024.

Definition x_two_tokens : tensor := mkTensor [2; 2]%nat [1; 1; 1; -1].
Definition w_mean_quarter_one : list Q := [2499 # 10000; 9999 # 10000].
Definition x_mean_ones : list Q := [1; 1].

(* ================================================================== *)
(** * The outcome of the grid search *)

Section SearchOutcome.
Variable tpow : Q -> Q -> Q.
Variable tsqrt : Q -> Q.
Variable forward : list (string * tensor) -> tensor -> list fval.
Variable element_size : Z.
Variable dev : device.
Variable cfg : config.
Variable x : tensor.
Variables w_mean x_mean : list Q.
Variable module2inspect : module.
Variable linears2scale : list nat.
Variable fp16_output : list fval.

Let candidate (k : nat) : result (list Q) :=
  candidate_scales tpow tsqrt cfg x_mean w_mean (ratio_of k).

Let step (org_sd : list (string * nat)) :=
  grid_step tpow tsqrt forward element_size cfg x w_mean x_mean
            module2inspect linears2scale fp16_output org_sd.

Let loop (org_sd : list (string * nat)) :=
  grid_loop tpow tsqrt forward element_size cfg x w_mean x_mean
            module2inspect linears2scale fp16_output org_sd.

(** The loss [q] recorded for the [k]-th ratio is the lowest finite loss
    of the history, and the first one that low. *)
Definition first_lowest (hist : list fval) (k : nat) (q : Q) : Prop :=
  nth_error hist k = Some (Finite q) /\
  forall j q', nth_error hist j = Some (Finite q') ->
               q <= q' /\ ((j < k)%nat -> q < q').

(** What the search state holds after some trials. *)
Definition best_so_far (st : search_state) : Prop :=
  match best_error st with
  | None =>
      Forall (fun l => l = NonFinite) (history st) /\
      best_ratio st = -1 /\ best_scales st = None
  | Some q =>
      exists k s,
        first_lowest (history st) k q /\
        best_ratio st = ratio_of k /\
        best_scales st = Some s /\ candidate k = Ok s
  end.

Lemma nth_error_snoc {A} (l : list A) (a : A) j v :
  nth_error (l ++ [a]) j = Some v ->
  ((j < length l)%nat /\ nth_error l j = Some v) \/ (j = length l /\ v = a).
Proof.
  intros H. destruct (Nat.lt_ge_cases j (length l)) as [Hlt | Hge].
  - left. split; auto. rewrite nth_error_app1 in H; auto.
  - right. rewrite nth_error_app2 in H by auto.
    destruct (j - length l)%nat as [| d] eqn:E.
    + cbn in H. injection H as <-. split; auto. lia.
    + cbn in H. destruct d; discriminate.
Qed.

Lemma nth_error_snoc_last {A} (l : list A) (a : A) :
  nth_error (l ++ [a]) (length l) = Some a.
Proof. rewrite nth_error_app2, Nat.sub_diag by lia. reflexivity. Qed.

Lemma Forall_non_finite_nth hist j q :
  Forall (fun l => l = NonFinite) hist ->
  nth_error hist j <> Some (Finite q).
Proof.
  intros Hall H. apply nth_error_In in H.
  rewrite Forall_forall in Hall. apply Hall in H. discriminate.
Qed.

Lemma grid_step_best org_sd h st k h' st' :
  length (history st) = k -> best_so_far st ->
  step org_sd (h, st) k = Ok (h', st') ->
  length (history st') = S k /\ best_so_far st'.
Proof.
  intros Hlen Hinv. unfold step, grid_step.
  fold (candidate k).
  destruct (candidate k) as [scales |] eqn:Ec; cbn [bind]; [| discriminate].
  destruct (scale_layers _ _ _ _) as [h1 |]; cbn [bind]; [| discriminate].
  destruct (_compute_loss _ _ _ _) as [loss |]; cbn [bind]; [| discriminate].
  destruct (load_state_dict _ _ _) as [h2 |]; cbn [bind]; [| discriminate].
  intros [= <- <-].
  unfold best_so_far in *.
  destruct (improves loss (best_error st)) eqn:Eimp; cbn [history best_error
    best_ratio best_scales]; (split; [rewrite length_app; cbn; lia |]).
  - (* the new loss is the best so far *)
    destruct loss as [l |]; [| discriminate].
    exists k, scales. repeat split; auto.
    + rewrite <- Hlen. apply nth_error_snoc_last.
    + apply nth_error_snoc in H. destruct H as [[Hj H] | [Hj H]].
      * destruct (best_error st) as [b |].
        -- destruct Hinv as (k0 & s0 & [_ Hlow] & _).
           cbn in Eimp. apply Qltb_spec in Eimp.
           destruct (Hlow j q' H). lra.
        -- destruct Hinv as [Hall _].
           exfalso. eapply Forall_non_finite_nth; eauto.
      * injection H as <-. apply Qle_refl.
    + intros Hjk. apply nth_error_snoc in H. destruct H as [[Hj H] | [Hj H]].
      * destruct (best_error st) as [b |].
        -- destruct Hinv as (k0 & s0 & [_ Hlow] & _).
           cbn in Eimp. apply Qltb_spec in Eimp.
           destruct (Hlow j q' H). lra.
        -- destruct Hinv as [Hall _].
           exfalso. eapply Forall_non_finite_nth; eauto.
      * lia.
  - (* the best so far stays *)
    destruct (best_error st) as [b |].
    + destruct Hinv as (k0 & s0 & [Hk0 Hlow] & Hr & Hs & Hc).
      exists k0, s0. repeat split; auto.
      * rewrite nth_error_app1; auto.
        apply nth_error_Some. congruence.
      * apply nth_error_snoc in H. destruct H as [[Hj H] | [Hj H]].
        -- apply (Hlow j q' H).
        -- subst loss. cbn in Eimp.
           assert (~ q' < b) by (intros C; apply Qltb_spec in C; congruence).
           lra.
      * intros Hjk. apply nth_error_snoc in H.
        destruct H as [[Hj H] | [Hj H]].
        -- apply (Hlow j q' H); auto.
        -- assert (k0 < length (history st))%nat
             by (apply nth_error_Some; congruence).
           lia.
    + destruct Hinv as (Hall & Hr & Hs).
      destruct loss as [l |]; [discriminate |].
      repeat split; auto. apply Forall_app. split; auto.
Qed.

Lemma grid_loop_best org_sd n a h st h' st' :
  length (history st) = a -> best_so_far st ->
  loop org_sd (seq a n) (h, st) = Ok (h', st') ->
  length (history st') = (a + n)%nat /\ best_so_far st'.
Proof.
  revert a h st. induction n as [| n IH]; intros a h st Hlen Hinv.
  - cbn. intros [= <- <-]. split; auto. lia.
  - unfold loop. cbn [seq grid_loop]. fold (step org_sd) (loop org_sd).
    destruct (step org_sd (h, st) a) as [[h1 st1] |] eqn:Es; cbn [bind];
      [| discriminate].
    intros Hrun.
    destruct (grid_step_best org_sd h st a h1 st1 Hlen Hinv Es) as [Hl1 Hi1].
    destruct (IH (S a) h1 st1 Hl1 Hi1 Hrun) as [Hl Hi].
    split; auto. lia.
Qed.

Lemma ratio_of_not_minus_one k : Qeq_bool (ratio_of k) (-1) = false.
Proof.
  destruct (Qeq_bool (ratio_of k) (-1)) eqn:E; auto.
  apply Qeq_bool_iff in E. exfalso.
  assert (H : 0 <= ratio_of k).
  { unfold ratio_of. apply Qle_shift_div_l; [reflexivity |].
    rewrite Qmult_0_l. change 0 with (inject_Z 0).
    rewrite <- Zle_Qle. lia. }
  lra.
Qed.

(** The state after the [n_grid] trials. *)
Lemma search_trials_best h h' st :
  search_trials tpow tsqrt forward element_size dev cfg x w_mean x_mean
                module2inspect linears2scale fp16_output h = Ok (h', st) ->
  length (history st) = n_grid /\ best_so_far st.
Proof.
  unfold search_trials.
  destruct (snapshot dev module2inspect h) as [h0 org_sd].
  intros Hrun.
  apply (grid_loop_best org_sd n_grid 0%nat h0 initial_search h' st);
    auto.
  cbn. repeat split; auto.
Qed.

End SearchOutcome.

Section SearchClaims.
Variable tpow : Q -> Q -> Q.
Variable tsqrt : Q -> Q.
Variable forward : list (string * tensor) -> tensor -> list fval.
Variable element_size : Z.
Variable dev : device.
Variable cfg : config.
Variable x : tensor.
Variables w_mean x_mean : list Q.
Variable module2inspect : module.
Variable linears2scale : list nat.
Variable fp16_output : list fval.

(** C7.  When the twenty trials of the grid have run, the search ends
    in an exception exactly when none of them recorded a finite loss; the
    exception then comes after the history of the twenty losses has been
    handed to [logging.debug], and no scales are returned.  Otherwise the
    search returns the scales of the trial whose loss is the lowest of the
    finite ones (the first such trial). *)
Theorem C7_search_fails_iff_no_finite_loss h h' st :
  search_trials tpow tsqrt forward element_size dev cfg x w_mean x_mean
                module2inspect linears2scale fp16_output h = Ok (h', st) ->
  let run := _compute_best_scale tpow tsqrt forward element_size dev cfg x
               w_mean x_mean module2inspect linears2scale fp16_output h in
  length (history st) = n_grid /\
  ((exists e, snd run = Raise e) <->
   Forall (fun l => l = NonFinite) (history st)) /\
  (Forall (fun l => l = NonFinite) (history st) ->
   run = ([history st], Raise Exception)) /\
  (~ Forall (fun l => l = NonFinite) (history st) ->
   exists k s q,
     (k < n_grid)%nat /\
     run = ([], Ok (h', s)) /\
     candidate_scales tpow tsqrt cfg x_mean w_mean (ratio_of k) = Ok s /\
     first_lowest (history st) k q).
Proof.
  intros Hrun run.
  destruct (search_trials_best tpow tsqrt forward element_size dev cfg x
              w_mean x_mean module2inspect linears2scale fp16_output
              h h' st Hrun) as [Hlen Hbest].
  split; [exact Hlen |].
  unfold run, _compute_best_scale. rewrite Hrun.
  unfold best_so_far in Hbest.
  destruct (best_error st) as [q |].
  - destruct Hbest as (k & s & [Hk Hlow] & Hr & Hs & Hc).
    rewrite Hr, ratio_of_not_minus_one, Hs.
    assert (Hfin : ~ Forall (fun l => l = NonFinite) (history st)).
    { intros Hall. eapply Forall_non_finite_nth; eauto. }
    split; [| split].
    + cbn [snd]. split; [intros [e He]; discriminate | contradiction].
    + contradiction.
    + intros _. exists k, s, q.
      split; [rewrite <- Hlen; apply nth_error_Some; congruence |].
      split; [reflexivity |]. split; [exact Hc |].
      split; [exact Hk | exact Hlow].
  - destruct Hbest as (Hall & Hr & Hs). rewrite Hr.
    change (Qeq_bool (-1) (-1)) with true. cbn iota.
    split; [| split]; auto.
    + cbn [snd]. split; auto. intros _. exists Exception. reflexivity.
    + contradiction.
Qed.

End SearchClaims.

(** A module whose output is never finite, and its search. *)
Definition overflowing_forward (sd : list (string * tensor)) (x : tensor)
  : list fval := [NonFinite].

Lemma search_without_finite_loss_raises :
  _compute_best_scale pow_standin sqrt_standin overflowing_forward 2
    Accelerator cfg_no_duo x_two_tokens w_mean_quarter_one x_mean_ones
    fc_module [0%nat] [Finite 0] (heap_of w_spanning)
  = ([repeat NonFinite 20], Raise Exception).
Proof. vm_compute. reflexivity. Qed.

Lemma C7_search_fails_iff_no_finite_loss_witness :
  exists h' st,
    search_trials pow_standin sqrt_standin overflowing_forward 2
      Accelerator cfg_no_duo x_two_tokens w_mean_quarter_one x_mean_ones
      fc_module [0%nat] [Finite 0] (heap_of w_spanning) = Ok (h', st) /\
    history st = repeat NonFinite 20 /\
    ((exists e,
        snd (_compute_best_scale pow_standin sqrt_standin
               overflowing_forward 2 Accelerator cfg_no_duo x_two_tokens
               w_mean_quarter_one x_mean_ones fc_module [0%nat] [Finite 0]
               (heap_of w_spanning)) = Raise e) <->
     Forall (fun l => l = NonFinite) (history st)).
Proof.
  destruct (search_trials pow_standin sqrt_standin overflowing_forward 2
              Accelerator cfg_no_duo x_two_tokens w_mean_quarter_one
              x_mean_ones fc_module [0%nat] [Finite 0] (heap_of w_spanning))
    as [[h' st] | e] eqn:E; [| vm_compute in E; discriminate].
  exists h', st. split; [reflexivity |]. split.
  - vm_compute in E. injection E as _ <-. reflexivity.
  - exact (proj1 (proj2 (C7_search_fails_iff_no_finite_loss pow_standin
             sqrt_standin overflowing_forward 2 Accelerator cfg_no_duo
             x_two_tokens w_mean_quarter_one x_mean_ones fc_module [0%nat]
             [Finite 0] (heap_of w_spanning) h' st E))).
Defined.

(* ================================================================== *)
(** * The normalization of the scales *)









Section Normalization.
Variable tpow : Q -> Q -> Q.
Variable tsqrt : Q -> Q.
Variable cfg : config.




End Normalization.






(* ================================================================== *)
(** * [_search_best_scale] *)

Definition eps6 : Q := 1 # 1000000.

(** [torch.cat(ts, dim=0)] of matrices with the same number of columns. *)
Fixpoint cat_rows (ts : list tensor) : result tensor :=
  match ts with
  | [] => Raise RuntimeError
  | t :: rest =>
      match shape t, rest with
      | [r; c], [] => Ok t
      | [r; c], _ =>
          t' <- cat_rows rest ;;
          match shape t' with
          | [r'; c'] =>
              if (c =? c')%nat
              then Ok (mkTensor [(r + r')%nat; c] (data t ++ data t'))
              else Raise RuntimeError
          | _ => Raise RuntimeError
          end
      | _, _ => Raise RuntimeError
      end
  end.

(** The sum of the rows of a matrix with [c] columns. *)
Definition col_sums (c : nat) (rows : list (list Q)) : list Q :=
  fold_left (fun acc row => zip_with Qplus acc row) rows (repeat 0 c).

(** Step 1: the mean over the output channels of the weights, each
    normalized by the largest magnitude of its quantization group.  (For a
    matrix without rows torch yields [nan], which is not represented; the
    [1e-6] is added exactly, while in half precision it is absorbed by a
    largest magnitude of [2^-8] or more.) *)
Definition weight_mean (cfg : config) (weights : list tensor)
  : result (list Q) :=
  weight <- cat_rows weights ;;
  let org_shape := shape weight in
  grouped <- view_rows weight (group_size cfg) ;;
  match shape grouped, org_shape with
  | [n; g], [r; c] =>
      let w_scale :=
        concat (map (fun row =>
                       let m := amax (map Qabs row) in
                       map (fun v => Qabs v / (m + eps6)) row)
                    (rows_of n g (data grouped))) in
      Ok (map (fun s => s / inject_Z (Z.of_nat r))
              (col_sums c (rows_of r c w_scale)))
  | _, _ => Raise RuntimeError
  end.

(** Step 2: the mean magnitude of the input features per channel, summed
    chunk by chunk.  (Without any row of features torch yields [nan], which
    is not represented.) *)
Definition activation_mean (cfg : config) (element_size : Z) (inp : tensor)
  : result (list Q) :=
  num_channels <- last_dim (shape inp) ;;
  num_elements <- infer_dim (numel (shape inp)) num_channels ;;
  let inp_flat := rows_of num_elements num_channels (map Qabs (data inp)) in
  let element_size_bytes := (element_size * 2)%Z in
  let divisor := (element_size_bytes * Z.of_nat num_channels)%Z in
  if (divisor =? 0)%Z then Raise ZeroDivisionError
  else
    let chunk_size :=
      Z.min (max_chunk_memory cfg / divisor) (Z.of_nat num_elements) in
    if (chunk_size =? 0)%Z
    then Raise (ValueError "range() arg 3 must not be zero")
    else
      let k := Z.to_nat chunk_size in
      let chunks :=
        if (chunk_size <? 0)%Z then []
        else rows_of ((num_elements + k - 1) / k) k inp_flat in
      let x_sum :=
        fold_left (fun acc chunk =>
                     zip_with Qplus acc (col_sums num_channels chunk))
                  chunks (repeat 0 num_channels) in
      Ok (map (fun s => s / inject_Z (Z.of_nat num_elements)) x_sum).

(** [layers] are the weight parameters of the linear layers; without a
    module to inspect the single layer itself is inspected. *)
Definition _search_best_scale (tpow : Q -> Q -> Q) (tsqrt : Q -> Q)
    (forward : list (string * tensor) -> tensor -> list fval)
    (element_size : Z) (dev : device) (cfg : config)
    (layers : list nat) (inp : tensor) (module2inspect : option module)
    (h : heap) : list (list fval) * result (heap * list Q) :=
  let prepared :=
    m <- match module2inspect with
         | Some m => Ok m
         | None =>
             assert (length layers =? 1)%nat ;;;
             Ok [("weight"%string, hd 0%nat layers)]
         end ;;
    w_mean <- weight_mean cfg (map (param_data h) layers) ;;
    x_mean <- activation_mean cfg element_size inp ;;
    Ok (m, w_mean, x_mean) in
  match prepared with
  | Raise e => ([], Raise e)
  | Ok (m, w_mean, x_mean) =>
      let fp16_output := forward (state_dict m h) inp in
      _compute_best_scale tpow tsqrt forward element_size dev cfg inp
        w_mean x_mean m layers fp16_output h
  end.

(** ** A non-positive group size *)

Lemma weight_mean_needs_positive_group_size cfg weights :
  (group_size cfg <= 0)%Z ->
  exists e, weight_mean cfg weights = Raise e.
Proof.
  intros Hg. unfold weight_mean.
  destruct (cat_rows weights) as [weight | e]; cbn [bind]; [| eauto].
  unfold view_rows.
  destruct (Z.ltb_spec (group_size cfg) 0); [cbn [bind]; eauto |].
  replace (group_size cfg) with 0%Z by lia.
  unfold infer_dim. cbn. eauto.
Qed.

Lemma pseudo_quantize_four_dims_fails cfg bs a b c d :
  (group_size cfg <= 0)%Z ->
  pseudo_quantize_tensor cfg (mkTensor [bs; a; b; c] d) = Raise AssertionError.
Proof.
  intros Hg. unfold pseudo_quantize_tensor, quantize_groups.
  destruct (Z.ltb_spec 0 (group_size cfg)); [lia |]. reflexivity.
Qed.

Lemma clip_needs_positive_group_size cfg w input_feat :
  (group_size cfg <= 0)%Z ->
  exists e, _compute_best_clip cfg w input_feat = Raise e.
Proof.
  intros Hg. unfold _compute_best_clip.
  destruct (clip_reshape cfg w input_feat) as [lay | e] eqn:Hlay;
    cbn [bind]; [| eauto].
  destruct (Nat.eqb_spec (l_co lay mod oc_batch_size (l_co lay)) 0)
    as [Hmod | Hmod]; cbn [assert bind]; [| eauto].
  assert (Hco : (0 < l_co lay)%nat).
  { unfold clip_reshape in Hlay.
    destruct (assert _); cbn [bind] in Hlay; [| discriminate].
    destruct (shape w) as [| co [| ci [| ? ?]]]; try discriminate.
    destruct (last_dim _); cbn [bind] in Hlay; [| discriminate].
    destruct (infer_dim _ _); cbn [bind] in Hlay; [| discriminate].
    destruct (infer_dim _ _); cbn [bind] in Hlay; [| discriminate].
    destruct (infer_dim _ _) as [ngw |] eqn:E; cbn [bind] in Hlay;
      [| discriminate].
    injection Hlay as <-. cbn [l_co].
    apply infer_dim_ok in E. destruct E as [E _].
    destruct co; [cbn in E; congruence | lia]. }
  assert (Hbs : (0 < oc_batch_size (l_co lay))%nat).
  { unfold oc_batch_size. destruct (_ =? _)%nat; lia. }
  assert (Hblocks : (0 < l_co lay / oc_batch_size (l_co lay))%nat).
  { apply Nat.div_str_pos. split; auto.
    pose proof (Nat.div_mod_eq (l_co lay) (oc_batch_size (l_co lay))).
    destruct (l_co lay / oc_batch_size (l_co lay))%nat; lia. }
  unfold clip_blocks.
  destruct (l_co lay / oc_batch_size (l_co lay))%nat as [| nb]; [lia |].
  cbn [rows_of map_result]. unfold clip_block at 1.
  destruct (negb _); cbn [bind]; [eauto |].
  change (seq 0 n_shrink_steps) with (0%nat :: seq 1 9).
  cbn [clip_grid]. unfold block_trial, clip_trial.
  rewrite pseudo_quantize_four_dims_fails by auto.
  cbn [bind]. eauto.
Qed.

(** C3.  With a non-positive group size, [pseudo_quantize_tensor]
    quantizes every row of a non-empty weight matrix as one group, but the
    two searches do not complete: in [_search_best_scale] the view
    [weight.view(-1, group_size)] is refused for every weight, and
    [_compute_best_clip], which does take the whole row as its group,
    hands [pseudo_quantize_tensor] a four-dimensional tensor that fails
    its two-dimension assertion. *)
Theorem C3_nonpositive_group_size_breaks_searches cfg :
  (group_size cfg <= 0)%Z ->
  (forall w r c,
     shape w = [r; c] -> wf_tensor w -> (0 < r)%nat -> (0 < c)%nat ->
     exists w_hat zeros,
       pseudo_quantize_tensor cfg w =
         Ok (w_hat,
             mkTensor [r; 1%nat]
               (map (fun row => qscale (quantize_row cfg row))
                    (rows_of r c (data w))),
             zeros)) /\
  (forall weights, exists e, weight_mean cfg weights = Raise e) /\
  (forall tpow tsqrt forward element_size dev layers inp module2inspect h,
     exists e,
       _search_best_scale tpow tsqrt forward element_size dev cfg layers
         inp module2inspect h = ([], Raise e)) /\
  (forall w input_feat, exists e, _compute_best_clip cfg w input_feat = Raise e).
Proof.
  intros Hg. split; [| split; [| split]].
  - intros w r c Hsh Hwf Hr Hc.
    assert (Hgr : groupable cfg c) by (left; exact Hg).
    destruct (@pseudo_quantize_tensor_matrix cfg w r c Hsh Hwf Hr Hc Hgr)
      as [Hq Hlen].
    cbn zeta in Hq. rewrite Hq. unfold groups_of in *.
    assert (Hgs : gsize cfg c = c).
    { unfold gsize. destruct (Z.ltb_spec 0 (group_size cfg)); [lia | auto]. }
    rewrite Hgs in *. rewrite Nat.div_same in * by lia.
    rewrite Hlen, Nat.div_mul, Nat.mul_1_r by lia. rewrite !map_map.
    do 2 eexists. reflexivity.
  - intros weights. apply weight_mean_needs_positive_group_size; auto.
  - intros tpow tsqrt forward element_size dev layers inp module2inspect h.
    unfold _search_best_scale.
    destruct (weight_mean_needs_positive_group_size cfg
                (map (param_data h) layers) Hg) as [e He].
    destruct module2inspect as [m |]; cbn [bind].
    + rewrite He. cbn [bind]. eauto.
    + destruct (assert _); cbn [bind]; [| eauto].
      rewrite He. cbn [bind]. eauto.
  - intros w input_feat. apply clip_needs_positive_group_size; auto.
Qed.

Lemma C3_nonpositive_group_size_breaks_searches_witness :
  (group_size cfg_zp4_row <= 0)%Z /\
  weight_mean cfg_zp4_row [w_spanning] = Raise RuntimeError /\
  _compute_best_clip cfg_zp4_row w_64x2 feat_two_tokens
    = Raise AssertionError /\
  (exists e, weight_mean cfg_zp4_row [w_spanning] = Raise e) /\
  (exists e, _compute_best_clip cfg_zp4_row w_64x2 feat_two_tokens = Raise e).
Proof.
  assert (Hg : (group_size cfg_zp4_row <= 0)%Z) by (cbn; lia).
  split; [exact Hg |]. split; [reflexivity |].
  split; [vm_compute; reflexivity |].
  destruct (C3_nonpositive_group_size_breaks_searches cfg_zp4_row Hg)
    as (_ & Hw & _ & Hc).
  split; [apply Hw | apply Hc].
Defined.

(* ================================================================== *)
(** * Restoring the weights after a trial *)

Definition entry0 : string * nat := (EmptyString, 0%nat).
Definition tensor0 : tensor := mkTensor [] [].

Lemma upd_same {A} (f : nat -> A) i v : upd f i v i = v.
Proof. unfold upd. rewrite Nat.eqb_refl. reflexivity. Qed.

Lemma upd_other {A} (f : nat -> A) i j v : j <> i -> upd f i v j = f j.
Proof.
  intros H. unfold upd. destruct (Nat.eqb_spec j i); [contradiction | auto].
Qed.

Section Restore.
Variable m : module.
Variable layers : list nat.
Variable org_sd : list (string * nat).
Variable V : list tensor.

Let org_id (j : nat) : nat := snd (nth j org_sd entry0).
Let mod_param (j : nat) : nat := snd (nth j m entry0).
Let val (j : nat) : tensor := nth j V tensor0.

(** The snapshot can restore the module to the values [V]: its storages
    hold [V], no layer to be scaled writes into them, and the parameters
    of the module that share a storage with each other or with the
    snapshot have the same value in [V]. *)
Record restorable (h : heap) : Prop := mkRestorable {
  r_len_sd : length org_sd = length m;
  r_len_V : length V = length m;
  r_contents : forall j, (j < length m)%nat -> storages h (org_id j) = val j;
  r_alloc : forall j, (j < length m)%nat -> (org_id j < next_id h)%nat;
  r_layers : forall p j, In p layers -> (j < length m)%nat ->
                         params h p <> org_id j;
  r_params : forall p, (params h p < next_id h)%nat;
  r_alias : forall j j', (j < length m)%nat -> (j' < length m)%nat ->
                         params h (mod_param j) = org_id j' -> val j = val j';
  r_shared : forall j j', (j < length m)%nat -> (j' < length m)%nat ->
                          params h (mod_param j) = params h (mod_param j') ->
                          val j = val j'
}.

Lemma write_layer_restorable h p v :
  In p layers -> restorable h -> restorable (write_param h p v).
Proof.
  intros Hp [L1 L2 Hc Ha Hl Hpar Hal Hsh].
  constructor; cbn [write_param storages next_id params]; auto.
  intros j Hj. rewrite upd_other; auto.
  intros E. apply (Hl p j Hp Hj). auto.
Qed.

Lemma rebind_restorable h p v :
  restorable h -> restorable (rebind_param h p v).
Proof.
  intros [L1 L2 Hc Ha Hl Hpar Hal Hsh].
  constructor; unfold rebind_param, alloc;
    cbn [storages next_id params]; auto.
  - intros j Hj. rewrite upd_other; auto.
    specialize (Ha j Hj). lia.
  - intros j Hj. specialize (Ha j Hj). lia.
  - intros q j Hq Hj. unfold upd.
    destruct (Nat.eqb_spec q p).
    + specialize (Ha j Hj). lia.
    + auto.
  - intros q. unfold upd. destruct (Nat.eqb_spec q p).
    + lia.
    + specialize (Hpar q). lia.
  - intros j j' Hj Hj'. unfold upd.
    destruct (Nat.eqb_spec (mod_param j) p).
    + intros E. specialize (Ha j' Hj'). lia.
    + auto.
  - intros j j' Hj Hj'. unfold upd.
    destruct (Nat.eqb_spec (mod_param j) p) as [E1 | E1];
      destruct (Nat.eqb_spec (mod_param j') p) as [E2 | E2]; intros E.
    + apply Hsh; auto. congruence.
    + pose proof (Hpar (mod_param j')). lia.
    + pose proof (Hpar (mod_param j)). lia.
    + auto.
Qed.

Lemma scale_layers_restorable cfg ls scales h h' :
  incl ls layers -> restorable h ->
  scale_layers cfg ls scales h = Ok h' -> restorable h'.
Proof.
  revert h. induction ls as [| fc ls IH]; intros h Hincl Hr.
  - cbn. intros [= <-]. exact Hr.
  - cbn [scale_layers].
    destruct (map_cols Qmult _ _) as [w1 |]; cbn [bind]; [| discriminate].
    destruct (pseudo_quantize_tensor _ _) as [q |]; cbn [bind];
      [| discriminate].
    destruct (map_cols Qdiv _ _) as [w2 |]; cbn [bind]; [| discriminate].
    apply IH.
    + intros a Ha. apply Hincl. right. exact Ha.
    + apply rebind_restorable. apply write_layer_restorable; auto.
      apply Hincl. left. reflexivity.
Qed.

End Restore.

(** [load_state_dict] on entries whose snapshot storages hold the values
    [vs], when parameters that share a storage with each other or with the
    snapshot agree on their value: the parameters end up with the values
    [vs], and nothing else changes. *)
Lemma load_state_dict_values m1 :
  forall sd1 vs h h',
    length sd1 = length m1 -> length vs = length m1 ->
    (forall j, (j < length m1)%nat ->
       storages h (snd (nth j sd1 entry0)) = nth j vs tensor0) ->
    (forall j j', (j < length m1)%nat -> (j' < length m1)%nat ->
       params h (snd (nth j m1 entry0)) = snd (nth j' sd1 entry0) ->
       nth j vs tensor0 = nth j' vs tensor0) ->
    (forall j j', (j < length m1)%nat -> (j' < length m1)%nat ->
       params h (snd (nth j m1 entry0)) = params h (snd (nth j' m1 entry0)) ->
       nth j vs tensor0 = nth j' vs tensor0) ->
    load_state_dict m1 sd1 h = Ok h' ->
    params h' = params h /\ next_id h' = next_id h /\
    (forall s, (forall j, (j < length m1)%nat ->
                  params h (snd (nth j m1 entry0)) <> s) ->
               storages h' s = storages h s) /\
    (forall j, (j < length m1)%nat ->
       storages h' (params h (snd (nth j m1 entry0))) = nth j vs tensor0).
Proof.
  induction m1 as [| [k p] m2 IH]; intros sd1 vs h h' L1 L2 Hc Hal Hsh Hload.
  - destruct sd1; [| discriminate]. cbn in Hload. injection Hload as <-.
    repeat split; auto. intros j Hj. cbn in Hj. lia.
  - destruct sd1 as [| [k' s] sd2]; [discriminate |].
    destruct vs as [| v vs2]; [discriminate |].
    cbn [load_state_dict] in Hload.
    cbn [length] in *.
    assert (Hv : storages h s = v) by (apply (Hc 0%nat); lia).
    rewrite Hv in Hload.
    set (h1 := write_param h p v) in *.
    destruct (IH sd2 vs2 h1 h') as (Hp & Hn & Hframe & Hvals);
      [lia | lia | | | | exact Hload |].
    + intros j Hj. unfold h1. cbn [write_param storages].
      unfold upd. destruct (Nat.eqb_spec (snd (nth j sd2 entry0)) (params h p))
        as [E | E].
      * apply (Hal 0%nat (S j)); [lia | lia |]. cbn. auto.
      * apply (Hc (S j)). lia.
    + intros j j' Hj Hj' E. apply (Hal (S j) (S j')); [lia | lia | exact E].
    + intros j j' Hj Hj' E. apply (Hsh (S j) (S j')); [lia | lia | exact E].
    + unfold h1 in Hp, Hn, Hframe, Hvals.
      cbn [write_param params next_id storages] in Hp, Hn, Hframe, Hvals.
      split; [exact Hp |]. split; [exact Hn |]. split.
      * intros s0 Hs0. rewrite Hframe.
        -- apply upd_other. intros E. apply (Hs0 0%nat); [lia |]. cbn. auto.
        -- intros j Hj. apply (Hs0 (S j)). lia.
      * intros [| j] Hj.
        -- cbn [nth snd].
           destruct (in_dec Nat.eq_dec (params h p)
                       (map (fun e => params h (snd e)) m2)) as [Hin | Hnin].
           ++ apply (In_nth _ _ (params h (snd entry0))) in Hin.
              destruct Hin as (j2 & Hj2 & E).
              rewrite length_map in Hj2.
              change (params h (snd entry0))
                with ((fun e => params h (snd e)) entry0) in E.
              rewrite map_nth in E.
              rewrite <- E, (Hvals j2 Hj2).
              symmetry. apply (Hsh 0%nat (S j2)); [lia | lia |].
              cbn. auto.
           ++ rewrite Hframe; [apply upd_same |].
              intros j Hj2 E. apply Hnin.
              rewrite <- E.
              apply (in_map (fun e => params h (snd e))), nth_In. exact Hj2.
        -- cbn [nth]. apply Hvals. lia.
Qed.

Section RestoreLoad.
Variable m : module.
Variable layers : list nat.
Variable org_sd : list (string * nat).
Variable V : list tensor.

(** The module holds the values [V]. *)
Definition holds_values (h : heap) : Prop :=
  forall j, (j < length m)%nat ->
    param_data h (snd (nth j m entry0)) = nth j V tensor0.

Lemma load_state_dict_restores h h' :
  restorable m layers org_sd V h ->
  load_state_dict m org_sd h = Ok h' ->
  restorable m layers org_sd V h' /\ holds_values h'.
Proof.
  intros [L1 L2 Hc Ha Hl Hpar Hal Hsh] Hload.
  destruct (load_state_dict_values m org_sd V h h' L1 L2 Hc Hal Hsh Hload)
    as (Hp & Hn & Hframe & Hvals).
  split.
  - constructor; rewrite ?Hp, ?Hn; auto.
    intros j Hj.
    destruct (in_dec Nat.eq_dec (snd (nth j org_sd entry0))
                (map (fun e => params h (snd e)) m)) as [Hin | Hnin].
    + apply (In_nth _ _ (params h (snd entry0))) in Hin.
      destruct Hin as (j2 & Hj2 & E).
      rewrite length_map in Hj2.
      change (params h (snd entry0))
        with ((fun e => params h (snd e)) entry0) in E.
      rewrite map_nth in E.
      rewrite <- E, (Hvals j2 Hj2). apply Hal; auto.
    + rewrite Hframe; [apply Hc; auto |].
      intros j2 Hj2 E. apply Hnin.
      rewrite <- E.
      apply (in_map (fun e => params h (snd e))), nth_In. exact Hj2.
  - intros j Hj. unfold param_data. rewrite Hp. apply Hvals. exact Hj.
Qed.

End RestoreLoad.

Section RestoreSearch.
Variable tpow : Q -> Q -> Q.
Variable tsqrt : Q -> Q.
Variable forward : list (string * tensor) -> tensor -> list fval.
Variable element_size : Z.
Variable cfg : config.
Variable x : tensor.
Variables w_mean x_mean : list Q.
Variable m : module.
Variable layers : list nat.
Variable fp16_output : list fval.
Variable org_sd : list (string * nat).
Variable V : list tensor.

Lemma grid_step_restores h st k h' st' :
  restorable m layers org_sd V h ->
  grid_step tpow tsqrt forward element_size cfg x w_mean x_mean m layers
            fp16_output org_sd (h, st) k = Ok (h', st') ->
  restorable m layers org_sd V h' /\ holds_values m V h'.
Proof.
  intros Hr. unfold grid_step.
  destruct (candidate_scales _ _ _ _ _ _) as [scales |]; cbn [bind];
    [| discriminate].
  destruct (scale_layers cfg layers scales h) as [h1 |] eqn:Es; cbn [bind];
    [| discriminate].
  destruct (_compute_loss _ _ _ _) as [loss |]; cbn [bind]; [| discriminate].
  destruct (load_state_dict m org_sd h1) as [h2 |] eqn:El; cbn [bind];
    [| discriminate].
  intros [= <- _].
  apply (load_state_dict_restores m layers org_sd V h1 h2); auto.
  apply (scale_layers_restorable m layers org_sd V cfg layers scales h h1);
    auto.
  apply incl_refl.
Qed.

Lemma grid_loop_restores ks h st h' st' :
  restorable m layers org_sd V h -> holds_values m V h ->
  grid_loop tpow tsqrt forward element_size cfg x w_mean x_mean m layers
            fp16_output org_sd ks (h, st) = Ok (h', st') ->
  restorable m layers org_sd V h' /\ holds_values m V h'.
Proof.
  revert h st. induction ks as [| k ks IH]; intros h st Hr Hv.
  - cbn. intros [= <- _]. split; auto.
  - cbn [grid_loop].
    destruct (grid_step _ _ _ _ _ _ _ _ _ _ _ _ _ _) as [[h1 st1] |] eqn:Es;
      cbn [bind]; [| discriminate].
    destruct (grid_step_restores h st k h1 st1 Hr Es) as [Hr1 Hv1].
    apply IH; auto.
Qed.

End RestoreSearch.

(** The values a module holds, in the order of its [state_dict]. *)
Definition module_values (m : module) (h : heap) : list tensor :=
  map (fun e => param_data h (snd e)) m.

Lemma holds_values_state_dict m h h' :
  holds_values m (module_values m h) h' -> state_dict m h' = state_dict m h.
Proof.
  intros Hv. unfold state_dict. apply map_ext_in. intros e He.
  apply (In_nth _ _ entry0) in He. destruct He as (j & Hj & <-).
  f_equal. rewrite (Hv j Hj). unfold module_values.
  rewrite (nth_indep _ _ (param_data h (snd entry0)))
    by (rewrite length_map; auto).
  apply (map_nth (fun e => param_data h (snd e))).
Qed.

(** On an accelerator the snapshot is made of copies, in new storages. *)
Lemma snapshot_accelerator m1 :
  forall h h0 sd1,
    snapshot Accelerator m1 h = (h0, sd1) ->
    (forall p, (params h p < next_id h)%nat) ->
    params h0 = params h /\
    next_id h0 = (next_id h + length m1)%nat /\
    (forall s, (s < next_id h)%nat -> storages h0 s = storages h s) /\
    length sd1 = length m1 /\
    (forall j, (j < length m1)%nat ->
       snd (nth j sd1 entry0) = (next_id h + j)%nat /\
       storages h0 (next_id h + j) = param_data h (snd (nth j m1 entry0))).
Proof.
  induction m1 as [| [k p] m2 IH]; intros h h0 sd1 Hs Hpar.
  - cbn in Hs. injection Hs as <- <-. cbn [length].
    repeat split; auto; try lia.
  - cbn [snapshot] in Hs. unfold alloc in Hs.
    set (h1 := mkHeap (upd (storages h) (next_id h) (param_data h p))
                      (S (next_id h)) (params h)) in *.
    destruct (snapshot Accelerator m2 h1) as [h2 sd2] eqn:E2.
    injection Hs as <- <-.
    destruct (IH h1 h2 sd2 E2) as (Hp & Hn & Hst & Hl & Hids).
    { intros q. unfold h1. cbn. specialize (Hpar q). lia. }
    unfold h1 in Hp, Hn, Hst, Hids. cbn [params next_id storages] in *.
    split; [exact Hp |]. split; [cbn [length]; lia |]. split.
    { intros s Hs. rewrite Hst by lia. apply upd_other. lia. }
    split; [cbn [length]; lia |].
    intros [| j] Hj.
    + cbn [nth snd]. split; [lia |].
      rewrite Nat.add_0_r, Hst by lia. apply upd_same.
    + cbn [nth]. cbn [length] in Hj.
      destruct (Hids j) as [Hid Hval]; [lia |].
      split; [lia |].
      replace (next_id h + S j)%nat with (S (next_id h) + j)%nat by lia.
      rewrite Hval. unfold param_data. cbn [params storages].
      apply upd_other. specialize (Hpar (snd (nth j m2 entry0))). lia.
Qed.

Lemma snapshot_accelerator_restorable m layers h h0 org_sd :
  snapshot Accelerator m h = (h0, org_sd) ->
  (forall p, (params h p < next_id h)%nat) ->
  restorable m layers org_sd (module_values m h) h0 /\
  holds_values m (module_values m h) h0.
Proof.
  intros Hs Hpar.
  destruct (snapshot_accelerator m h h0 org_sd Hs Hpar)
    as (Hp & Hn & Hst & Hl & Hids).
  assert (Hval : forall j, (j < length m)%nat ->
            nth j (module_values m h) tensor0
            = param_data h (snd (nth j m entry0))).
  { intros j Hj. unfold module_values.
    rewrite (nth_indep _ _ (param_data h (snd entry0)))
      by (rewrite length_map; auto).
    apply (map_nth (fun e => param_data h (snd e))). }
  split.
  - constructor; auto.
    + unfold module_values. apply length_map.
    + intros j Hj. destruct (Hids j Hj) as [-> ->]. symmetry. auto.
    + intros j Hj. destruct (Hids j Hj) as [-> _]. lia.
    + intros p j _ Hj. destruct (Hids j Hj) as [-> _]. rewrite Hp.
      specialize (Hpar p). lia.
    + intros p. rewrite Hp. specialize (Hpar p). lia.
    + intros j j' Hj Hj'. destruct (Hids j' Hj') as [-> _]. rewrite Hp.
      pose proof (Hpar (snd (nth j m entry0))). lia.
    + intros j j' Hj Hj'. rewrite Hp, !Hval by auto.
      unfold param_data. intros ->. reflexivity.
  - intros j Hj. rewrite Hval by auto. unfold param_data.
    rewrite Hp. apply Hst. apply Hpar.
Qed.

(** X13.  On an accelerator every trial of the search starts from the values
    the module had before the search and the search leaves the module
    with them: the state after any number [k] of trials is the original
    one. *)
Theorem accelerator_search_restores_weights
    (tpow : Q -> Q -> Q) (tsqrt : Q -> Q)
    (forward : list (string * tensor) -> tensor -> list fval)
    (element_size : Z) (cfg : config) (x : tensor)
    (w_mean x_mean : list Q) (m : module) (layers : list nat)
    (fp16_output : list fval) (h : heap) :
  (forall p, (params h p < next_id h)%nat) ->
  (forall k h_k st_k,
     grid_loop tpow tsqrt forward element_size cfg x w_mean x_mean m layers
       fp16_output (snd (snapshot Accelerator m h)) (seq 0 k)
       (fst (snapshot Accelerator m h), initial_search) = Ok (h_k, st_k) ->
     state_dict m h_k = state_dict m h) /\
  (forall log h' s,
     _compute_best_scale tpow tsqrt forward element_size Accelerator cfg x
       w_mean x_mean m layers fp16_output h = (log, Ok (h', s)) ->
     state_dict m h' = state_dict m h).
Proof.
  intros Hpar.
  destruct (snapshot Accelerator m h) as [h0 org_sd] eqn:Hs.
  destruct (snapshot_accelerator_restorable m layers h h0 org_sd Hs Hpar)
    as [Hr Hv].
  assert (Hloop : forall ks h_k st_k,
            grid_loop tpow tsqrt forward element_size cfg x w_mean x_mean m
              layers fp16_output org_sd ks (h0, initial_search)
              = Ok (h_k, st_k) ->
            state_dict m h_k = state_dict m h).
  { intros ks h_k st_k Hrun. apply holds_values_state_dict.
    apply (grid_loop_restores tpow tsqrt forward element_size cfg x w_mean
             x_mean m layers fp16_output org_sd (module_values m h)
             ks h0 initial_search h_k st_k Hr Hv Hrun). }
  split.
  - intros k h_k st_k. cbn [fst snd]. apply Hloop.
  - intros log h' s. unfold _compute_best_scale, search_trials. rewrite Hs.
    destruct (grid_loop _ _ _ _ _ _ _ _ _ _ _ _ _ _) as [[h1 st] |] eqn:Hrun;
      [| discriminate].
    destruct (Qeq_bool _ _); [discriminate |].
    destruct (best_scales st); [| discriminate].
    intros [= _ <- _]. apply (Hloop (seq 0 n_grid) h1 st Hrun).
Qed.

(** ** In host memory the snapshot shares the storage of the weights *)

(** The entries of the first parameter after a run, in lowest terms. *)
Definition weight_after {A} (r : result (heap * A)) : option (list Q) :=
  match r with
  | Ok (h, _) => Some (map Qred (data (param_data h 0%nat)))
  | Raise _ => None
  end.

(** The scales of a candidate, in lowest terms. *)
Definition reduced (r : result (list Q)) : option (list Q) :=
  match r with
  | Ok s => Some (map Qred s)
  | Raise _ => None
  end.

Definition fp16_spanning : list fval :=
  linear_forward (state_dict fc_module (heap_of w_spanning)) x_two_tokens.

(** C5 on a module in host memory, with duo scaling: one linear layer
    of weight [[-1; 2]], [w_mean = [0.2499; 0.9999]] and [x_mean = [1; 1]].
    The scales of the first ratio (0) are [[2; 1/2]]: [pow] is exact there
    (exponents 0 and 1) and so is the square root of 4.  The in-place
    product of the first trial goes into the storage the snapshot shares,
    so the first [load_state_dict] leaves the weight at [[-2; 1]]: the
    second trial starts from it, and it is still what the layer holds when
    the search returns. *)
Theorem C5_cpu_snapshot_aliases_weights :
  snapshot Cpu fc_module (heap_of w_spanning)
    = (heap_of w_spanning, [("weight"%string, 0%nat)]) /\
  reduced (candidate_scales pow_standin sqrt_standin cfg_duo x_mean_ones
             w_mean_quarter_one (ratio_of 0)) = Some [2 # 1; 1 # 2] /\
  data w_spanning = [-1; 2] /\
  weight_after
    (grid_loop pow_standin sqrt_standin linear_forward 2 cfg_duo
       x_two_tokens w_mean_quarter_one x_mean_ones fc_module [0%nat]
       fp16_spanning [("weight"%string, 0%nat)] (seq 0 1)
       (heap_of w_spanning, initial_search))
    = Some [-2; 1] /\
  weight_after
    (snd (_compute_best_scale pow_standin sqrt_standin linear_forward 2 Cpu
            cfg_duo x_two_tokens w_mean_quarter_one x_mean_ones fc_module
            [0%nat] fp16_spanning (heap_of w_spanning)))
    = Some [-2; 1].
Proof.
  split; [reflexivity |]. split; [| split; [reflexivity |]].
  - vm_compute. reflexivity.
  - split; vm_compute; reflexivity.
Qed.

(** X14.  The same for any [pow], [sqrt] and forward pass: when the inspected
    module is a single linear layer in host memory, after every trial and
    when the search returns the layer holds its weight multiplied in place
    by the scales of the first ratio. *)
Theorem cpu_search_keeps_first_product
    (tpow : Q -> Q -> Q) (tsqrt : Q -> Q)
    (forward : list (string * tensor) -> tensor -> list fval)
    (element_size : Z) (cfg : config) (x : tensor)
    (w_mean x_mean : list Q) (key : string) (fc : nat)
    (fp16_output : list fval) (h : heap) (s1 : list Q) (w1 : tensor) :
  (forall p, (params h p < next_id h)%nat) ->
  candidate_scales tpow tsqrt cfg x_mean w_mean (ratio_of 0) = Ok s1 ->
  map_cols Qmult (param_data h fc) s1 = Ok w1 ->
  snapshot Cpu [(key, fc)] h = (h, [(key, params h fc)]) /\
  (forall k h_k st_k,
     grid_loop tpow tsqrt forward element_size cfg x w_mean x_mean
       [(key, fc)] [fc] fp16_output [(key, params h fc)] (seq 0 (S k))
       (h, initial_search) = Ok (h_k, st_k) ->
     param_data h_k fc = w1) /\
  (forall log h' s,
     _compute_best_scale tpow tsqrt forward element_size Cpu cfg x w_mean
       x_mean [(key, fc)] [fc] fp16_output h = (log, Ok (h', s)) ->
     param_data h' fc = w1).
Proof.
  intros Hpar Hs1 Hw1.
  assert (Hloop : forall k h_k st_k,
            grid_loop tpow tsqrt forward element_size cfg x w_mean x_mean
              [(key, fc)] [fc] fp16_output [(key, params h fc)] (seq 0 (S k))
              (h, initial_search) = Ok (h_k, st_k) ->
            param_data h_k fc = w1).
  { intros k h_k st_k. cbn [seq grid_loop].
    destruct (grid_step _ _ _ _ _ _ _ _ _ _ _ _ _ _) as [[h1 st1] |] eqn:Es;
      cbn [bind]; [| discriminate].
    intros Hrest.
    unfold grid_step in Es. rewrite Hs1 in Es. cbn [bind] in Es.
    cbn [scale_layers] in Es. rewrite Hw1 in Es. cbn [bind] in Es.
    set (h_a := write_param h fc w1) in *.
    destruct (pseudo_quantize_tensor cfg (param_data h_a fc)) as [q |];
      cbn [bind] in Es; [| discriminate].
    destruct (map_cols Qdiv (fst (fst q)) s1) as [w2 |]; cbn [bind] in Es;
      [| discriminate].
    set (h_b := rebind_param h_a fc w2) in *.
    destruct (_compute_loss _ _ _ _) as [loss |]; cbn [bind] in Es;
      [| discriminate].
    destruct (load_state_dict _ _ h_b) as [h2 |] eqn:El; cbn [bind] in Es;
      [| discriminate].
    injection Es as <- _.
    assert (Hr : restorable [(key, fc)] [fc] [(key, params h fc)] [w1] h_b).
    { pose proof (Hpar fc) as Hfc.
      constructor; unfold h_b, h_a, rebind_param, alloc, write_param;
        cbn [length storages next_id params nth snd]; auto.
      - intros [| j] Hj; [| lia]. cbn [nth snd].
        rewrite upd_other by lia. apply upd_same.
      - intros [| j] Hj; [| lia]. cbn [nth snd]. lia.
      - intros p [| j] [<- | []] Hj; [| lia]. cbn [nth snd].
        rewrite upd_same. lia.
      - intros p. unfold upd. destruct (p =? fc)%nat; [lia |].
        specialize (Hpar p). lia.
      - intros [| j] [| j'] Hj Hj'; try lia. reflexivity.
      - intros [| j] [| j'] Hj Hj'; try lia. reflexivity. }
    destruct (load_state_dict_restores [(key, fc)] [fc] [(key, params h fc)]
                [w1] h_b h2 Hr El) as [Hr2 Hv2].
    destruct (grid_loop_restores tpow tsqrt forward element_size cfg x w_mean
                x_mean [(key, fc)] [fc] fp16_output [(key, params h fc)]
                [w1] (seq 1 k) h2 st1 h_k st_k Hr2 Hv2 Hrest) as [_ Hvk].
    apply (Hvk 0%nat). cbn. lia. }
  split; [reflexivity |]. split; [exact Hloop |].
  intros log h' s. unfold _compute_best_scale, search_trials.
  cbn [snapshot].
  destruct (grid_loop _ _ _ _ _ _ _ _ _ _ _ _ _ _) as [[h1 st] |] eqn:Hrun;
    [| discriminate].
  destruct (Qeq_bool _ _); [discriminate |].
  destruct (best_scales st); [| discriminate].
  intros [= _ <- _]. apply (Hloop 19%nat h1 st Hrun).
Qed.

(** The same layer on an accelerator, where the snapshot is a copy: the
    search leaves the weight as it was. *)
Example accelerator_instance_restores :
  weight_after
    (snd (_compute_best_scale pow_standin sqrt_standin linear_forward 2
            Accelerator cfg_duo x_two_tokens w_mean_quarter_one x_mean_ones
            fc_module [0%nat] fp16_spanning (heap_of w_spanning)))
    = Some [-1; 2].
Proof. vm_compute. reflexivity. Qed.

(* ================================================================== *)
(** * Further properties of [pseudo_quantize_tensor] *)

Lemma round_half_even_Qeq q1 q2 :
  q1 == q2 -> round_half_even q1 = round_half_even q2.
Proof.
  intros E.
  assert (H1 : q1 <= q2) by (rewrite E; apply Qle_refl).
  assert (H2 : q2 <= q1) by (rewrite E; apply Qle_refl).
  apply round_half_even_mono in H1, H2. lia.
Qed.

Lemma clampZ_mono x y lo hi :
  (x <= y)%Z -> (clampZ x lo hi <= clampZ y lo hi)%Z.
Proof. unfold clampZ; lia. Qed.

Lemma clampZ_range x lo hi :
  (lo <= hi)%Z -> (lo <= clampZ x lo hi <= hi)%Z.
Proof. unfold clampZ; lia. Qed.

Lemma quantize_row_scale_pos cfg row :
  (2 <= w_bit cfg)%Z -> 0 < qscale (quantize_row cfg row).
Proof.
  intros Hb. pose proof (max_int_pos cfg Hb) as HM.
  assert (HMQ : 0 < inject_Z (max_int cfg)).
  { change 0 with (inject_Z 0). rewrite <- Zlt_Qlt. exact HM. }
  unfold quantize_row.
  destruct (zero_point cfg); cbn [qscale]; unfold Qdiv;
    (apply Qmult_lt_0_compat; [apply clamp_min_pos |
                               apply Qinv_lt_0_compat; exact HMQ]).
Qed.

(** The code of an entry, as [quantize_row] computes it. *)
Definition row_code (cfg : config) (row : list Q) (w : Q) : Z :=
  let q := quantize_row cfg row in
  match qzero q with
  | Some z => clampZ (round_half_even (w / qscale q) + z)
                     (min_int cfg) (max_int cfg)
  | None => clampZ (round_half_even (w / qscale q))
                   (min_int cfg) (max_int cfg)
  end.

Lemma quantize_row_codes cfg row :
  codes (quantize_row cfg row) = map (row_code cfg row) row.
Proof.
  unfold row_code, quantize_row.
  destruct (zero_point cfg); cbn [qzero codes qscale]; reflexivity.
Qed.

Lemma row_entry_code cfg row w :
  row_entry cfg row w =
    match qzero (quantize_row cfg row) with
    | Some z => (inject_Z (row_code cfg row w) - inject_Z z)
                * qscale (quantize_row cfg row)
    | None => inject_Z (row_code cfg row w) * qscale (quantize_row cfg row)
    end.
Proof.
  unfold row_entry, row_code. cbn zeta.
  destruct (qzero (quantize_row cfg row)); reflexivity.
Qed.

Lemma row_code_mono cfg row w1 w2 :
  (2 <= w_bit cfg)%Z -> w1 <= w2 ->
  (row_code cfg row w1 <= row_code cfg row w2)%Z.
Proof.
  intros Hb Hle. pose proof (quantize_row_scale_pos cfg row Hb) as Hs.
  unfold row_code. cbn zeta.
  assert (Hd : w1 / qscale (quantize_row cfg row)
               <= w2 / qscale (quantize_row cfg row))
    by (apply Qdiv_le_mono; auto).
  apply round_half_even_mono in Hd.
  destruct (qzero (quantize_row cfg row)); apply clampZ_mono; lia.
Qed.

Lemma row_entry_mono cfg row w1 w2 :
  (2 <= w_bit cfg)%Z -> w1 <= w2 ->
  row_entry cfg row w1 <= row_entry cfg row w2.
Proof.
  intros Hb Hle. pose proof (quantize_row_scale_pos cfg row Hb) as Hs.
  pose proof (row_code_mono cfg row w1 w2 Hb Hle) as Hc.
  rewrite !row_entry_code.
  apply inject_Z_le_iff in Hc.
  destruct (qzero (quantize_row cfg row));
    apply Qmult_le_compat_r; lra.
Qed.

Lemma quantize_row_zero_range cfg row z :
  (2 <= w_bit cfg)%Z -> qzero (quantize_row cfg row) = Some z ->
  zero_point cfg = true /\ (min_int cfg <= z <= max_int cfg)%Z.
Proof.
  intros Hb. rewrite quantize_row_qzero.
  destruct (zero_point cfg); [| discriminate].
  intros [= <-]. split; auto.
  apply clampZ_range. apply min_le_max_int; auto.
Qed.

Lemma row_code_zero cfg row w :
  (2 <= w_bit cfg)%Z -> w == 0 ->
  row_code cfg row w =
    match qzero (quantize_row cfg row) with Some z => z | None => 0%Z end.
Proof.
  intros Hb Hw. unfold row_code. cbn zeta.
  assert (E : w / qscale (quantize_row cfg row) == inject_Z 0).
  { rewrite Hw. unfold Qdiv. rewrite Qmult_0_l. reflexivity. }
  rewrite (round_half_even_Qeq _ _ E), round_half_even_inject_Z.
  destruct (qzero (quantize_row cfg row)) as [z |] eqn:Ez.
  - destruct (quantize_row_zero_range cfg row z Hb Ez) as [_ Hz].
    apply clampZ_id. lia.
  - rewrite quantize_row_qzero in Ez.
    destruct (zero_point cfg) eqn:Ezp; [discriminate |].
    apply clampZ_id. destruct (@two_pow_ge (w_bit cfg) Hb).
    unfold min_int, max_int. rewrite Ezp. lia.
Qed.

Lemma row_entry_zero cfg row w :
  (2 <= w_bit cfg)%Z -> w == 0 -> row_entry cfg row w == 0.
Proof.
  intros Hb Hw. rewrite row_entry_code, (row_code_zero cfg row w Hb Hw).
  destruct (qzero (quantize_row cfg row)); ring.
Qed.

(** The entry [i] of a quantized matrix, its code and the scale of its
    group, in terms of the group the entry belongs to. *)
Lemma pseudo_quantize_matrix_entry cfg w r c i :
  shape w = [r; c] -> wf_tensor w ->
  (0 < r)%nat -> (0 < c)%nat -> groupable cfg c ->
  (i < length (data w))%nat ->
  let row := nth (i / gsize cfg c) (groups_of cfg w c) [] in
  let qs := map (quantize_row cfg) (groups_of cfg w c) in
  In (nth i (data w) 0) row /\
  nth i (concat (map dequantize_row qs)) 0
    = row_entry cfg row (nth i (data w) 0) /\
  nth i (concat (map codes qs)) 0%Z = row_code cfg row (nth i (data w) 0) /\
  nth (i / gsize cfg c) (map qscale qs) 0 = qscale (quantize_row cfg row).
Proof.
  intros Hsh Hwf Hr Hc Hg Hi. cbn zeta.
  destruct (@pseudo_quantize_tensor_matrix cfg w r c Hsh Hwf Hr Hc Hg)
    as [_ Hlen].
  destruct (@gsize_divides cfg c Hc Hg) as [Hg0 _].
  unfold groups_of in *.
  set (g := gsize cfg c) in *. set (k := (c / g)%nat) in *.
  rewrite Hlen, Nat.div_mul in * by lia.
  set (rows := rows_of (r * k) g (data w)) in *.
  assert (Hrows : Forall (fun row => length row = g) rows)
    by (apply rows_of_Forall_length; auto).
  assert (Hdata : data w = concat rows)
    by (symmetry; apply rows_of_concat; auto).
  assert (Hig : (i / g < length rows)%nat).
  { unfold rows. rewrite rows_of_length.
    apply Nat.Div0.div_lt_upper_bound; lia. }
  set (row := nth (i / g) rows []) in *.
  assert (Hrow_in : In row rows) by (apply nth_In; auto).
  assert (Hrow_len : length row = g).
  { rewrite Forall_forall in Hrows. auto. }
  assert (Him : (i mod g < length row)%nat).
  { rewrite Hrow_len. apply Nat.mod_upper_bound. lia. }
  assert (Hwi : nth i (data w) 0 = nth (i mod g) row 0).
  { rewrite Hdata at 1. apply (@nth_concat_uniform _ rows g i 0); auto. }
  rewrite !map_map. rewrite Hwi.
  split; [apply nth_In; auto |]. split; [| split].
  - rewrite (@nth_concat_uniform _ _ g i 0); auto.
    + rewrite (@nth_map_default _ _ _ rows (i / g) [] []) by auto.
      fold row. rewrite dequantize_quantize_row.
      apply (@nth_map_default _ _ _ row (i mod g) 0 0); auto.
    + apply Forall_forall. intros l Hl.
      apply in_map_iff in Hl. destruct Hl as [row' [<- Hin']].
      rewrite dequantize_quantize_row, length_map.
      rewrite Forall_forall in Hrows. auto.
  - rewrite (@nth_concat_uniform _ _ g i 0%Z); auto.
    + rewrite (@nth_map_default _ _ _ rows (i / g) [] []) by auto.
      fold row. rewrite quantize_row_codes.
      apply (@nth_map_default _ _ _ row (i mod g) 0 0%Z); auto.
    + apply Forall_forall. intros l Hl.
      apply in_map_iff in Hl. destruct Hl as [row' [<- Hin']].
      rewrite quantize_row_codes_length.
      rewrite Forall_forall in Hrows. auto.
  - rewrite (@nth_map_default _ _ _ rows (i / g) [] 0) by auto.
    reflexivity.
Qed.

(** The data of the matrix [pseudo_quantize_tensor] returns. *)
Lemma pseudo_quantize_matrix_data cfg w r c w_hat scales zeros :
  shape w = [r; c] -> wf_tensor w ->
  (0 < r)%nat -> (0 < c)%nat -> groupable cfg c ->
  pseudo_quantize_tensor cfg w = Ok (w_hat, scales, zeros) ->
  let qs := map (quantize_row cfg) (groups_of cfg w c) in
  data w_hat = concat (map dequantize_row qs) /\
  data scales = map qscale qs /\
  shape w_hat = [r; c] /\
  shape scales = [r; (c / gsize cfg c)%nat].
Proof.
  intros Hsh Hwf Hr Hc Hg Hq.
  destruct (@pseudo_quantize_tensor_matrix cfg w r c Hsh Hwf Hr Hc Hg)
    as [Hq' _].
  cbn zeta in Hq'. rewrite Hq' in Hq. injection Hq as <- <- _.
  cbn. repeat split.
Qed.

(** X1.  An entry that is zero stays zero: in zero-point mode its code is the
    zero of its group, in symmetric mode it is 0. *)
Theorem quantization_keeps_zero_entries cfg w r c w_hat scales zeros i :
  (2 <= w_bit cfg)%Z ->
  shape w = [r; c] -> wf_tensor w ->
  (0 < r)%nat -> (0 < c)%nat -> groupable cfg c ->
  pseudo_quantize_tensor cfg w = Ok (w_hat, scales, zeros) ->
  (i < length (data w))%nat ->
  nth i (data w) 0 == 0 -> nth i (data w_hat) 0 == 0.
Proof.
  intros Hb Hsh Hwf Hr Hc Hg Hq Hi Hz.
  destruct (pseudo_quantize_matrix_data cfg w r c w_hat scales zeros
              Hsh Hwf Hr Hc Hg Hq) as (Hd & _).
  destruct (pseudo_quantize_matrix_entry cfg w r c i Hsh Hwf Hr Hc Hg Hi)
    as (_ & He & _).
  rewrite Hd, He. apply row_entry_zero; auto.
Qed.

Definition w_with_zero : tensor := mkTensor [1; 4]%nat [3; 0; -1; 7 # 2].

Lemma quantization_keeps_zero_entries_witness :
  exists w_hat scales zeros,
    pseudo_quantize_tensor cfg_zp4_g2 w_with_zero
      = Ok (w_hat, scales, zeros) /\
    nth 1 (data w_with_zero) 0 == 0 /\
    nth 1 (data w_hat) 0 == 0.
Proof.
  destruct (pseudo_quantize_tensor cfg_zp4_g2 w_with_zero)
    as [[[w_hat scales] zeros] | e] eqn:E; [| vm_compute in E; discriminate].
  exists w_hat, scales, zeros. split; [reflexivity |].
  assert (Hz : nth 1 (data w_with_zero) 0 == 0) by reflexivity.
  split; [exact Hz |].
  assert (Hb : (2 <= w_bit cfg_zp4_g2)%Z) by (cbn; lia).
  assert (Hg : groupable cfg_zp4_g2 4) by (right; reflexivity).
  assert (Hi : (1 < length (data w_with_zero))%nat) by (cbn; lia).
  exact (quantization_keeps_zero_entries cfg_zp4_g2 w_with_zero 1 4 w_hat
           scales zeros 1 Hb eq_refl eq_refl (Nat.lt_0_succ 0)
           (Nat.lt_0_succ 3) Hg E Hi Hz).
Defined.

(** X2.  Quantization keeps the order of the entries of a group: of two
    entries of the same group, the one that is not larger before is not
    larger after. *)
Theorem quantization_keeps_order_within_group
    cfg w r c w_hat scales zeros i j :
  (2 <= w_bit cfg)%Z ->
  shape w = [r; c] -> wf_tensor w ->
  (0 < r)%nat -> (0 < c)%nat -> groupable cfg c ->
  pseudo_quantize_tensor cfg w = Ok (w_hat, scales, zeros) ->
  (i < length (data w))%nat -> (j < length (data w))%nat ->
  (i / gsize cfg c = j / gsize cfg c)%nat ->
  nth i (data w) 0 <= nth j (data w) 0 ->
  nth i (data w_hat) 0 <= nth j (data w_hat) 0.
Proof.
  intros Hb Hsh Hwf Hr Hc Hg Hq Hi Hj Hsame Hle.
  destruct (pseudo_quantize_matrix_data cfg w r c w_hat scales zeros
              Hsh Hwf Hr Hc Hg Hq) as (Hd & _).
  destruct (pseudo_quantize_matrix_entry cfg w r c i Hsh Hwf Hr Hc Hg Hi)
    as (_ & Hei & _).
  destruct (pseudo_quantize_matrix_entry cfg w r c j Hsh Hwf Hr Hc Hg Hj)
    as (_ & Hej & _).
  rewrite Hd, Hei, Hej, Hsame. apply row_entry_mono; auto.
Qed.

Lemma quantization_keeps_order_within_group_witness :
  exists w_hat scales zeros,
    pseudo_quantize_tensor cfg_zp4_g2 w_with_zero
      = Ok (w_hat, scales, zeros) /\
    nth 2 (data w_with_zero) 0 <= nth 3 (data w_with_zero) 0 /\
    nth 2 (data w_hat) 0 <= nth 3 (data w_hat) 0.
Proof.
  destruct (pseudo_quantize_tensor cfg_zp4_g2 w_with_zero)
    as [[[w_hat scales] zeros] | e] eqn:E; [| vm_compute in E; discriminate].
  exists w_hat, scales, zeros. split; [reflexivity |].
  assert (Hle : nth 2 (data w_with_zero) 0 <= nth 3 (data w_with_zero) 0)
    by (cbn; lra).
  split; [exact Hle |].
  assert (Hb : (2 <= w_bit cfg_zp4_g2)%Z) by (cbn; lia).
  assert (Hg : groupable cfg_zp4_g2 4) by (right; reflexivity).
  assert (Hi : (2 < length (data w_with_zero))%nat) by (cbn; lia).
  assert (Hj : (3 < length (data w_with_zero))%nat) by (cbn; lia).
  exact (quantization_keeps_order_within_group cfg_zp4_g2 w_with_zero 1 4
           w_hat scales zeros 2 3 Hb eq_refl eq_refl (Nat.lt_0_succ 0)
           (Nat.lt_0_succ 3) Hg E Hi Hj eq_refl Hle).
Defined.

(** ** The symmetric branch *)

Lemma symmetric_row cfg row :
  zero_point cfg = false ->
  qzero (quantize_row cfg row) = None /\
  qscale (quantize_row cfg row)
    = clamp_min (amax (map Qabs row)) eps5 / inject_Z (max_int cfg).
Proof. intros E. unfold quantize_row. rewrite E. split; reflexivity. Qed.

Lemma max_int_Q_pos cfg : (2 <= w_bit cfg)%Z -> 0 < inject_Z (max_int cfg).
Proof.
  intros Hb. pose proof (max_int_pos cfg Hb) as HM.
  change 0 with (inject_Z 0). rewrite <- Zlt_Qlt. exact HM.
Qed.

(** In symmetric mode the scale times [max_int] is the clamped largest
    magnitude of the row. *)
Lemma symmetric_scale_max cfg row :
  (2 <= w_bit cfg)%Z -> zero_point cfg = false ->
  inject_Z (max_int cfg) * qscale (quantize_row cfg row)
    == clamp_min (amax (map Qabs row)) eps5.
Proof.
  intros Hb Ezp. pose proof (max_int_Q_pos cfg Hb) as HM.
  destruct (symmetric_row cfg row Ezp) as [_ ->].
  field. intros H. rewrite H in HM. lra.
Qed.

Lemma symmetric_quotient_range cfg row w :
  (2 <= w_bit cfg)%Z -> zero_point cfg = false -> In w row ->
  inject_Z (- max_int cfg) <= w / qscale (quantize_row cfg row) /\
  w / qscale (quantize_row cfg row) <= inject_Z (max_int cfg).
Proof.
  intros Hb Ezp Hin.
  pose proof (quantize_row_scale_pos cfg row Hb) as Hs.
  pose proof (symmetric_scale_max cfg row Hb Ezp) as Hmax.
  pose proof (Qabs_le_amax row w Hin) as Hw.
  pose proof (clamp_min_ge (amax (map Qabs row))) as Hge.
  assert (Habs : Qabs w <= clamp_min (amax (map Qabs row)) eps5)
    by (eapply Qle_trans; eauto).
  apply Qabs_Qle_condition in Habs. destruct Habs as [Hlo Hhi].
  split.
  - apply Qle_shift_div_l; [exact Hs |].
    rewrite inject_Z_opp. lra.
  - apply Qle_shift_div_r; [exact Hs |]. lra.
Qed.

(** The code of an entry of the row in symmetric mode: the clamp does
    nothing. *)
Lemma symmetric_row_code cfg row w :
  (2 <= w_bit cfg)%Z -> zero_point cfg = false -> In w row ->
  row_code cfg row w = round_half_even (w / qscale (quantize_row cfg row)) /\
  (- max_int cfg <= row_code cfg row w <= max_int cfg)%Z.
Proof.
  intros Hb Ezp Hin.
  destruct (symmetric_quotient_range cfg row w Hb Ezp Hin) as [Hlo Hhi].
  apply round_half_even_mono in Hlo, Hhi.
  rewrite round_half_even_inject_Z in Hlo, Hhi.
  unfold row_code. cbn zeta.
  destruct (symmetric_row cfg row Ezp) as [-> _].
  rewrite clampZ_id.
  - split; [reflexivity | lia].
  - unfold min_int, max_int in *. rewrite Ezp in *. lia.
Qed.

Lemma symmetric_row_entry cfg row w :
  (2 <= w_bit cfg)%Z -> zero_point cfg = false -> In w row ->
  row_entry cfg row w
    = inject_Z (round_half_even (w / qscale (quantize_row cfg row)))
      * qscale (quantize_row cfg row).
Proof.
  intros Hb Ezp Hin. rewrite row_entry_code.
  destruct (symmetric_row_code cfg row w Hb Ezp Hin) as [<- _].
  destruct (symmetric_row cfg row Ezp) as [-> _]. reflexivity.
Qed.

(** No entry of a symmetric row grows beyond the clamped largest
    magnitude of the row. *)
Lemma symmetric_row_entry_bound cfg row w :
  (2 <= w_bit cfg)%Z -> zero_point cfg = false -> In w row ->
  Qabs (row_entry cfg row w) <= clamp_min (amax (map Qabs row)) eps5.
Proof.
  intros Hb Ezp Hin.
  pose proof (quantize_row_scale_pos cfg row Hb) as Hs.
  pose proof (symmetric_scale_max cfg row Hb Ezp) as Hmax.
  destruct (symmetric_row_code cfg row w Hb Ezp Hin) as [Ec [Hlo Hhi]].
  rewrite symmetric_row_entry, <- Ec by auto.
  apply inject_Z_le_iff in Hlo, Hhi. rewrite inject_Z_opp in Hlo.
  rewrite <- Hmax. apply Qabs_Qle_condition. split.
  - assert (E : - (inject_Z (max_int cfg) * qscale (quantize_row cfg row))
                == (- inject_Z (max_int cfg)) * qscale (quantize_row cfg row))
      by ring.
    rewrite E. apply Qmult_le_compat_r; lra.
  - apply Qmult_le_compat_r; lra.
Qed.


(** The quantization group the entry [i] of a matrix belongs to. *)
Definition group_of_entry (cfg : config) (w : tensor) (c i : nat) : list Q :=
  nth (i / gsize cfg c) (groups_of cfg w c) [].

(** X3.  In symmetric mode no entry comes out larger in magnitude than the
    largest magnitude of its group (taken as [1e-5] when it is smaller):
    quantization does not widen the range of a group. *)
Theorem symmetric_quantization_within_largest_magnitude
    cfg w r c w_hat scales zeros i :
  (2 <= w_bit cfg)%Z -> zero_point cfg = false ->
  shape w = [r; c] -> wf_tensor w ->
  (0 < r)%nat -> (0 < c)%nat -> groupable cfg c ->
  pseudo_quantize_tensor cfg w = Ok (w_hat, scales, zeros) ->
  (i < length (data w))%nat ->
  Qabs (nth i (data w_hat) 0)
    <= clamp_min (amax (map Qabs (group_of_entry cfg w c i))) eps5.
Proof.
  intros Hb Ezp Hsh Hwf Hr Hc Hg Hq Hi.
  destruct (pseudo_quantize_matrix_data cfg w r c w_hat scales zeros
              Hsh Hwf Hr Hc Hg Hq) as (Hd & _).
  destruct (pseudo_quantize_matrix_entry cfg w r c i Hsh Hwf Hr Hc Hg Hi)
    as (Hin & He & _).
  unfold group_of_entry. rewrite Hd, He.
  apply symmetric_row_entry_bound; auto.
Qed.

Definition cfg_sym4_g2 : config := mkConfig 4 2 false "gemm" true 1024.
Definition w_two_groups : tensor := mkTensor [1; 4]%nat [3; -7; 1 # 3; 2].

Lemma symmetric_quantization_within_largest_magnitude_witness :
  exists w_hat scales zeros,
    pseudo_quantize_tensor cfg_sym4_g2 w_two_groups
      = Ok (w_hat, scales, zeros) /\
    Qabs (nth 0 (data w_hat) 0) <= 7 /\
    Qabs (nth 2 (data w_hat) 0) <= 2.
Proof.
  destruct (pseudo_quantize_tensor cfg_sym4_g2 w_two_groups)
    as [[[w_hat scales] zeros] | e] eqn:E; [| vm_compute in E; discriminate].
  exists w_hat, scales, zeros. split; [reflexivity |].
  assert (Hb : (2 <= w_bit cfg_sym4_g2)%Z) by (cbn; lia).
  assert (Hg : groupable cfg_sym4_g2 4) by (right; reflexivity).
  assert (H0 : (0 < length (data w_two_groups))%nat) by (cbn; lia).
  assert (H2 : (2 < length (data w_two_groups))%nat) by (cbn; lia).
  split.
  - exact (symmetric_quantization_within_largest_magnitude cfg_sym4_g2
             w_two_groups 1 4 w_hat scales zeros 0 Hb eq_refl eq_refl
             eq_refl (Nat.lt_0_succ 0) (Nat.lt_0_succ 3) Hg E H0).
  - exact (symmetric_quantization_within_largest_magnitude cfg_sym4_g2
             w_two_groups 1 4 w_hat scales zeros 2 Hb eq_refl eq_refl
             eq_refl (Nat.lt_0_succ 0) (Nat.lt_0_succ 3) Hg E H2).
Defined.

(** ** Quantizing twice in symmetric mode *)

Lemma rows_of_of_concat {A} (rows : list (list A)) g :
  Forall (fun r => length r = g) rows ->
  rows_of (length rows) g (concat rows) = rows.
Proof.
  induction 1 as [| r rows Hr Hall IH]; cbn [length rows_of concat].
  - reflexivity.
  - rewrite firstn_app, <- Hr, Nat.sub_diag, firstn_all. cbn [firstn].
    rewrite app_nil_r. f_equal.
    rewrite skipn_app, Nat.sub_diag, skipn_all. cbn [skipn app].
    rewrite Hr. exact IH.
Qed.

Lemma length_concat_uniform {A} (rows : list (list A)) g :
  Forall (fun r => length r = g) rows ->
  length (concat rows) = (length rows * g)%nat.
Proof.
  induction 1 as [| r rows Hr Hall IH]; cbn [length concat]; auto.
  rewrite length_app, IH, Hr. lia.
Qed.

(** The rows a quantized matrix is made of. *)
Lemma quantized_groups cfg w r c w_hat scales zeros :
  shape w = [r; c] -> wf_tensor w ->
  (0 < r)%nat -> (0 < c)%nat -> groupable cfg c ->
  pseudo_quantize_tensor cfg w = Ok (w_hat, scales, zeros) ->
  shape w_hat = [r; c] /\ wf_tensor w_hat /\
  groups_of cfg w_hat c
    = map (fun row => map (row_entry cfg row) row) (groups_of cfg w c).
Proof.
  intros Hsh Hwf Hr Hc Hg Hq.
  destruct (pseudo_quantize_matrix_data cfg w r c w_hat scales zeros
              Hsh Hwf Hr Hc Hg Hq) as (Hd & _ & Hshape & _).
  destruct (@pseudo_quantize_tensor_matrix cfg w r c Hsh Hwf Hr Hc Hg)
    as [_ Hlen].
  destruct (@gsize_divides cfg c Hc Hg) as [Hg0 Hdiv].
  rewrite map_map in Hd.
  assert (Hd' : data w_hat
                = concat (map (fun row => map (row_entry cfg row) row)
                              (groups_of cfg w c))).
  { rewrite Hd. f_equal. apply map_ext. intros row.
    apply dequantize_quantize_row. }
  assert (Hrows : Forall (fun row => length row = gsize cfg c)
                    (groups_of cfg w c)).
  { unfold groups_of. rewrite Hlen, Nat.div_mul by lia.
    apply rows_of_Forall_length. exact Hlen. }
  assert (Hrows' : Forall (fun row => length row = gsize cfg c)
                     (map (fun row => map (row_entry cfg row) row)
                          (groups_of cfg w c))).
  { apply Forall_forall. intros l Hl. apply in_map_iff in Hl.
    destruct Hl as [row [<- Hin]]. rewrite length_map.
    rewrite Forall_forall in Hrows. auto. }
  assert (Hn : length (groups_of cfg w c) = (r * (c / gsize cfg c))%nat).
  { unfold groups_of. rewrite rows_of_length, Hlen, Nat.div_mul by lia.
    reflexivity. }
  assert (Hlen' : length (data w_hat)
                  = (r * (c / gsize cfg c) * gsize cfg c)%nat).
  { rewrite Hd', (length_concat_uniform _ _ Hrows'), length_map, Hn.
    reflexivity. }
  split; [exact Hshape |]. split.
  - unfold wf_tensor. rewrite Hshape, Hlen'. cbn [numel fold_right].
    replace (r * (c * 1))%nat
      with (r * (c / gsize cfg c * gsize cfg c))%nat
      by (rewrite <- Hdiv; lia).
    lia.
  - unfold groups_of at 1. rewrite Hlen', Nat.div_mul by lia.
    rewrite Hd', <- Hn.
    rewrite <- (length_map (fun row => map (row_entry cfg row) row)
                  (groups_of cfg w c)).
    apply rows_of_of_concat. exact Hrows'.
Qed.







(** ** When [pseudo_quantize_tensor] returns *)

Lemma infer_dim_zero n : infer_dim n 0 = Raise RuntimeError.
Proof. reflexivity. Qed.

(** The outcome on a matrix over the rationals, where the three
    assertions on NaN cannot fail. *)
Lemma quantize_matrix_outcome cfg w r c :
  shape w = [r; c] ->
  ((exists res, pseudo_quantize_tensor cfg w = Ok res) <->
   (0 < r)%nat /\
   ((0 < group_size cfg)%Z /\ (Z.of_nat c mod group_size cfg = 0)%Z \/
    (group_size cfg <= 0)%Z /\ (0 < c)%nat)) /\
  ((0 < group_size cfg)%Z -> (Z.of_nat c mod group_size cfg <> 0)%Z ->
   pseudo_quantize_tensor cfg w = Raise AssertionError).
Proof.
  intros Hsh. unfold pseudo_quantize_tensor, quantize_groups.
  rewrite Hsh. unfold last_dim. cbn [rev app bind].
  destruct (Z.ltb_spec 0 (group_size cfg)) as [Hpos | Hneg].
  - destruct (Z.eqb_spec (Z.of_nat c mod group_size cfg) 0) as [Hdiv | Hndiv];
      cbn [assert bind].
    + unfold view_rows. destruct (Z.ltb_spec (group_size cfg) 0); [lia |].
      rewrite Hsh. cbn [numel fold_right].
      set (g := Z.to_nat (group_size cfg)).
      assert (Eg : group_size cfg = Z.of_nat g) by (unfold g; lia).
      assert (Hg0 : (0 < g)%nat) by lia.
      pose proof Hdiv as HdivZ.
      rewrite Eg, <- Nat2Z.inj_mod in Hdiv.
      assert (Hc : c = (c / g * g)%nat)
        by (pose proof (Nat.div_mod_eq c g); lia).
      set (k := (c / g)%nat) in *.
      replace (r * (c * 1))%nat with (r * k * g)%nat by (rewrite Hc; lia).
      rewrite infer_dim_mul by lia.
      cbn [bind shape length Nat.eqb assert data first_dim].
      destruct (Nat.eqb_spec g 0); [lia |].
      destruct r as [| r'].
      * cbn [Nat.mul]. rewrite infer_dim_zero. cbn [bind].
        split; [| intros _ Hn; contradiction].
        split; [intros [res Hres]; discriminate | intros [Hr _]; lia].
      * rewrite (Nat.mul_comm (S r') k), infer_dim_mul by lia. cbn [bind].
        split; [| intros _ Hn; contradiction].
        split; [intros _ | intros _; eexists; reflexivity].
        split; [lia |]. left. split; [lia | exact HdivZ].
    + split; [| intros _ _; reflexivity].
      split; [intros [res Hres]; discriminate |].
      intros [_ [[_ Hd] | [Hn _]]]; [contradiction | lia].
  - cbn [bind]. rewrite Hsh. cbn [length Nat.eqb assert bind first_dim].
    split; [| intros Hp; lia].
    destruct (Nat.eqb_spec c 0) as [-> | Hc].
    + split; [intros [res Hres]; discriminate |].
      intros [_ [[Hp _] | [_ Hc]]]; lia.
    + destruct r as [| r'].
      * rewrite infer_dim_zero. cbn [bind].
        split; [intros [res Hres]; discriminate | intros [Hr _]; lia].
      * replace (infer_dim (S r') (S r')) with (infer_dim (1 * S r') (S r'))
          by (f_equal; lia).
        rewrite infer_dim_mul by lia. cbn [bind].
        split; [intros _ | intros _; eexists; reflexivity].
        split; [lia |]. right. split; lia.
Qed.

(** X5.  On a matrix [pseudo_quantize_tensor] returns only if the matrix has a
    row and its rows split into groups: a positive [group_size] divides
    the row length, or [group_size] is not positive and the rows are not
    empty.  A positive [group_size] that does not divide the row length
    fails the first assertion. *)
Theorem pseudo_quantize_tensor_returns_only_if cfg w r c :
  shape w = [r; c] ->
  ((exists res, pseudo_quantize_tensor cfg w = Ok res) ->
   (0 < r)%nat /\
   ((0 < group_size cfg)%Z /\ (Z.of_nat c mod group_size cfg = 0)%Z \/
    (group_size cfg <= 0)%Z /\ (0 < c)%nat)) /\
  ((0 < group_size cfg)%Z -> (Z.of_nat c mod group_size cfg <> 0)%Z ->
   pseudo_quantize_tensor cfg w = Raise AssertionError).
Proof.
  intros Hsh.
  destruct (quantize_matrix_outcome cfg w r c Hsh) as [Hiff Hassert].
  split; [apply Hiff | exact Hassert].
Qed.

Definition w_three_columns : tensor := mkTensor [1; 3]%nat [1; 2; 3].

Lemma pseudo_quantize_tensor_returns_only_if_witness :
  shape w_three_columns = [1; 3]%nat /\
  pseudo_quantize_tensor cfg_zp4_g2 w_three_columns = Raise AssertionError.
Proof.
  split; [reflexivity |].
  apply (proj2 (pseudo_quantize_tensor_returns_only_if cfg_zp4_g2
                  w_three_columns 1 3 eq_refl)).
  - reflexivity.
  - cbn. lia.
Defined.

(** ** What the three results look like *)

Lemma quantize_row_scale_floor cfg row :
  (2 <= w_bit cfg)%Z ->
  eps5 / inject_Z (max_int cfg) <= qscale (quantize_row cfg row).
Proof.
  intros Hb. pose proof (max_int_Q_pos cfg Hb) as HM.
  unfold quantize_row.
  destruct (zero_point cfg); cbn [qscale];
    (apply Qdiv_le_mono; [exact HM | apply Q.le_max_r]).
Qed.

(** X6.  On a matrix the quantized weight has the shape of the weight, the
    scales (and in zero-point mode the zeros) have one entry per group of
    every row, every scale is at least [1e-5 / max_int], hence positive,
    and every zero is an integer between 0 and [max_int].  Without
    zero-point mode no zeros are returned. *)
Theorem pseudo_quantize_tensor_layout cfg w r c w_hat scales zeros :
  (2 <= w_bit cfg)%Z ->
  shape w = [r; c] -> wf_tensor w ->
  (0 < r)%nat -> (0 < c)%nat -> groupable cfg c ->
  pseudo_quantize_tensor cfg w = Ok (w_hat, scales, zeros) ->
  (shape w_hat = [r; c] /\ wf_tensor w_hat) /\
  (shape scales = [r; (c / gsize cfg c)%nat] /\ wf_tensor scales /\
   Forall (fun s => 0 < s /\ eps5 / inject_Z (max_int cfg) <= s)
          (data scales)) /\
  match zeros with
  | Some z =>
      zero_point cfg = true /\
      shape z = [r; (c / gsize cfg c)%nat] /\ wf_tensor z /\
      Forall (fun v => exists k, v = inject_Z k /\ (0 <= k <= max_int cfg)%Z)
             (data z)
  | None => zero_point cfg = false
  end.
Proof.
  intros Hb Hsh Hwf Hr Hc Hg Hq.
  destruct (quantized_groups cfg w r c w_hat scales zeros
              Hsh Hwf Hr Hc Hg Hq) as (Hsh2 & Hwf2 & _).
  destruct (@pseudo_quantize_tensor_matrix cfg w r c Hsh Hwf Hr Hc Hg)
    as [Hq' Hlen].
  destruct (@gsize_divides cfg c Hc Hg) as [Hg0 _].
  cbn zeta in Hq'. rewrite Hq' in Hq. injection Hq as _ <- <-.
  assert (Hn : length (groups_of cfg w c) = (r * (c / gsize cfg c))%nat).
  { unfold groups_of. rewrite rows_of_length, Hlen, Nat.div_mul by lia.
    reflexivity. }
  split; [split; assumption |]. split.
  - split; [reflexivity |]. split.
    + unfold wf_tensor. cbn [data shape numel fold_right].
      rewrite !length_map, Hn. lia.
    + cbn [data]. rewrite map_map. apply Forall_forall. intros s Hs.
      apply in_map_iff in Hs. destruct Hs as [row [<- _]].
      split; [apply quantize_row_scale_pos | apply quantize_row_scale_floor];
        exact Hb.
  - destruct (zero_point cfg) eqn:Ezp; [| reflexivity].
    split; [reflexivity |]. split; [reflexivity |]. split.
    + unfold wf_tensor. cbn [data shape numel fold_right].
      rewrite !length_map, Hn. lia.
    + cbn [data]. rewrite map_map. apply Forall_forall. intros v Hv.
      apply in_map_iff in Hv. destruct Hv as [row [<- _]].
      unfold zero_value.
      destruct (qzero (quantize_row cfg row)) as [z |] eqn:Ez.
      * destruct (quantize_row_zero_range cfg row z Hb Ez) as [_ Hz].
        exists z. split; [reflexivity |].
        unfold min_int in Hz. rewrite Ezp in Hz. exact Hz.
      * rewrite quantize_row_qzero, Ezp in Ez. discriminate.
Qed.

Lemma pseudo_quantize_tensor_layout_witness :
  exists w_hat scales z,
    pseudo_quantize_tensor cfg_zp4_g2 w_with_zero
      = Ok (w_hat, scales, Some z) /\
    shape w_hat = [1; 4]%nat /\ shape scales = [1; 2]%nat /\
    shape z = [1; 2]%nat /\
    Forall (fun s => 0 < s /\ eps5 / inject_Z 15 <= s) (data scales).
Proof.
  destruct (pseudo_quantize_tensor cfg_zp4_g2 w_with_zero)
    as [[[w_hat scales] [z |]] | e] eqn:E;
    [| vm_compute in E; discriminate | vm_compute in E; discriminate].
  exists w_hat, scales, z. split; [reflexivity |].
  assert (Hb : (2 <= w_bit cfg_zp4_g2)%Z) by (cbn; lia).
  assert (Hg : groupable cfg_zp4_g2 4) by (right; reflexivity).
  destruct (pseudo_quantize_tensor_layout cfg_zp4_g2 w_with_zero 1 4
              w_hat scales (Some z) Hb eq_refl eq_refl (Nat.lt_0_succ 0)
              (Nat.lt_0_succ 3) Hg E)
    as ((H1 & _) & (H2 & _ & H3) & (_ & H4 & _)).
  repeat split; assumption.
Defined.

(* ================================================================== *)
(** * Further properties of [pseudo_dequantize_tensor] *)

Lemma nth_concat_repeat {A} (row : list A) k j d :
  (j < length row * k)%nat ->
  nth j (concat (repeat row k)) d = nth (j mod length row) row d.
Proof.
  intros Hj.
  assert (Hg : (0 < length row)%nat) by (destruct (length row); lia).
  rewrite (@nth_concat_uniform _ (repeat row k) (length row) j d Hg).
  - rewrite (nth_indep _ [] row).
    + rewrite nth_repeat. reflexivity.
    + rewrite repeat_length. apply Nat.Div0.div_lt_upper_bound. lia.
  - apply Forall_forall. intros l Hl. apply repeat_spec in Hl.
    subst. reflexivity.
Qed.

(** The entry in row [i] and column [j] of a matrix of [k] columns tiled
    [n] times along its rows. *)
Lemma repeat_cols_nth t r k n i j :
  shape t = [r; k] -> wf_tensor t -> (0 < k)%nat ->
  (i < r)%nat -> (j < k * n)%nat ->
  exists t',
    repeat_cols t n = Ok t' /\ shape t' = [r; (k * n)%nat] /\
    length (data t') = (r * (k * n))%nat /\
    nth (i * (k * n) + j) (data t') 0 = nth (i * k + j mod k) (data t) 0.
Proof.
  intros Hsh Hwf Hk Hi Hj. unfold repeat_cols. rewrite Hsh.
  eexists. split; [reflexivity |]. cbn [shape data].
  assert (Hlen : length (data t) = (r * k)%nat).
  { unfold wf_tensor in Hwf. rewrite Hwf, Hsh. cbn. lia. }
  set (rows := rows_of r k (data t)).
  assert (Hrows : Forall (fun row => length row = k) rows)
    by (apply (@rows_of_Forall_length _ r k); exact Hlen).
  assert (Hn : length rows = r) by apply rows_of_length.
  assert (Htiled : Forall (fun l => length l = (k * n)%nat)
                     (map (fun row => concat (repeat row n)) rows)).
  { apply Forall_forall. intros l Hl. apply in_map_iff in Hl.
    destruct Hl as [row [<- Hrow]].
    rewrite Forall_forall in Hrows.
    rewrite (length_concat_uniform _ k).
    - rewrite repeat_length. lia.
    - apply Forall_forall. intros l' Hl'. apply repeat_spec in Hl'.
      rewrite Hl'. auto. }
  split; [reflexivity |]. split.
  - rewrite (length_concat_uniform _ _ Htiled), length_map, Hn.
    reflexivity.
  - assert (Hkn : (0 < k * n)%nat) by lia.
    rewrite (@nth_concat_uniform _ _ (k * n) _ 0 Hkn Htiled).
    rewrite Nat.div_add_l, Nat.div_small, Nat.add_0_r by lia.
    rewrite (Nat.add_comm (i * (k * n))), Nat.Div0.mod_add.
    rewrite Nat.mod_small by lia.
    rewrite (@nth_map_default _ _ _ rows i [] []) by lia.
    assert (Hrow : length (nth i rows []) = k).
    { rewrite Forall_forall in Hrows. apply Hrows. apply nth_In. lia. }
    rewrite nth_concat_repeat by (rewrite Hrow; exact Hj).
    rewrite Hrow.
    assert (Hdata : data t = concat rows)
      by (symmetry; apply rows_of_concat; exact Hlen).
    rewrite Hdata at 1.
    rewrite (@nth_concat_uniform _ rows k _ 0 Hk Hrows).
    rewrite Nat.div_add_l, Nat.div_small, Nat.add_0_r
      by (try apply Nat.mod_upper_bound; lia).
    rewrite (Nat.add_comm (i * k)), Nat.Div0.mod_add.
    rewrite Nat.Div0.mod_mod. reflexivity.
Qed.

Lemma repeat_cols_matrix t r k n :
  shape t = [r; k] ->
  exists t', repeat_cols t n = Ok t' /\ shape t' = [r; (k * n)%nat].
Proof.
  intros Hsh. unfold repeat_cols. rewrite Hsh.
  eexists. split; reflexivity.
Qed.

(** The value [pseudo_dequantize_tensor] gives the code in row [i] and
    column [j], for [k] scales per row: the scale (and zero) it applies
    is the one in column [j mod k] of row [i]. *)
Definition dequantized_entry (cfg : config) (w scales : tensor)
    (zeros : option tensor) (c k i j : nat) : Q :=
  let x := nth (i * c + j) (data w) 0 in
  let s := nth (i * k + j mod k) (data scales) 0 in
  match zero_point cfg, zeros with
  | true, Some z => (x - nth (i * k + j mod k) (data z) 0) * s
  | _, _ => x * s
  end.

(** X7.  For a matrix of codes with [c] columns and [k] scales per row, [k]
    dividing [c], [pseudo_dequantize_tensor] returns a matrix of the same
    shape, and the scale and the zero it applies in column [j] are those
    in column [j mod k] of the same row: the scales of a row are tiled
    along the row, not repeated group by group. *)
Theorem pseudo_dequantize_applies_scale_of_column_mod
    cfg w scales zeros r c k :
  shape w = [r; c] -> wf_tensor w ->
  shape scales = [r; k] -> wf_tensor scales ->
  (0 < k)%nat -> (c mod k = 0)%nat ->
  (zero_point cfg = true ->
   exists z, zeros = Some z /\ shape z = [r; k] /\ wf_tensor z) ->
  exists out,
    pseudo_dequantize_tensor cfg w scales zeros = Ok out /\
    shape out = [r; c] /\ wf_tensor out /\
    forall i j, (i < r)%nat -> (j < c)%nat ->
      nth (i * c + j) (data out) 0
        = dequantized_entry cfg w scales zeros c k i j.
Proof.
  intros Hsh Hwf Hss Hswf Hk Hmod Hz.
  set (n := (c / k)%nat).
  assert (Hc : c = (k * n)%nat).
  { pose proof (Nat.div_mod_eq c k). unfold n. lia. }
  assert (Hlen : length (data w) = (r * c)%nat).
  { unfold wf_tensor in Hwf. rewrite Hwf, Hsh. cbn. lia. }
  assert (Hnum : (numel [r; (k * n)%nat] =? numel [r; c])%nat = true).
  { apply Nat.eqb_eq. rewrite <- Hc. reflexivity. }
  destruct (repeat_cols_matrix scales r k n Hss) as (s1 & Hs1 & Hs1sh).
  assert (Hsn : forall i j, (i < r)%nat -> (j < c)%nat ->
            length (data s1) = (r * c)%nat /\
            nth (i * c + j) (data s1) 0
              = nth (i * k + j mod k) (data scales) 0).
  { intros i j Hi Hj.
    destruct (repeat_cols_nth scales r k n i j Hss Hswf Hk Hi)
      as (t' & Ht' & _ & Hl & Hv); [lia |].
    rewrite Hs1 in Ht'. injection Ht' as <-.
    rewrite <- Hc in Hl, Hv. split; assumption. }
  unfold pseudo_dequantize_tensor, last_dim.
  rewrite Hsh, Hss. cbn [rev app bind].
  destruct (Nat.eqb_spec k 0) as [E | _]; [lia |]. cbn [bind].
  fold n. rewrite Hs1. cbn [bind]. unfold reshape.
  rewrite Hs1sh, Hnum. cbn [bind data shape].
  destruct (zero_point cfg) eqn:Ezp.
  - destruct (Hz eq_refl) as (z & -> & Hzs & Hzwf).
    destruct (repeat_cols_matrix z r k n Hzs) as (z1 & Hz1 & Hz1sh).
    rewrite Hz1. cbn [bind]. rewrite Hz1sh, Hnum. cbn [bind data shape].
    eexists. split; [reflexivity |]. cbn [shape data].
    assert (Hzn : forall i j, (i < r)%nat -> (j < c)%nat ->
              length (data z1) = (r * c)%nat /\
              nth (i * c + j) (data z1) 0
                = nth (i * k + j mod k) (data z) 0).
    { intros i j Hi Hj.
      destruct (repeat_cols_nth z r k n i j Hzs Hzwf Hk Hi)
        as (t' & Ht' & _ & Hl & Hv); [lia |].
      rewrite Hz1 in Ht'. injection Ht' as <-.
      rewrite <- Hc in Hl, Hv. split; assumption. }
    split; [reflexivity |].
    assert (Hall : forall i j, (i < r)%nat -> (j < c)%nat ->
              length (zip_with Qmult (zip_with Qminus (data w) (data z1))
                                (data s1)) = (r * c)%nat /\
              nth (i * c + j)
                  (zip_with Qmult (zip_with Qminus (data w) (data z1))
                            (data s1)) 0
                = dequantized_entry cfg w scales (Some z) c k i j).
    { intros i j Hi Hj.
      destruct (Hsn i j Hi Hj) as [Hsl Hsv].
      destruct (Hzn i j Hi Hj) as [Hzl Hzv].
      assert (Hp : (i * c + j < r * c)%nat) by nia.
      split.
      - rewrite !length_zip_with_min. lia.
      - rewrite (nth_zip_with Qmult _ _ _ 0 0 0)
          by (rewrite ?length_zip_with_min; lia).
        rewrite (nth_zip_with Qminus _ _ _ 0 0 0) by lia.
        unfold dequantized_entry. rewrite Ezp, Hsv, Hzv. reflexivity. }
    split; [| intros i j Hi Hj; apply (Hall i j Hi Hj)].
    unfold wf_tensor. cbn [shape data numel fold_right].
    destruct r as [| r']; [| destruct c as [| c']].
    + rewrite !length_zip_with_min, Hlen. reflexivity.
    + rewrite !length_zip_with_min, Hlen. lia.
    + destruct (Hall 0%nat 0%nat) as [Hl _]; lia.
  - eexists. split; [reflexivity |]. cbn [shape data].
    split; [reflexivity |].
    assert (Hall : forall i j, (i < r)%nat -> (j < c)%nat ->
              length (zip_with Qmult (data w) (data s1)) = (r * c)%nat /\
              nth (i * c + j) (zip_with Qmult (data w) (data s1)) 0
                = dequantized_entry cfg w scales zeros c k i j).
    { intros i j Hi Hj.
      destruct (Hsn i j Hi Hj) as [Hsl Hsv].
      assert (Hp : (i * c + j < r * c)%nat) by nia.
      split.
      - rewrite !length_zip_with_min. lia.
      - rewrite (nth_zip_with Qmult _ _ _ 0 0 0) by lia.
        unfold dequantized_entry. rewrite Ezp, Hsv. reflexivity. }
    split; [| intros i j Hi Hj; apply (Hall i j Hi Hj)].
    unfold wf_tensor. cbn [shape data numel fold_right].
    destruct r as [| r']; [| destruct c as [| c']].
    + rewrite !length_zip_with_min, Hlen. reflexivity.
    + rewrite !length_zip_with_min, Hlen. lia.
    + destruct (Hall 0%nat 0%nat) as [Hl _]; lia.
Qed.

Lemma pseudo_dequantize_applies_scale_of_column_mod_witness :
  exists out,
    pseudo_dequantize_tensor cfg_zp4_g2
      (mkTensor [1; 4]%nat (map inject_Z [15; 15; 0; 15]%Z))
      (mkTensor [1; 2]%nat [1 # 15; 97 # 15])
      (Some (mkTensor [1; 2]%nat [0; 0])) = Ok out /\
    nth 1 (data out) 0 = (15 - 0) * (97 # 15).
Proof.
  assert (Hz : zero_point cfg_zp4_g2 = true ->
               exists z, Some (mkTensor [1; 2]%nat [0; 0]) = Some z /\
                         shape z = [1; 2]%nat /\ wf_tensor z).
  { intros _. eexists. split; [reflexivity |]. split; reflexivity. }
  destruct (pseudo_dequantize_applies_scale_of_column_mod cfg_zp4_g2
              (mkTensor [1; 4]%nat (map inject_Z [15; 15; 0; 15]%Z))
              (mkTensor [1; 2]%nat [1 # 15; 97 # 15])
              (Some (mkTensor [1; 2]%nat [0; 0])) 1 4 2
              eq_refl eq_refl eq_refl eq_refl (Nat.lt_0_succ 1) eq_refl Hz)
    as (out & Hrun & _ & _ & Hentry).
  exists out. split; [exact Hrun |].
  apply (Hentry 0%nat 1%nat); lia.
Defined.

(* ================================================================== *)
(** * Further properties of [_compute_loss] *)

(** With a positive chunk size the loss of two vectors of equal length is
    returned and is the unchunked one. *)
Lemma compute_loss_reference cfg element_size a b :
  length a = length b ->
  (0 < loss_chunk_size cfg element_size (length a))%Z ->
  exists loss,
    _compute_loss cfg element_size a b = Ok loss /\
    feq loss (mse_reference a b).
Proof.
  intros Hl Hk. unfold _compute_loss.
  set (cs := loss_chunk_size cfg element_size (length a)) in *.
  destruct (Z.leb_spec cs 0) as [Hneg | _]; [lia |].
  assert (Hn : (0 < length a)%nat).
  { unfold cs, loss_chunk_size in Hk. lia. }
  set (k := Z.to_nat cs). assert (Hk0 : (0 < k)%nat) by (unfold k; lia).
  unfold torch_split.
  destruct a as [| x a']; [cbn in Hn; lia |].
  destruct b as [| y b']; [discriminate |].
  rewrite <- Hl.
  destruct (@loss_loop_rows ((length (x :: a') + k - 1) / k) k
              (x :: a') (y :: b') (Finite 0) Hl
              (ceil_div_covers (length (x :: a')) Hk0))
    as [r [Hr Hfeq]].
  rewrite Hr. cbn [bind].
  destruct (Nat.eqb_spec (length (x :: a')) 0); [cbn in *; lia |].
  eexists; split; [reflexivity |].
  unfold mse_reference. apply fdiv_nat_feq.
  eapply feq_trans; [exact Hfeq |].
  destruct (fsum _); simpl; auto. ring.
Qed.

Definition all_finite (l : list fval) : Prop :=
  Forall (fun v => v <> NonFinite) l.

Lemma fold_left_fadd_non_finite l : fold_left fadd l NonFinite = NonFinite.
Proof. induction l as [| v l IH]; cbn; auto. Qed.

Lemma square_zero (d : Q) : d * d == 0 -> d == 0.
Proof. intros H. destruct (Qmult_integral _ _ H); auto. Qed.

Lemma square_nonneg (d : Q) : 0 <= d * d.
Proof.
  destruct (Qlt_le_dec d 0) as [Hn | Hp].
  - assert (E : d * d == (- d) * (- d)) by ring.
    rewrite E. apply Qmult_le_0_compat; lra.
  - apply Qmult_le_0_compat; lra.
Qed.

(** The sum of the squared differences over the rationals, from a finite
    accumulator. *)
Lemma sum_of_squares a : forall b x,
  length a = length b ->
  match fold_left fadd (map fsq (zip_with fsub a b)) (Finite x) with
  | Finite q =>
      all_finite a /\ all_finite b /\ x <= q /\
      (q == x <-> Forall2 feq a b)
  | NonFinite => ~ (all_finite a /\ all_finite b)
  end.
Proof.
  induction a as [| u a IH]; intros [| v b] x Hl; try discriminate.
  - cbn. repeat split; try constructor; try apply Qle_refl; reflexivity.
  - injection Hl as Hl.
    change (zip_with fsub (u :: a) (v :: b))
      with (fsub u v :: zip_with fsub a b).
    cbn [map fold_left].
    destruct u as [qu |], v as [qv |]; cbn [fsub fsq fadd];
      try (rewrite fold_left_fadd_non_finite;
           intros [Ha Hb]; inversion Ha; inversion Hb; congruence).
    specialize (IH b (x + (qu - qv) * (qu - qv)) Hl).
    pose proof (square_nonneg (qu - qv)) as Hsq.
    destruct (fold_left _ _ _) as [q |].
    + destruct IH as (Ha & Hb & Hle & Hiff).
      split; [constructor; [discriminate | exact Ha] |].
      split; [constructor; [discriminate | exact Hb] |].
      split; [lra |]. split.
      * intros Hq.
        assert (Hd : (qu - qv) * (qu - qv) == 0) by lra.
        constructor.
        -- cbn. apply square_zero in Hd. lra.
        -- apply Hiff. lra.
      * intros H2. inversion H2 as [| ? ? ? ? Huv Hrest]; subst.
        cbn in Huv. apply Hiff in Hrest.
        assert (Hd : (qu - qv) * (qu - qv) == 0)
          by (rewrite Huv; ring).
        lra.
    + intros [Ha Hb]. apply IH.
      inversion Ha; inversion Hb; subst. split; assumption.
Qed.

(** X8.  What the loss measures.  A returned loss that is finite comes from
    outputs whose entries are all finite, and it is not negative; the
    loss of two finite outputs that are equal entry by entry is zero. *)
Theorem compute_loss_measures_difference cfg element_size a b loss :
  length a = length b ->
  (0 < loss_chunk_size cfg element_size (length a))%Z ->
  _compute_loss cfg element_size a b = Ok loss ->
  (forall q, loss = Finite q -> all_finite a /\ all_finite b /\ 0 <= q) /\
  (all_finite a -> Forall2 feq a b -> feq loss (Finite 0)).
Proof.
  intros Hl Hk Hrun.
  destruct (compute_loss_reference cfg element_size a b Hl Hk)
    as [loss' [Hrun' Hfeq]].
  rewrite Hrun in Hrun'. injection Hrun' as <-.
  assert (Hn : (0 < length a)%nat).
  { unfold loss_chunk_size in Hk. lia. }
  assert (HnQ : 0 < inject_Z (Z.of_nat (length a))).
  { change 0 with (inject_Z 0). rewrite <- Zlt_Qlt. lia. }
  unfold mse_reference, fsum in Hfeq.
  pose proof (sum_of_squares a b 0 Hl) as Hsum.
  destruct (fold_left _ _ _) as [s |]; destruct loss as [q |];
    cbn [fdiv_nat feq] in Hfeq; try contradiction.
  - destruct Hsum as (Ha & Hb & Hle & Hiff). split.
    + intros q' [= <-]. split; [exact Ha |]. split; [exact Hb |].
      rewrite Hfeq. apply Qle_shift_div_l; [exact HnQ | lra].
    + intros _ Heq. apply Hiff in Heq. cbn [feq].
      rewrite Hfeq, Heq. field. lra.
  - split; [intros q [=] |].
    intros Ha Heq. exfalso. apply Hsum. split; [exact Ha |].
    clear - Ha Heq. induction Heq as [| x y a b Hxy _ IH]; constructor.
    + inversion Ha; subst. destruct x, y; cbn in Hxy; congruence.
    + apply IH. inversion Ha; subst. assumption.
Qed.

Lemma compute_loss_measures_difference_witness :
  exists q,
    _compute_loss cfg_chunk4 2 out_a out_b = Ok (Finite q) /\ 0 <= q.
Proof.
  destruct (_compute_loss cfg_chunk4 2 out_a out_b) as [[q |] | e] eqn:E;
    [| vm_compute in E; discriminate | vm_compute in E; discriminate].
  exists q. split; [reflexivity |].
  assert (Hl : length out_a = length out_b) by reflexivity.
  assert (Hk : (0 < loss_chunk_size cfg_chunk4 2 (length out_a))%Z)
    by (vm_compute; reflexivity).
  destruct (proj1 (compute_loss_measures_difference cfg_chunk4 2 out_a out_b
                     (Finite q) Hl Hk E) q eq_refl) as (_ & _ & Hq).
  exact Hq.
Defined.

(** X9.  For two outputs of equal length and entries of positive byte size, a
    loss is returned exactly when there is an entry and the memory of a
    chunk holds at least one pair of entries. *)
Theorem compute_loss_returns_iff cfg element_size a b :
  length a = length b -> (0 < element_size)%Z ->
  ((exists loss, _compute_loss cfg element_size a b = Ok loss) <->
   a <> [] /\ (2 * element_size <= max_chunk_memory cfg)%Z).
Proof.
  intros Hl Hes.
  assert (Hchunk : (0 < loss_chunk_size cfg element_size (length a))%Z <->
                   a <> [] /\ (2 * element_size <= max_chunk_memory cfg)%Z).
  { unfold loss_chunk_size.
    assert (Hdiv : (0 < max_chunk_memory cfg / (element_size * 2))%Z <->
                   (2 * element_size <= max_chunk_memory cfg)%Z).
    { pose proof (Z.div_mod (max_chunk_memory cfg) (element_size * 2)) as E.
      pose proof (Z.mod_pos_bound (max_chunk_memory cfg) (element_size * 2))
        as Hm.
      split; intros H; nia. }
    split.
    - intros H. split; [intros ->; cbn in H; lia | apply Hdiv; lia].
    - intros [Hne Hm]. apply Hdiv in Hm.
      destruct a; [congruence | cbn [length]; lia]. }
  split.
  - intros [loss Hrun]. apply Hchunk.
    unfold _compute_loss in Hrun.
    destruct (Z.leb_spec (loss_chunk_size cfg element_size (length a)) 0);
      [| lia].
    destruct (_ && _)%bool; discriminate.
  - intros H. apply Hchunk in H.
    destruct (compute_loss_reference cfg element_size a b Hl H)
      as [loss [Hrun _]].
    exists loss. exact Hrun.
Qed.

Definition cfg_chunk_small : config := mkConfig 4 2 true "gemm" true 3.

Lemma compute_loss_returns_iff_witness :
  (exists loss, _compute_loss cfg_chunk4 2 out_a out_b = Ok loss) /\
  ~ (exists loss, _compute_loss cfg_chunk_small 2 out_a out_b = Ok loss).
Proof.
  assert (Hl : length out_a = length out_b) by reflexivity.
  assert (Hes : (0 < 2)%Z) by lia.
  split.
  - apply (proj2 (compute_loss_returns_iff cfg_chunk4 2 out_a out_b Hl Hes)).
    split; [discriminate | cbn; lia].
  - intros H.
    apply (proj1 (compute_loss_returns_iff cfg_chunk_small 2 out_a out_b
                    Hl Hes)) in H.
    destruct H as [_ H]. cbn in H. lia.
Defined.

(* ================================================================== *)
(** * Further properties of [_search_best_scale] *)

(** ** The mean of the normalized weights *)

Lemma Forall_zip_with {A B C} (P : A -> Prop) (P' : B -> Prop)
    (R : C -> Prop) (f : A -> B -> C) a b :
  (forall x y, P x -> P' y -> R (f x y)) ->
  Forall P a -> Forall P' b -> Forall R (zip_with f a b).
Proof.
  intros Hf Ha. revert b.
  induction Ha as [| x a Hx Ha IH]; intros [| y b] Hb;
    unfold zip_with; cbn [combine map]; constructor.
  - inversion Hb; subst. cbn [fst snd]. auto.
  - inversion Hb; subst. apply IH. assumption.
Qed.

Lemma rows_of_Forall_rows {A} (P : A -> Prop) n g (l : list A) :
  Forall P l -> Forall (Forall P) (rows_of n g l).
Proof.
  revert l. induction n as [| n IH]; intros l Hl; cbn [rows_of];
    constructor.
  - rewrite <- (firstn_skipn g l) in Hl. apply Forall_app in Hl. tauto.
  - apply IH. rewrite <- (firstn_skipn g l) in Hl.
    apply Forall_app in Hl. tauto.
Qed.

(** A sum of [k] values of the unit interval. *)
Definition below (k : nat) (s : Q) : Prop :=
  0 <= s /\ s <= inject_Z (Z.of_nat k) /\
  ((0 < k)%nat -> s < inject_Z (Z.of_nat k)).

Lemma below_step k s v :
  below k s -> 0 <= v /\ v < 1 -> below (S k) (s + v).
Proof.
  intros (H0 & Hle & Hlt) [Hv0 Hv1]. unfold below.
  rewrite Nat2Z.inj_succ. unfold Z.succ. rewrite inject_Z_plus.
  change (inject_Z 1) with 1.
  split; [lra |]. split; [lra |]. intros _.
  destruct k as [| k']; [change (inject_Z (Z.of_nat 0)) with 0 in *; lra | assert (Hk : (0 < S k')%nat) by lia; specialize (Hlt Hk); lra].
Qed.

Lemma fold_rows_below rows : forall acc k,
  Forall (Forall (fun v => 0 <= v /\ v < 1)) rows ->
  Forall (below k) acc ->
  Forall (below (k + length rows))
    (fold_left (fun acc row => zip_with Qplus acc row) rows acc).
Proof.
  induction rows as [| row rows IH]; intros acc k Hrows Hacc;
    cbn [fold_left length].
  - rewrite Nat.add_0_r. exact Hacc.
  - inversion Hrows as [| ? ? Hrow Hrest]; subst.
    rewrite <- Nat.add_succ_comm. apply IH; [exact Hrest |].
    apply (Forall_zip_with (below k) (fun v => 0 <= v /\ v < 1));
      auto using below_step.
Qed.

Lemma normalized_magnitude row v :
  In v row ->
  0 <= Qabs v / (amax (map Qabs row) + eps6) /\
  Qabs v / (amax (map Qabs row) + eps6) < 1.
Proof.
  intros Hin. pose proof (Qabs_le_amax row v Hin) as Hle.
  pose proof (Qabs_nonneg v) as H0.
  assert (He : 0 < eps6) by reflexivity.
  split.
  - apply Qle_shift_div_l; lra.
  - apply Qlt_shift_div_r; lra.
Qed.

Lemma fold_rows_length (rows : list (list Q)) c : forall acc,
  length acc = c -> Forall (fun row => length row = c) rows ->
  length (fold_left (fun acc row => zip_with Qplus acc row) rows acc) = c.
Proof.
  induction rows as [| row rows IH]; intros acc Hacc Hrows;
    cbn [fold_left]; auto.
  inversion Hrows; subst. apply IH; auto.
  rewrite length_zip_with_min. lia.
Qed.

(** X10.  The mean of the normalized weights has one entry per input channel,
    each at least 0 and at most 1. *)
Theorem weight_mean_in_unit_interval cfg weights weight r c wm :
  cat_rows weights = Ok weight ->
  shape weight = [r; c] -> wf_tensor weight -> (0 < r)%nat ->
  weight_mean cfg weights = Ok wm ->
  length wm = c /\ Forall (fun v => 0 <= v /\ v <= 1) wm.
Proof.
  intros Hcat Hsh Hwf Hr. unfold weight_mean. rewrite Hcat. cbn [bind].
  unfold view_rows.
  destruct (Z.ltb_spec (group_size cfg) 0); cbn [bind]; [discriminate |].
  destruct (infer_dim _ _) as [n |] eqn:En; cbn [bind]; [| discriminate].
  cbn [shape data]. rewrite Hsh. intros [= <-].
  apply infer_dim_ok in En. destruct En as [Hg Hn].
  set (g := Z.to_nat (group_size cfg)) in *.
  set (w_scale := concat _).
  assert (Hlen : length (data weight) = (r * c)%nat).
  { unfold wf_tensor in Hwf. rewrite Hwf, Hsh. cbn. lia. }
  assert (Hng : length (data weight) = (n * g)%nat).
  { unfold wf_tensor in Hwf. rewrite Hwf. exact Hn. }
  assert (Hunit : Forall (fun v => 0 <= v /\ v < 1) w_scale).
  { unfold w_scale. apply Forall_concat. apply Forall_forall.
    intros l Hl. apply in_map_iff in Hl. destruct Hl as [row [<- _]].
    apply Forall_forall. intros v Hv. apply in_map_iff in Hv.
    destruct Hv as [u [<- Hu]]. apply normalized_magnitude. exact Hu. }
  assert (Hws : length w_scale = (r * c)%nat).
  { unfold w_scale.
    rewrite (length_concat_uniform _ g).
    - rewrite length_map, rows_of_length. lia.
    - apply Forall_forall. intros l Hl. apply in_map_iff in Hl.
      destruct Hl as [row [<- Hrow]]. rewrite length_map.
      eapply rows_of_row_length; eauto. }
  split.
  - rewrite length_map. unfold col_sums.
    apply fold_rows_length; [apply repeat_length |].
    apply rows_of_Forall_length. exact Hws.
  - pose proof (fold_rows_below (rows_of r c w_scale) (repeat 0 c) 0
                  (rows_of_Forall_rows _ r c w_scale Hunit)) as Hsum.
    rewrite rows_of_length in Hsum. cbn [Nat.add] in Hsum.
    assert (H0 : Forall (below 0) (repeat 0 c)).
    { apply Forall_forall. intros v Hv. apply repeat_spec in Hv. subst.
      unfold below. change (inject_Z (Z.of_nat 0)) with 0.
      split; [lra |]. split; [lra |]. intros Hk. inversion Hk. }
    specialize (Hsum H0). unfold col_sums.
    assert (HrQ : 0 < inject_Z (Z.of_nat r)).
    { change 0 with (inject_Z 0). rewrite <- Zlt_Qlt. lia. }
    apply Forall_forall. intros v Hv. apply in_map_iff in Hv.
    destruct Hv as [s [<- Hs]].
    rewrite Forall_forall in Hsum. destruct (Hsum s Hs) as (Hs0 & _ & Hlt).
    specialize (Hlt Hr). split.
    + apply Qle_shift_div_l; lra.
    + apply Qle_shift_div_r; lra.
Qed.

Lemma weight_mean_in_unit_interval_witness :
  exists wm,
    weight_mean cfg_zp4_g2 [w_with_zero] = Ok wm /\
    length wm = 4%nat /\ Forall (fun v => 0 <= v /\ v <= 1) wm.
Proof.
  destruct (weight_mean cfg_zp4_g2 [w_with_zero]) as [wm | e] eqn:E;
    [| vm_compute in E; discriminate].
  exists wm. split; [reflexivity |].
  exact (weight_mean_in_unit_interval cfg_zp4_g2 [w_with_zero] w_with_zero
           1 4 wm eq_refl eq_refl eq_refl (Nat.lt_0_succ 0) E).
Defined.

(** ** The mean magnitude of the input features *)

Lemma Qsum_acc l : forall x, fold_left Qplus l x == x + Qsum l.
Proof.
  unfold Qsum. induction l as [| y l IH]; intros x; cbn [fold_left].
  - ring.
  - rewrite (IH (x + y)), (IH (0 + y)). ring.
Qed.

Lemma Qsum_cons x l : Qsum (x :: l) == x + Qsum l.
Proof. unfold Qsum at 1. cbn [fold_left]. rewrite Qsum_acc. ring. Qed.

Lemma Qsum_app l1 l2 : Qsum (l1 ++ l2) == Qsum l1 + Qsum l2.
Proof.
  induction l1 as [| x l1 IH]; cbn [app].
  - unfold Qsum at 2. cbn. ring.
  - rewrite !Qsum_cons, IH. ring.
Qed.

(** The channel [j] of the sum of rows of [c] entries. *)
Lemma fold_rows_nth (rows : list (list Q)) c j : forall acc,
  length acc = c -> Forall (fun row => length row = c) rows ->
  (j < c)%nat ->
  nth j (fold_left (fun acc row => zip_with Qplus acc row) rows acc) 0
    == nth j acc 0 + Qsum (map (fun row => nth j row 0) rows).
Proof.
  induction rows as [| row rows IH]; intros acc Hacc Hrows Hj;
    cbn [fold_left map].
  - unfold Qsum. cbn. ring.
  - inversion Hrows as [| ? ? Hrow Hrest]; subst.
    rewrite IH; auto.
    + rewrite (nth_zip_with Qplus acc row j 0 0 0) by lia.
      rewrite Qsum_cons. ring.
    + rewrite length_zip_with_min. lia.
Qed.

Lemma col_sums_length c rows :
  Forall (fun row => length row = c) rows -> length (col_sums c rows) = c.
Proof.
  intros H. unfold col_sums. apply fold_rows_length; auto.
  apply repeat_length.
Qed.

Lemma col_sums_nth c rows j :
  Forall (fun row => length row = c) rows -> (j < c)%nat ->
  nth j (col_sums c rows) 0 == Qsum (map (fun row => nth j row 0) rows).
Proof.
  intros Hrows Hj. unfold col_sums.
  rewrite (fold_rows_nth rows c j) by (auto using repeat_length).
  rewrite nth_repeat. ring.
Qed.

(** The channel [j] of the sum accumulated chunk by chunk. *)
Lemma fold_chunks_nth (chunks : list (list (list Q))) c j : forall acc,
  length acc = c ->
  Forall (Forall (fun row => length row = c)) chunks ->
  (j < c)%nat ->
  nth j (fold_left (fun acc chunk => zip_with Qplus acc (col_sums c chunk))
                   chunks acc) 0
    == nth j acc 0 + Qsum (map (fun row => nth j row 0) (concat chunks)).
Proof.
  induction chunks as [| chunk chunks IH]; intros acc Hacc Hch Hj;
    cbn [fold_left concat].
  - unfold Qsum. cbn. ring.
  - inversion Hch as [| ? ? Hchunk Hrest]; subst.
    pose proof (col_sums_length (length acc) chunk Hchunk) as Hcl.
    rewrite IH; auto.
    + rewrite (nth_zip_with Qplus acc (col_sums (length acc) chunk) j 0 0 0)
        by lia.
      rewrite col_sums_nth by auto.
      rewrite map_app, Qsum_app. ring.
    + rewrite length_zip_with_min. lia.
Qed.

Lemma rows_of_concat_ge {A} n g (l : list A) :
  (length l <= n * g)%nat -> concat (rows_of n g l) = l.
Proof.
  revert l. induction n as [| n IH]; intros l Hl; cbn [rows_of concat].
  - destruct l; [reflexivity | cbn in Hl; lia].
  - rewrite IH by (rewrite length_skipn; lia). apply firstn_skipn.
Qed.

Lemma rows_of_map {A B} (f : A -> B) n g (l : list A) :
  rows_of n g (map f l) = map (map f) (rows_of n g l).
Proof.
  revert l. induction n as [| n IH]; intros l; cbn [rows_of map]; auto.
  rewrite firstn_map, skipn_map, IH. reflexivity.
Qed.

Lemma numel_app a b : numel (a ++ b) = (numel a * numel b)%nat.
Proof.
  unfold numel. induction a as [| x a IH]; cbn [app fold_right].
  - lia.
  - rewrite IH. lia.
Qed.

Lemma numel_last s c :
  last_dim s = Ok c -> exists m, numel s = (m * c)%nat.
Proof.
  unfold last_dim. destruct (rev s) as [| d t] eqn:E; [discriminate |].
  intros [= ->]. exists (numel (rev t)).
  rewrite <- (rev_involutive s), E. cbn [rev].
  rewrite numel_app. cbn. lia.
Qed.

(** The number of rows of features in a chunk of the sum. *)
Definition activation_chunk_size (cfg : config) (element_size : Z)
    (num_channels num_elements : nat) : Z :=
  Z.min (max_chunk_memory cfg / (element_size * 2 * Z.of_nat num_channels))
        (Z.of_nat num_elements).

(** [activation_mean] up to the choice of the chunks. *)
Lemma activation_mean_unfold cfg element_size inp c :
  last_dim (shape inp) = Ok c -> wf_tensor inp -> (0 < c)%nat ->
  (0 < element_size)%Z ->
  let n := (length (data inp) / c)%nat in
  let cs := activation_chunk_size cfg element_size c n in
  length (data inp) = (n * c)%nat /\
  activation_mean cfg element_size inp =
    if (cs =? 0)%Z then Raise (ValueError "range() arg 3 must not be zero")
    else
      let k := Z.to_nat cs in
      let inp_flat := rows_of n c (map Qabs (data inp)) in
      let chunks :=
        if (cs <? 0)%Z then []
        else rows_of ((n + k - 1) / k) k inp_flat in
      Ok (map (fun s => s / inject_Z (Z.of_nat n))
              (fold_left (fun acc chunk =>
                            zip_with Qplus acc (col_sums c chunk))
                         chunks (repeat 0 c))).
Proof.
  intros Hlast Hwf Hc Hes. cbn zeta.
  destruct (numel_last _ _ Hlast) as [m Hm].
  assert (Hlen : length (data inp) = (m * c)%nat)
    by (unfold wf_tensor in Hwf; lia).
  rewrite Hlen, Nat.div_mul by lia. split; [reflexivity |].
  unfold activation_mean. rewrite Hlast. cbn [bind].
  rewrite Hm, infer_dim_mul by lia. cbn [bind].
  destruct (Z.eqb_spec (element_size * 2 * Z.of_nat c) 0) as [E | _];
    [nia |].
  reflexivity.
Qed.

Lemma fold_chunks_length (chunks : list (list (list Q))) c : forall acc,
  length acc = c ->
  Forall (Forall (fun row => length row = c)) chunks ->
  length (fold_left (fun acc chunk => zip_with Qplus acc (col_sums c chunk))
                    chunks acc) = c.
Proof.
  induction chunks as [| chunk chunks IH]; intros acc Hacc Hch;
    cbn [fold_left]; auto.
  inversion Hch as [| ? ? Hchunk Hrest]; subst.
  apply IH; auto.
  rewrite length_zip_with_min, col_sums_length by auto. lia.
Qed.

(** X11.  Whatever the memory of a chunk, the mean of the features has one
    entry per channel: the sum of the magnitudes of that channel over all
    rows of features, divided by their number. *)
Theorem activation_mean_is_channel_mean cfg element_size inp c xm :
  last_dim (shape inp) = Ok c -> wf_tensor inp -> (0 < c)%nat ->
  (0 < element_size)%Z -> (0 <= max_chunk_memory cfg)%Z ->
  activation_mean cfg element_size inp = Ok xm ->
  length xm = c /\
  forall j, (j < c)%nat ->
    nth j xm 0
      == Qsum (map (fun row => Qabs (nth j row 0))
                   (rows_of (length (data inp) / c) c (data inp)))
         / inject_Z (Z.of_nat (length (data inp) / c)).
Proof.
  intros Hlast Hwf Hc Hes Hmem Hrun.
  destruct (activation_mean_unfold cfg element_size inp c Hlast Hwf Hc Hes)
    as [Hlen Hdef].
  cbn zeta in Hdef. rewrite Hdef in Hrun. clear Hdef.
  set (n := (length (data inp) / c)%nat) in *.
  set (cs := activation_chunk_size cfg element_size c n) in *.
  assert (Hcs0 : (0 <= cs)%Z).
  { unfold cs, activation_chunk_size.
    assert (0 <= max_chunk_memory cfg / (element_size * 2 * Z.of_nat c))%Z
      by (apply Z.div_pos; nia).
    lia. }
  destruct (Z.eqb_spec cs 0) as [E | Hne]; [discriminate |].
  destruct (Z.ltb_spec cs 0) as [Hneg | _]; [lia |].
  set (k := Z.to_nat cs) in *.
  assert (Hk : (0 < k)%nat) by (unfold k; lia).
  set (inp_flat := rows_of n c (map Qabs (data inp))) in *.
  set (chunks := rows_of ((n + k - 1) / k) k inp_flat) in *.
  injection Hrun as <-.
  assert (Hflat : Forall (fun row => length row = c) inp_flat).
  { unfold inp_flat. apply (@rows_of_Forall_length _ n c).
    rewrite length_map. exact Hlen. }
  assert (Hch : Forall (Forall (fun row => length row = c)) chunks).
  { unfold chunks. apply rows_of_Forall_rows. exact Hflat. }
  assert (Hcat : concat chunks = inp_flat).
  { unfold chunks. apply rows_of_concat_ge.
    unfold inp_flat at 1. rewrite rows_of_length.
    apply (@ceil_div_covers n k Hk). }
  pose proof (fold_chunks_length chunks c (repeat 0 c) (repeat_length 0 c)
                Hch) as Hxl.
  split; [rewrite length_map; exact Hxl |].
  intros j Hj.
  rewrite (@nth_map_default _ _ _ _ j 0 0) by lia.
  rewrite (fold_chunks_nth chunks c j) by (auto using repeat_length).
  rewrite nth_repeat, Hcat. unfold inp_flat.
  rewrite rows_of_map, map_map.
  assert (E : map (fun row => nth j (map Qabs row) 0)
                  (rows_of n c (data inp))
              = map (fun row => Qabs (nth j row 0))
                    (rows_of n c (data inp))).
  { apply map_ext. intros row. change 0 with (Qabs 0) at 1.
    apply map_nth. }
  rewrite E. apply Qdiv_comp; [ring | reflexivity].
Qed.

Definition cfg_row_at_a_time : config := mkConfig 4 2 true "gemm" true 8.

Lemma activation_mean_is_channel_mean_witness :
  exists xm,
    activation_mean cfg_row_at_a_time 2 feat_two_tokens = Ok xm /\
    nth 1 xm 0 == 7 # 4.
Proof.
  destruct (activation_mean cfg_row_at_a_time 2 feat_two_tokens)
    as [xm | e] eqn:E; [| vm_compute in E; discriminate].
  exists xm. split; [reflexivity |].
  assert (Hes : (0 < 2)%Z) by lia.
  assert (Hmem : (0 <= max_chunk_memory cfg_row_at_a_time)%Z) by (cbn; lia).
  destruct (activation_mean_is_channel_mean cfg_row_at_a_time 2
              feat_two_tokens 2 xm eq_refl eq_refl (Nat.lt_0_succ 1)
              Hes Hmem E) as [_ Hmean].
  rewrite (Hmean 1%nat (Nat.lt_succ_diag_r 1)). reflexivity.
Defined.

(** X12.  The features have a mean exactly when there is a row of them and the
    memory of a chunk holds one row in single precision; otherwise the
    step of the loop over the chunks is zero, [range] raises its
    [ValueError], and so does [_search_best_scale] once the mean of the
    weights is there. *)
Theorem activation_mean_returns_iff cfg element_size inp c :
  last_dim (shape inp) = Ok c -> wf_tensor inp -> (0 < c)%nat ->
  (0 < element_size)%Z -> (0 <= max_chunk_memory cfg)%Z ->
  let enough :=
    data inp <> [] /\
    (element_size * 2 * Z.of_nat c <= max_chunk_memory cfg)%Z in
  ((exists xm, activation_mean cfg element_size inp = Ok xm) <-> enough) /\
  (~ enough ->
   activation_mean cfg element_size inp
     = Raise (ValueError "range() arg 3 must not be zero") /\
   forall tpow tsqrt forward dev layers m h w_mean,
     weight_mean cfg (map (param_data h) layers) = Ok w_mean ->
     _search_best_scale tpow tsqrt forward element_size dev cfg layers inp
       (Some m) h
     = ([], Raise (ValueError "range() arg 3 must not be zero"))).
Proof.
  intros Hlast Hwf Hc Hes Hmem. cbn zeta.
  destruct (activation_mean_unfold cfg element_size inp c Hlast Hwf Hc Hes)
    as [Hlen Hdef].
  cbn zeta in Hdef.
  set (n := (length (data inp) / c)%nat) in *.
  set (cs := activation_chunk_size cfg element_size c n) in *.
  set (d := (element_size * 2 * Z.of_nat c)%Z) in *.
  assert (Hd : (0 < d)%Z) by (unfold d; nia).
  assert (Hq : (0 < max_chunk_memory cfg / d)%Z <->
               (d <= max_chunk_memory cfg)%Z).
  { pose proof (Z.div_mod (max_chunk_memory cfg) d) as E.
    pose proof (Z.mod_pos_bound (max_chunk_memory cfg) d) as Hm.
    split; intros H; nia. }
  assert (Hq0 : (0 <= max_chunk_memory cfg / d)%Z)
    by (apply Z.div_pos; lia).
  assert (Hn : (0 < n)%nat <-> data inp <> []).
  { split.
    - intros H E. rewrite E in Hlen. cbn in Hlen. nia.
    - intros H. destruct n; [| lia].
      destruct (data inp); [congruence | cbn in Hlen; lia]. }
  assert (Hcs : (cs <> 0)%Z <->
                data inp <> [] /\ (d <= max_chunk_memory cfg)%Z).
  { rewrite <- Hn, <- Hq. unfold cs, activation_chunk_size. fold d. lia. }
  split.
  - rewrite <- Hcs. rewrite Hdef.
    destruct (Z.eqb_spec cs 0) as [E | Hne].
    + split; [intros [xm H]; discriminate | intros H; contradiction].
    + split; [intros _; exact Hne | intros _; eexists; reflexivity].
  - intros Hnot. rewrite <- Hcs in Hnot.
    assert (Hraise : activation_mean cfg element_size inp
                     = Raise (ValueError "range() arg 3 must not be zero")).
    { rewrite Hdef. destruct (Z.eqb_spec cs 0) as [E | Hne];
        [reflexivity | contradiction]. }
    split; [exact Hraise |].
    intros tpow tsqrt forward dev layers m h w_mean Hw.
    unfold _search_best_scale. rewrite Hw, Hraise. reflexivity.
Qed.

Definition cfg_less_than_a_row : config := mkConfig 4 2 true "gemm" true 7.

Lemma activation_mean_returns_iff_witness :
  (exists xm, activation_mean cfg_row_at_a_time 2 feat_two_tokens = Ok xm) /\
  activation_mean cfg_less_than_a_row 2 feat_two_tokens
    = Raise (ValueError "range() arg 3 must not be zero").
Proof.
  assert (Hes : (0 < 2)%Z) by lia.
  assert (H8 : (0 <= max_chunk_memory cfg_row_at_a_time)%Z) by (cbn; lia).
  assert (H7 : (0 <= max_chunk_memory cfg_less_than_a_row)%Z) by (cbn; lia).
  split.
  - apply (proj2 (proj1 (activation_mean_returns_iff cfg_row_at_a_time 2
                    feat_two_tokens 2 eq_refl eq_refl (Nat.lt_0_succ 1) Hes
                    H8))).
    split; [discriminate | cbn; lia].
  - apply (proj2 (activation_mean_returns_iff cfg_less_than_a_row 2
                    feat_two_tokens 2 eq_refl eq_refl (Nat.lt_0_succ 1) Hes
                    H7)).
    intros [_ H]. cbn in H. lia.
Defined.

(* ================================================================== *)
(** * Instances of the two restore theorems of [_compute_best_scale] *)

Lemma heap_of_params_allocated w p :
  (params (heap_of w) p < next_id (heap_of w))%nat.
Proof. cbn. lia. Qed.

Lemma accelerator_search_restores_weights_witness :
  exists log h' s,
    _compute_best_scale pow_standin sqrt_standin linear_forward 2
      Accelerator cfg_duo x_two_tokens w_mean_quarter_one x_mean_ones
      fc_module [0%nat] fp16_spanning (heap_of w_spanning)
      = (log, Ok (h', s)) /\
    state_dict fc_module h' = state_dict fc_module (heap_of w_spanning).
Proof.
  destruct (_compute_best_scale pow_standin sqrt_standin linear_forward 2
              Accelerator cfg_duo x_two_tokens w_mean_quarter_one
              x_mean_ones fc_module [0%nat] fp16_spanning
              (heap_of w_spanning))
    as [log [[h' s] | e]] eqn:E; [| vm_compute in E; discriminate E].
  exists log, h', s. split; [reflexivity |].
  exact (proj2 (accelerator_search_restores_weights pow_standin
                  sqrt_standin linear_forward 2 cfg_duo x_two_tokens
                  w_mean_quarter_one x_mean_ones fc_module [0%nat]
                  fp16_spanning (heap_of w_spanning)
                  (heap_of_params_allocated w_spanning))
           log h' s E).
Defined.

Lemma cpu_search_keeps_first_product_witness :
  exists s1 w1 log h' s,
    candidate_scales pow_standin sqrt_standin cfg_duo x_mean_ones
      w_mean_quarter_one (ratio_of 0) = Ok s1 /\
    map_cols Qmult (param_data (heap_of w_spanning) 0) s1 = Ok w1 /\
    _compute_best_scale pow_standin sqrt_standin linear_forward 2
      Cpu cfg_duo x_two_tokens w_mean_quarter_one x_mean_ones
      [("weight"%string, 0%nat)] [0%nat] fp16_spanning (heap_of w_spanning)
      = (log, Ok (h', s)) /\
    param_data h' 0 = w1.
Proof.
  destruct (candidate_scales pow_standin sqrt_standin cfg_duo x_mean_ones
              w_mean_quarter_one (ratio_of 0)) as [s1 | e] eqn:Es;
    [| vm_compute in Es; discriminate Es].
  destruct (map_cols Qmult (param_data (heap_of w_spanning) 0) s1)
    as [w1 | e] eqn:Ew;
    [| vm_compute in Es; injection Es as <-; vm_compute in Ew;
       discriminate Ew].
  destruct (_compute_best_scale pow_standin sqrt_standin linear_forward 2
              Cpu cfg_duo x_two_tokens w_mean_quarter_one x_mean_ones
              [("weight"%string, 0%nat)] [0%nat] fp16_spanning
              (heap_of w_spanning))
    as [log [[h' s] | e]] eqn:E; [| vm_compute in E; discriminate E].
  exists s1, w1, log, h', s.
  split; [reflexivity |]. split; [exact Ew |]. split; [reflexivity |].
  exact (proj2 (proj2 (cpu_search_keeps_first_product pow_standin
                         sqrt_standin linear_forward 2 cfg_duo x_two_tokens
                         w_mean_quarter_one x_mean_ones "weight"%string
                         0%nat fp16_spanning (heap_of w_spanning) s1 w1
                         (heap_of_params_allocated w_spanning) Es Ew))
           log h' s E).
Defined.

(* ================================================================== *)
(** * Further properties of [_compute_best_clip] *)

(** ** The sampled tokens *)

Lemma stride_aux_length {A} fuel step : forall l : list A,
  (0 < step)%nat -> (length l <= fuel)%nat ->
  length (stride_aux fuel step l) = ((length l + step - 1) / step)%nat.
Proof.
  induction fuel as [| fuel IH]; intros l Hs Hl.
  - destruct l; [| cbn in Hl; lia]. cbn.
    symmetry. apply Nat.div_small. lia.
  - destruct l as [| x l].
    + cbn. symmetry. apply Nat.div_small. lia.
    + cbn [stride_aux length].
      rewrite IH; [| exact Hs | rewrite length_skipn; cbn [length] in *; lia].
      rewrite length_skipn. cbn [length].
      replace (S (length l) + step - 1)%nat
        with (length l + 1 * step)%nat by lia.
      rewrite Nat.div_add by lia.
      destruct (Nat.le_gt_cases step (S (length l))) as [Hge | Hlt].
      * replace (S (length l) - step + step - 1)%nat with (length l) by lia.
        lia.
      * replace (S (length l) - step + step - 1)%nat with (step - 1)%nat
          by lia.
        rewrite (Nat.div_small (step - 1)), (Nat.div_small (length l))
          by lia.
        reflexivity.
Qed.

Lemma stride_aux_one {A} fuel : forall l : list A,
  (length l <= fuel)%nat -> stride_aux fuel 1 l = l.
Proof.
  induction fuel as [| fuel IH]; intros l Hl.
  - destruct l; [reflexivity | cbn in Hl; lia].
  - destruct l as [| x l]; [reflexivity |].
    cbn [stride_aux skipn]. rewrite IH; [reflexivity | cbn in Hl; lia].
Qed.

Lemma sampled_count_bounds n :
  let step := Nat.max 1 (n / n_sample_token) in
  let count := ((n + step - 1) / step)%nat in
  ((n < 2 * n_sample_token)%nat -> step = 1%nat /\ count = n) /\
  ((n_sample_token <= n)%nat ->
   (n_sample_token <= count <= 2 * n_sample_token - 1)%nat).
Proof.
  unfold n_sample_token. cbn zeta.
  pose proof (Nat.div_mod_eq n 512) as E.
  pose proof (Nat.mod_upper_bound n 512) as Hr.
  set (q := (n / 512)%nat) in *. set (r := (n mod 512)%nat) in *.
  split.
  - intros Hn. assert (Hq : (q <= 1)%nat) by lia.
    replace (Nat.max 1 q) with 1%nat by lia.
    split; [reflexivity |].
    replace (n + 1 - 1)%nat with n by lia. apply Nat.div_1_r.
  - intros Hn. assert (Hq : (1 <= q)%nat) by lia.
    replace (Nat.max 1 q) with q by lia.
    pose proof (Nat.div_mod_eq (n + q - 1) q) as E2.
    pose proof (Nat.mod_upper_bound (n + q - 1) q) as Hr2.
    set (k := ((n + q - 1) / q)%nat) in *.
    split; nia.
Qed.

(** X15.  The tokens the search measures its errors on: every
    [max(1, n // 512)]-th row of the features.  Up to 1023 rows all of
    them are taken; from 512 rows on, at least 512 and at most 1023. *)
Theorem clip_samples_fewer_than_1024_tokens cfg w input_feat lay n ci :
  shape input_feat = [n; ci] ->
  clip_reshape cfg w input_feat = Ok lay ->
  length (l_tokens lay)
    = ((n + Nat.max 1 (n / 512) - 1) / Nat.max 1 (n / 512))%nat /\
  ((n < 1024)%nat ->
   l_tokens lay = rows_of n (l_ngx lay * l_gs lay) (data input_feat)) /\
  ((512 <= n)%nat -> (512 <= length (l_tokens lay) <= 1023)%nat).
Proof.
  intros Hsh. unfold clip_reshape.
  destruct (assert _); cbv beta iota delta [bind]; [| discriminate].
  destruct (shape w) as [| co [| ci' [| ? ?]]]; try discriminate.
  rewrite Hsh. cbv beta iota delta [last_dim rev app bind].
  destruct (infer_dim (numel [n; ci]) ci) as [n' |] eqn:En;
    cbv beta iota delta [bind]; [| discriminate].
  apply infer_dim_ok in En. destruct En as [Hci En].
  cbn [numel fold_right] in En.
  destruct (infer_dim _ _) as [ngx |]; cbv beta iota delta [bind];
    [| discriminate].
  destruct (infer_dim _ _) as [ngw |]; cbv beta iota delta [bind];
    [| discriminate].
  intros Hlay.
  assert (n' = n) by nia. subst n'.
  assert (Htok : l_tokens lay
                 = stride (Nat.max 1 (n / n_sample_token))
                          (rows_of n (l_ngx lay * l_gs lay)
                                   (data input_feat)))
    by (injection Hlay as <-; reflexivity).
  rewrite Htok. clear Hlay Htok.
  set (rows := rows_of n (l_ngx lay * l_gs lay) (data input_feat)).
  assert (Hrows : length rows = n) by apply rows_of_length.
  destruct (sampled_count_bounds n) as [Hsmall Hbig].
  cbv zeta in Hsmall, Hbig.
  change 512%nat with n_sample_token.
  change 1023%nat with (2 * n_sample_token - 1)%nat.
  change 1024%nat with (2 * n_sample_token)%nat.
  set (step := Nat.max 1 (n / n_sample_token)) in *.
  assert (Hstep : (0 < step)%nat) by (unfold step; lia).
  assert (Hlen : length (stride step rows) = ((n + step - 1) / step)%nat).
  { unfold stride. rewrite stride_aux_length, Hrows by lia. reflexivity. }
  split; [exact Hlen |]. split.
  - intros Hn. destruct (Hsmall Hn) as [E _]. rewrite E.
    unfold stride. apply stride_aux_one. lia.
  - intros Hn. rewrite Hlen. apply Hbig. exact Hn.
Qed.

Lemma clip_samples_fewer_than_1024_tokens_witness :
  clip_reshape cfg_zp4_g2 w_three_rows feat_two_tokens
    = Ok (mkLayout 3 2 1 1 [[1; 2]; [-1; 3 # 2]]) /\
  l_tokens (mkLayout 3 2 1 1 [[1; 2]; [-1; 3 # 2]])
    = rows_of 2 (1 * 2) (data feat_two_tokens).
Proof.
  split; [reflexivity |].
  apply (proj1 (proj2 (clip_samples_fewer_than_1024_tokens cfg_zp4_g2
                         w_three_rows feat_two_tokens
                         (mkLayout 3 2 1 1 [[1; 2]; [-1; 3 # 2]]) 2 2
                         eq_refl eq_refl))).
  lia.
Defined.

(** ** The range of the thresholds *)

Lemma rows_of_add {A} a b g : forall l : list A,
  rows_of (a + b) g l = rows_of a g l ++ rows_of b g (skipn (a * g) l).
Proof.
  induction a as [| a IH]; intros l; cbn [Nat.add rows_of Nat.mul app].
  - reflexivity.
  - rewrite IH, skipn_skipn.
    replace (g + a * g)%nat with (a * g + g)%nat by lia. reflexivity.
Qed.

Lemma rows_of_firstn {A} m g : forall l : list A,
  rows_of m g (firstn (m * g) l) = rows_of m g l.
Proof.
  induction m as [| m IH]; intros l; cbn [rows_of Nat.mul]; auto.
  rewrite firstn_firstn, Nat.min_l by lia.
  rewrite skipn_firstn_comm.
  replace (g + m * g - g)%nat with (m * g)%nat by lia.
  rewrite IH. reflexivity.
Qed.

(** The groups of the blocks are the groups of the whole buffer. *)
Lemma rows_of_nested {A} nb m g : forall l : list A,
  concat (map (rows_of m g) (rows_of nb (m * g) l)) = rows_of (nb * m) g l.
Proof.
  induction nb as [| nb IH]; intros l; cbn [rows_of map concat Nat.mul].
  - reflexivity.
  - rewrite IH, rows_of_add, rows_of_firstn. reflexivity.
Qed.

Lemma Forall2_nth_both {A B} (R : A -> B -> Prop) l1 l2 i d1 d2 :
  Forall2 R l1 l2 -> (i < length l1)%nat -> R (nth i l1 d1) (nth i l2 d2).
Proof.
  intros H. revert i. induction H as [| x y l1 l2 Hxy H IH]; intros i Hi.
  - cbn in Hi. lia.
  - destruct i; cbn [nth]; [exact Hxy | apply IH; cbn in Hi; lia].
Qed.

Lemma amax_abs_nonneg row : 0 <= amax (map Qabs row).
Proof.
  destruct row as [| x row]; [apply Qle_refl |].
  eapply Qle_trans; [apply (Qabs_nonneg x) |].
  apply amax_ge. left. reflexivity.
Qed.

(** A block returns one threshold per channel and group: the largest
    magnitude of the group shrunk by one of the factors of the grid. *)
Lemma clip_block_range cfg lay bs w_block res :
  clip_block cfg lay bs w_block = Ok res ->
  length res = (bs * l_ngw lay)%nat /\
  forall p, (p < bs * l_ngw lay)%nat ->
    exists i, (i < n_shrink_steps)%nat /\
      nth p res 0
        == amax (map Qabs (nth p (rows_of (bs * l_ngw lay) (l_gs lay)
                                          w_block) []))
           * (1 - inject_Z (Z.of_nat i) / inject_Z (Z.of_nat n_grid)).
Proof.
  intros Hrun.
  pose proof (clip_block_never_worse cfg lay bs w_block res Hrun) as Hnw.
  assert (Hlen : length res = (bs * l_ngw lay)%nat).
  { unfold clip_block in Hrun. cbv zeta in Hrun.
    destruct (negb _); [discriminate |].
    destruct (clip_grid _ _ _) as [st |] eqn:Hgrid; cbn [bind] in Hrun;
      [| discriminate].
    injection Hrun as <-. rewrite length_map.
    apply (clip_grid_keeps_minimum _ (bs * l_ngw lay)%nat _ _ st)
      in Hgrid.
    - tauto.
    - rewrite !length_map. apply rows_of_length.
    - intros i t _ Hi.
      destruct (block_trial_pairs cfg lay bs w_block i t Hi) as [Hl _].
      rewrite Hl. apply rows_of_length. }
  split; [exact Hlen |].
  intros p Hp. rewrite <- Hlen in Hp.
  destruct (Hnw p Hp) as (i & t0 & ti & Hi & _ & Hti & Hval & _).
  exists i. split; [exact Hi |]. rewrite Hval.
  destruct (block_trial_pairs cfg lay bs w_block i ti Hti) as [_ Hsnd].
  cbv zeta in Hsnd. rewrite Hsnd; [reflexivity |].
  rewrite rows_of_length. lia.
Qed.

Lemma shrink_factor_range i :
  (i < n_shrink_steps)%nat ->
  11 # 20 <= 1 - inject_Z (Z.of_nat i) / inject_Z (Z.of_nat n_grid) /\
  1 - inject_Z (Z.of_nat i) / inject_Z (Z.of_nat n_grid) <= 1.
Proof.
  intros Hi. change n_shrink_steps with 10%nat in Hi.
  change (inject_Z (Z.of_nat n_grid)) with 20.
  assert (H0 : 0 <= inject_Z (Z.of_nat i)).
  { change 0 with (inject_Z 0). rewrite <- Zle_Qle. lia. }
  assert (H9 : inject_Z (Z.of_nat i) <= 9).
  { change 9 with (inject_Z 9). rewrite <- Zle_Qle. lia. }
  assert (E : inject_Z (Z.of_nat i) / 20 == inject_Z (Z.of_nat i) * (1 # 20))
    by (field).
  rewrite E. lra.
Qed.

Lemma clip_reshape_sizes cfg w x lay co ci :
  shape w = [co; ci] -> clip_reshape cfg w x = Ok lay ->
  l_co lay = co /\ l_gs lay = gsize cfg ci /\
  (0 < co)%nat /\ (0 < gsize cfg ci)%nat /\
  ci = (l_ngw lay * gsize cfg ci)%nat.
Proof.
  intros Hsh. unfold clip_reshape. rewrite Hsh.
  cbn [length Nat.eqb assert bind].
  destruct (last_dim _); cbn [bind]; [| discriminate].
  destruct (infer_dim _ _); cbn [bind]; [| discriminate].
  destruct (infer_dim _ _); cbn [bind]; [| discriminate].
  fold (gsize cfg ci).
  destruct (infer_dim _ _) as [ngw |] eqn:E; cbn [bind]; [| discriminate].
  intros [= <-]. cbn [l_co l_gs l_ngw].
  apply infer_dim_ok in E. destruct E as [Hne E].
  split; [reflexivity |]. split; [reflexivity |]. nia.
Qed.

(** X16.  When [_compute_best_clip] returns, it returns one threshold for every
    output channel and quantization group, and every threshold lies
    between 11/20 of the largest magnitude of its group and that
    magnitude itself. *)
Theorem clip_thresholds_within_shrink_range cfg w input_feat co ci r :
  shape w = [co; ci] -> wf_tensor w ->
  _compute_best_clip cfg w input_feat = Ok r ->
  shape r = [co; (ci / gsize cfg ci)%nat; 1%nat] /\ wf_tensor r /\
  forall p, (p < length (data r))%nat ->
    (11 # 20) * amax (map Qabs (nth p (groups_of cfg w ci) []))
      <= nth p (data r) 0 /\
    nth p (data r) 0 <= amax (map Qabs (nth p (groups_of cfg w ci) [])).
Proof.
  intros Hsh Hwf Hrun. unfold _compute_best_clip in Hrun.
  destruct (clip_reshape cfg w input_feat) as [lay |] eqn:Hlay;
    cbn [bind] in Hrun; [| discriminate].
  destruct (clip_reshape_sizes cfg w input_feat lay co ci Hsh Hlay)
    as (Hco & Hgs & Hco0 & Hg0 & Hci).
  rewrite Hco in Hrun.
  destruct (Nat.eqb_spec (co mod oc_batch_size co) 0) as [Hmod | Hmod];
    cbn [assert bind] in Hrun; [| discriminate].
  destruct (map_result _ _) as [results |] eqn:Hmap; cbn [bind] in Hrun;
    [| discriminate].
  injection Hrun as <-. cbn [shape data].
  apply map_result_Forall2 in Hmap.
  unfold clip_blocks in Hmap. rewrite Hco, Hgs in Hmap.
  set (g := gsize cfg ci) in *. set (ngw := l_ngw lay) in *.
  set (bs := oc_batch_size co) in *.
  set (nb := (co / bs)%nat) in *.
  assert (Hbs : (0 < bs)%nat).
  { unfold bs, oc_batch_size. destruct (_ =? _)%nat; lia. }
  assert (Hnb : co = (nb * bs)%nat).
  { pose proof (Nat.div_mod_eq co bs). unfold nb. lia. }
  assert (Hdiv : (ci / g)%nat = ngw).
  { rewrite Hci. apply Nat.div_mul. lia. }
  set (blocks := rows_of nb (bs * ngw * g) (data w)) in *.
  assert (Hnres : length results = nb).
  { rewrite <- (Forall2_length Hmap). apply rows_of_length. }
  assert (Hres : Forall (fun res => length res = (bs * ngw)%nat) results).
  { clear - Hmap. induction Hmap as [| blk res ? ? Hb _ IH]; constructor;
      auto.
    apply (clip_block_range cfg lay bs blk res Hb). }
  assert (Hlen : length (concat results) = (co * ngw)%nat).
  { rewrite (length_concat_uniform _ _ Hres), Hnres, Hnb. lia. }
  split; [rewrite Hdiv; reflexivity |]. split.
  - unfold wf_tensor. cbn [shape data numel fold_right].
    rewrite Hlen. lia.
  - intros p Hp. rewrite Hlen in Hp.
    assert (HB : (0 < bs * ngw)%nat) by nia.
    set (B := (bs * ngw)%nat) in *.
    assert (Hb : (p / B < nb)%nat).
    { apply Nat.Div0.div_lt_upper_bound. rewrite Hnb in Hp.
      unfold B. nia. }
    rewrite (@nth_concat_uniform _ results B p 0 HB Hres).
    pose proof (Forall2_nth_both _ blocks results (p / B) [] [] Hmap) as Hblk.
    cbv beta in Hblk.
    specialize (Hblk ltac:(unfold blocks; rewrite rows_of_length; exact Hb)).
    destruct (clip_block_range cfg lay bs _ _ Hblk) as [_ Hrange].
    destruct (Hrange (p mod B)%nat) as (i & Hi & Hval).
    { apply Nat.mod_upper_bound. lia. }
    assert (Hgroup : nth (p mod B) (rows_of B (l_gs lay)
                                            (nth (p / B) blocks [])) []
                     = nth p (groups_of cfg w ci) []).
    { unfold groups_of. fold g.
      assert (Hw : length (data w) = (nb * B * g)%nat).
      { unfold wf_tensor in Hwf. rewrite Hwf, Hsh. cbn [numel fold_right].
        rewrite Hci at 1. rewrite Hnb. unfold B. lia. }
      rewrite Hw, Nat.div_mul by lia.
      rewrite <- (rows_of_nested nb B g (data w)).
      rewrite (@nth_concat_uniform _ _ B p [] HB).
      - rewrite (@nth_map_default _ _ _ _ (p / B) [] []).
        + rewrite Hgs. reflexivity.
        + rewrite rows_of_length. exact Hb.
      - apply Forall_forall. intros l Hl. apply in_map_iff in Hl.
        destruct Hl as [blk [<- _]]. apply rows_of_length. }
    assert (Hval' : nth (p mod B) (nth (p / B) results []) 0
                    == amax (map Qabs (nth p (groups_of cfg w ci) []))
                       * (1 - inject_Z (Z.of_nat i)
                              / inject_Z (Z.of_nat n_grid)))
      by (rewrite <- Hgroup; exact Hval).
    clear Hval Hgroup.
    destruct (shrink_factor_range i Hi) as [Hlo Hhi].
    pose proof (amax_abs_nonneg (nth p (groups_of cfg w ci) [])) as Hm.
    rewrite Hval'. clear Hval'.
    set (m := amax _) in *. set (f := 1 - _) in *.
    split.
    + rewrite (Qmult_comm m f). apply Qmult_le_compat_r; assumption.
    + rewrite <- (Qmult_1_r m) at 2.
      rewrite (Qmult_comm m f), (Qmult_comm m 1).
      apply Qmult_le_compat_r; assumption.
Qed.

Lemma clip_thresholds_within_shrink_range_witness :
  exists r,
    _compute_best_clip cfg_zp4_g2 w_64x2 feat_two_tokens = Ok r /\
    shape r = [64; 1; 1]%nat /\
    (11 # 20) * amax (map Qabs (nth 5 (groups_of cfg_zp4_g2 w_64x2 2) []))
      <= nth 5 (data r) 0 /\
    nth 5 (data r) 0
      <= amax (map Qabs (nth 5 (groups_of cfg_zp4_g2 w_64x2 2) [])).
Proof.
  destruct (_compute_best_clip cfg_zp4_g2 w_64x2 feat_two_tokens)
    as [r | e] eqn:E; [| vm_compute in E; discriminate].
  exists r. split; [reflexivity |].
  destruct (clip_thresholds_within_shrink_range cfg_zp4_g2 w_64x2
              feat_two_tokens 64 2 r eq_refl eq_refl E)
    as (Hshape & Hwf & Hrange).
  split; [exact Hshape |]. apply Hrange.
  unfold wf_tensor in Hwf. rewrite Hwf, Hshape.
  apply Nat.ltb_lt. vm_compute. reflexivity.
Defined.

(* ================================================================== *)
(** * Further properties of [_apply_quant] *)

Section ApplyQuantOutcome.
Variable half : tensor -> tensor.
Variable q_linear : Type.
Variable from_linear :
  kernel -> tensor -> Z -> Z -> tensor -> option tensor -> result q_linear.
Variable cfg : config.
Variable k : kernel.

(** The layer [nw] has gone through the loop: its weight cast to half
    precision was quantized, [from_linear] built a module from the result,
    and [l] is the name with that module. *)
Definition packs (nw : string * tensor) (l : string * layer q_linear)
  : Prop :=
  exists w_hat scales zeros q,
    pseudo_quantize_tensor cfg (half (snd nw)) = Ok (w_hat, scales, zeros) /\
    from_linear k w_hat (w_bit cfg) (group_size cfg)
                (kernel_scales k scales) (kernel_zeros k zeros) = Ok q /\
    l = (fst nw, WQLinear q).

Lemma apply_quant_all named layers :
  select_kernel (version cfg) = Some k ->
  Forall2 packs named layers ->
  _apply_quant half q_linear from_linear cfg named = (layers, Ok tt).
Proof.
  intros Hk Hall.
  induction Hall as [| [name w] l named layers Hp _ IH].
  - reflexivity.
  - destruct Hp as (w_hat & scales & zeros & q & Hq & Hf & ->).
    cbn [fst snd] in *. cbn [_apply_quant]. rewrite Hq, Hk, Hf, IH.
    reflexivity.
Qed.

Lemma apply_quant_returned named : forall layers,
  select_kernel (version cfg) = Some k ->
  _apply_quant half q_linear from_linear cfg named = (layers, Ok tt) ->
  Forall2 packs named layers.
Proof.
  induction named as [| [name w] rest IH]; intros layers Hk.
  - cbn [_apply_quant]. intros [= <-]. constructor.
  - cbn [_apply_quant].
    destruct (pseudo_quantize_tensor cfg (half w))
      as [[[w_hat scales] zeros] | e] eqn:Hq; [| discriminate].
    rewrite Hk.
    destruct (from_linear _ _ _ _ _ _) as [q | e] eqn:Hf; [| discriminate].
    destruct (_apply_quant half q_linear from_linear cfg rest)
      as [rest' outcome] eqn:Hrest.
    intros [= <- ->]. constructor.
    + exists w_hat, scales, zeros, q. cbn [fst snd]. auto.
    + apply IH; auto.
Qed.

Lemma apply_quant_prefix pre packed tail tail_layers outcome :
  select_kernel (version cfg) = Some k ->
  Forall2 packs pre packed ->
  _apply_quant half q_linear from_linear cfg tail = (tail_layers, outcome) ->
  _apply_quant half q_linear from_linear cfg (pre ++ tail)
    = (packed ++ tail_layers, outcome).
Proof.
  intros Hk Hall Htail.
  induction Hall as [| [name w] l pre packed Hp _ IH].
  - exact Htail.
  - destruct Hp as (w_hat & scales & zeros & q & Hq & Hf & ->).
    cbn [fst snd] in *. cbn [app _apply_quant]. rewrite Hq, Hk, Hf, IH.
    reflexivity.
Qed.

(** X17.  With one of the four known versions, [_apply_quant] takes the
    layers in order: each is cast to half precision in place, its cast
    weight is quantized, and [from_linear] builds the module that replaces
    it.  The step returns exactly when every layer went through.  At the
    first layer whose quantization raises, the step ends with that error:
    the earlier layers are replaced, that layer holds its weight cast to
    half precision, and the later layers hold their weights.  When
    [from_linear] raises, the layer holds its pseudo-quantized weight. *)
Theorem apply_quant_stops_at_first_failure :
  select_kernel (version cfg) = Some k ->
  (forall named layers,
     _apply_quant half q_linear from_linear cfg named = (layers, Ok tt)
     <-> Forall2 packs named layers) /\
  (forall pre packed name w post e,
     Forall2 packs pre packed ->
     pseudo_quantize_tensor cfg (half w) = Raise e ->
     _apply_quant half q_linear from_linear cfg
       (pre ++ (name, w) :: post)
       = (packed ++ (name, Linear (half w)) :: untouched q_linear post,
          Raise e)) /\
  (forall pre packed name w post w_hat scales zeros e,
     Forall2 packs pre packed ->
     pseudo_quantize_tensor cfg (half w) = Ok (w_hat, scales, zeros) ->
     from_linear k w_hat (w_bit cfg) (group_size cfg)
                 (kernel_scales k scales) (kernel_zeros k zeros) = Raise e ->
     _apply_quant half q_linear from_linear cfg
       (pre ++ (name, w) :: post)
       = (packed ++ (name, Linear w_hat) :: untouched q_linear post,
          Raise e)).
Proof.
  intros Hk. split; [| split].
  - intros named layers. split.
    + apply apply_quant_returned. exact Hk.
    + apply apply_quant_all. exact Hk.
  - intros pre packed name w post e Hpre Hq.
    apply apply_quant_prefix; auto.
    cbn [_apply_quant]. rewrite Hq. reflexivity.
  - intros pre packed name w post w_hat scales zeros e Hpre Hq Hf.
    apply apply_quant_prefix; auto.
    cbn [_apply_quant]. rewrite Hq, Hk, Hf. reflexivity.
Qed.

End ApplyQuantOutcome.

Lemma apply_quant_stops_at_first_failure_witness :
  exists q,
    _apply_quant half_of_half packed_linear record_linear cfg_zp4_g2
      ([("q"%string, w_example)] ++
       ("k"%string, w_three_columns) :: [("v"%string, w_example)])
    = ([("q"%string, WQLinear q)] ++
       [("k"%string, Linear w_three_columns);
        ("v"%string, Linear w_example)],
       Raise AssertionError).
Proof.
  assert (Hk : select_kernel (version cfg_zp4_g2) = Some GEMM)
    by reflexivity.
  destruct (pseudo_quantize_tensor cfg_zp4_g2 (half_of_half w_example))
    as [[[w_hat scales] zeros] | e] eqn:Hq0;
    [| vm_compute in Hq0; discriminate].
  exists (mkPacked GEMM w_hat (w_bit cfg_zp4_g2) (group_size cfg_zp4_g2)
                   (kernel_scales GEMM scales) (kernel_zeros GEMM zeros)).
  assert (Hpre : Forall2 (packs half_of_half packed_linear record_linear
                            cfg_zp4_g2 GEMM)
                   [("q"%string, w_example)]
                   [("q"%string,
                     WQLinear (mkPacked GEMM w_hat (w_bit cfg_zp4_g2)
                                 (group_size cfg_zp4_g2)
                                 (kernel_scales GEMM scales)
                                 (kernel_zeros GEMM zeros)))]).
  { constructor; [| constructor].
    exists w_hat, scales, zeros. eexists.
    split; [exact Hq0 |]. split; reflexivity. }
  assert (Hq : pseudo_quantize_tensor cfg_zp4_g2
                 (half_of_half w_three_columns) = Raise AssertionError)
    by reflexivity.
  exact (proj1 (proj2 (apply_quant_stops_at_first_failure half_of_half
                         packed_linear record_linear cfg_zp4_g2 GEMM Hk))
           [("q"%string, w_example)] _ "k"%string w_three_columns
           [("v"%string, w_example)] AssertionError Hpre Hq).
Defined.

(* ================================================================== *)
(** * [_search_best_clip] *)

Definition avoid_clipping : list string :=
  ["q_"; "k_"; "query"; "key"; "Wqkv"]%string.

(** [pat in name] for two strings. *)
Definition occurs_in (pat name : string) : bool :=
  match String.index 0 pat name with
  | Some _ => true
  | None => false
  end.

(** [any([_ in name for _ in avoid_clipping])]. *)
Definition avoided (name : string) : bool :=
  existsb (fun pat => occurs_in pat name) avoid_clipping.

(** [d[key]] on a dictionary kept as an association list. *)
Fixpoint lookup {V} (key : string) (d : list (string * V)) : option V :=
  match d with
  | [] => None
  | (k, v) :: rest => if String.eqb k key then Some v else lookup key rest
  end.

(** What ends the search early: the [KeyError] of [input_feat[name]], or
    what [_compute_best_clip] raises. *)
Inductive clip_exn : Type :=
| KeyError (key : string)
| Raised (e : exn).

(** The loop over the names of [named_linears], which holds the weight of
    every linear layer; the result is [clip_list]. *)
Fixpoint _search_best_clip (cfg : config)
    (named_linears : list (string * tensor))
    (input_feat : list (string * tensor))
  : clip_exn + list (string * tensor) :=
  match named_linears with
  | [] => inr []
  | (name, weight) :: rest =>
      if avoided name then _search_best_clip cfg rest input_feat
      else
        match lookup name input_feat with
        | None => inl (KeyError name)
        | Some feat =>
            match _compute_best_clip cfg weight feat with
            | Raise e => inl (Raised e)
            | Ok max_val =>
                match _search_best_clip cfg rest input_feat with
                | inl e => inl e
                | inr clip_list => inr ((name, max_val) :: clip_list)
                end
            end
        end
  end.

Lemma compute_best_clip_needs_64 cfg w x co ci :
  shape w = [co; ci] -> (co mod 64 <> 0)%nat ->
  exists e, _compute_best_clip cfg w x = Raise e.
Proof.
  intros Hsh H64. unfold _compute_best_clip.
  destruct (clip_reshape cfg w x) as [lay | e] eqn:Hlay; cbn [bind];
    [| eauto].
  rewrite (clip_reshape_co cfg w x lay co ci Hsh Hlay).
  rewrite (oc_batch_size_not_64 co H64). cbn [assert bind]. eauto.
Qed.

(** X18.  The clip list has one entry for every layer whose name contains none
    of [q_], [k_], [query], [key] and [Wqkv], in the order of the layers,
    and the entry is what [_compute_best_clip] returns for the weight and
    the input features of that layer.  The other layers are not looked
    at: the outcome, a clip list or an exception, is that of the search
    on the layers left when they are taken out, whatever their weights
    and whether or not they have input features.  A layer that is not
    skipped and whose number of output channels is not a multiple of 64
    makes the whole search fail. *)
Theorem search_best_clip_skips_attention_projections cfg named feats :
  _search_best_clip cfg named feats
    = _search_best_clip cfg
        (filter (fun nw => negb (avoided (fst nw))) named) feats /\
  (forall clip_list,
     _search_best_clip cfg named feats = inr clip_list ->
     map fst clip_list
       = filter (fun name => negb (avoided name)) (map fst named) /\
     Forall (fun nr => exists w x,
               In (fst nr, w) named /\ avoided (fst nr) = false /\
               lookup (fst nr) feats = Some x /\
               _compute_best_clip cfg w x = Ok (snd nr)) clip_list) /\
  (forall name w co ci,
     In (name, w) named -> avoided name = false ->
     shape w = [co; ci] -> (co mod 64 <> 0)%nat ->
     exists e, _search_best_clip cfg named feats = inl e).
Proof.
  induction named as [| [n0 w0] rest (IHskip & IHok & IHfail)].
  - split; [reflexivity |]. split.
    + intros l [= <-]. split; constructor.
    + intros name w co ci [].
  - split; [| split].
    + cbn [_search_best_clip filter fst].
      destruct (avoided n0) eqn:Ea; cbn [negb]; [exact IHskip |].
      cbn [_search_best_clip]. rewrite Ea, <- IHskip. reflexivity.
    + intros l. cbn [_search_best_clip map fst filter].
      destruct (avoided n0) eqn:Ea; cbn [negb].
      * intros Hrun. destruct (IHok l Hrun) as [Hn Hall].
        split; [exact Hn |]. revert Hall. apply Forall_impl.
        intros nr (w & x & Hin & H). exists w, x. split; [right |]; auto.
      * destruct (lookup n0 feats) as [x |] eqn:Ex; [| discriminate].
        destruct (_compute_best_clip cfg w0 x) as [mv |] eqn:Ec;
          [| discriminate].
        destruct (_search_best_clip cfg rest feats) as [e | l'] eqn:Er;
          [discriminate |].
        intros [= <-]. destruct (IHok l' eq_refl) as [Hn Hall].
        split; [cbn [map fst]; rewrite Hn; reflexivity |].
        constructor.
        -- exists w0, x. cbn [fst snd]. repeat split; auto. left; auto.
        -- revert Hall. apply Forall_impl.
           intros nr (w & x' & Hin & H). exists w, x'.
           split; [right |]; auto.
    + intros name w co ci Hin Ha Hsh H64. cbn [_search_best_clip].
      destruct Hin as [[= -> ->] | Hin].
      * rewrite Ha. destruct (lookup name feats) as [x |]; [| eauto].
        destruct (compute_best_clip_needs_64 cfg w x co ci Hsh H64)
          as [e ->]. eauto.
      * destruct (IHfail name w co ci Hin Ha Hsh H64) as [e He].
        rewrite He.
        destruct (avoided n0); [eauto |].
        destruct (lookup n0 feats); [| eauto].
        destruct (_compute_best_clip cfg w0 t); eauto.
Qed.

Definition feats_for_all : list (string * tensor) :=
  [("q_proj"%string, feat_two_tokens); ("o_proj"%string, feat_two_tokens)].

Lemma search_best_clip_skips_attention_projections_witness :
  avoided "q_proj" = true /\ avoided "o_proj" = false /\
  _search_best_clip cfg_zp4_g2 [("q_proj"%string, w_three_rows)]
    feats_for_all = inr [] /\
  exists e,
    _search_best_clip cfg_zp4_g2
      [("q_proj"%string, w_three_rows); ("o_proj"%string, w_three_rows)]
      feats_for_all = inl e.
Proof.
  split; [reflexivity |]. split; [reflexivity |]. split; [reflexivity |].
  apply (proj2 (proj2 (search_best_clip_skips_attention_projections
                         cfg_zp4_g2
                         [("q_proj"%string, w_three_rows);
                          ("o_proj"%string, w_three_rows)] feats_for_all))
           "o_proj"%string w_three_rows 3%nat 2%nat).
  - right. left. reflexivity.
  - reflexivity.
  - reflexivity.
  - cbn. lia.
Defined.

(* ================================================================== *)
(** * [_module_forward] *)

(** What a module returns: a tensor, kept as the list of its slices along
    the first dimension, or a tuple of such tensors. *)
Inductive module_output (out : Type) : Type :=
| Tensor (rows : list out)
| Tuple (elems : list (list out)).
Arguments Tensor {out} rows.
Arguments Tuple {out} elems.

(** [if isinstance(o, tuple): o = o[0]]. *)
Definition first_output {out} (o : module_output out) : result (list out) :=
  match o with
  | Tensor rows => Ok rows
  | Tuple [] => Raise IndexError
  | Tuple (rows :: _) => Ok rows
  end.

(** [torch.split(x, n)] along the first dimension for a Python integer
    [n]: a negative size is refused, and so is 0 unless [x] is empty. *)
Definition split_samples {A} (x : list A) (n : Z) : result (list (list A)) :=
  if (n <? 0)%Z then Raise RuntimeError
  else if (n =? 0)%Z then
    match x with
    | [] => Ok [[]]
    | _ => Raise RuntimeError
    end
  else Ok (torch_split x (Z.to_nat n)).

Section ModuleForward.
Variables sample out mask kwargs : Type.

(** The module, called with the samples, the attention mask if one is
    passed, and the keyword arguments. *)
Variable module : list sample -> option mask -> kwargs -> module_output out.

(** [n_parallel_calib_samples] is [None] or a number of samples. *)
Definition _module_forward (n_parallel_calib_samples : option Z)
    (x : list sample) (module_kwargs : kwargs)
    (attention_mask : option mask) : result (list out) :=
  match n_parallel_calib_samples with
  | None => first_output (module x attention_mask module_kwargs)
  | Some n =>
      partitioned_inputs <- split_samples x n ;;
      module_output <-
        map_result (fun x_partial =>
                      first_output (module x_partial None module_kwargs))
                   partitioned_inputs ;;
      Ok (concat module_output)
  end.

Lemma torch_split_concat (x : list sample) k :
  (0 < k)%nat -> concat (torch_split x k) = x.
Proof.
  intros Hk. unfold torch_split. destruct x as [| s x]; [reflexivity |].
  apply rows_of_concat_ge. apply (@ceil_div_covers _ k Hk).
Qed.

Variable forward_rows : list sample -> list out.

Lemma map_result_forward kw (chunks : list (list sample)) :
  (forall xs, first_output (module xs None kw) = Ok (forward_rows xs)) ->
  map_result (fun c => first_output (module c None kw)) chunks
    = Ok (map forward_rows chunks).
Proof.
  intros Hf. induction chunks as [| c chunks IH]; cbn [map_result map].
  - reflexivity.
  - rewrite Hf, IH. reflexivity.
Qed.

Lemma forward_rows_concat (chunks : list (list sample)) :
  (forall xs ys, forward_rows (xs ++ ys) = forward_rows xs ++ forward_rows ys) ->
  concat (map forward_rows chunks) = forward_rows (concat chunks).
Proof.
  intros Happ.
  assert (Hnil : forward_rows [] = []).
  { pose proof (Happ [] []) as H. cbn [app] in H.
    apply (f_equal (@length out)) in H. rewrite length_app in H.
    destruct (forward_rows []); [reflexivity | cbn in H; lia]. }
  induction chunks as [| c chunks IH]; cbn [map concat].
  - symmetry. exact Hnil.
  - rewrite IH, Happ. reflexivity.
Qed.

(** X19.  For a module that treats the samples one group after the other (its
    output on two groups of samples put together is its outputs on the
    groups put together), running the samples [n] at a time gives the
    output of running them all at once without a mask.  With
    [n_parallel_calib_samples] set the attention mask never reaches the
    module. *)
Theorem module_forward_in_parts_is_whole kw (x : list sample) (n : Z) :
  (0 < n)%Z ->
  (forall xs, first_output (module xs None kw) = Ok (forward_rows xs)) ->
  (forall xs ys,
     forward_rows (xs ++ ys) = forward_rows xs ++ forward_rows ys) ->
  _module_forward (Some n) x kw None = _module_forward None x kw None /\
  forall attention_mask,
    _module_forward (Some n) x kw attention_mask = Ok (forward_rows x).
Proof.
  intros Hn Hf Happ.
  assert (Hparts : forall m, _module_forward (Some n) x kw m
                             = Ok (forward_rows x)).
  { intros m. unfold _module_forward, split_samples.
    destruct (Z.ltb_spec n 0); [lia |].
    destruct (Z.eqb_spec n 0); [lia |]. cbn [bind].
    rewrite (map_result_forward kw _ Hf). cbn [bind].
    rewrite (forward_rows_concat _ Happ), torch_split_concat by lia.
    reflexivity. }
  split; [| exact Hparts].
  rewrite Hparts. unfold _module_forward. symmetry. apply Hf.
Qed.

End ModuleForward.

(** A module that doubles every sample and returns the result in a
    tuple. *)
Definition doubling_module (xs : list Q) (m : option unit) (kw : unit)
  : module_output Q :=
  Tuple [map (Qmult 2) xs; xs].

Lemma module_forward_in_parts_is_whole_witness :
  _module_forward Q Q unit unit doubling_module (Some 2%Z) [1; 2; 3] tt None
    = Ok [2 * 1; 2 * 2; 2 * 3] /\
  _module_forward Q Q unit unit doubling_module (Some 2%Z) [1; 2; 3] tt None
    = _module_forward Q Q unit unit doubling_module None [1; 2; 3] tt None.
Proof.
  assert (Hn : (0 < 2)%Z) by lia.
  assert (Hf : forall xs, first_output (doubling_module xs None tt)
                          = Ok (map (Qmult 2) xs))
    by (intros xs; reflexivity).
  destruct (module_forward_in_parts_is_whole Q Q unit unit doubling_module
              (map (Qmult 2)) tt [1; 2; 3] 2 Hn Hf
              (fun xs ys => map_app (Qmult 2) xs ys)) as [Hwhole Hparts].
  split; [exact (Hparts None) | exact Hwhole].
Defined.

(* ================================================================== *)
(** * [init_quant]: catching the input of the first layer *)

(** What the forward pass of the [Catcher] raises: a builtin exception of
    the searches, or the [UnboundLocalError] of a local variable read
    before it is assigned. *)
Inductive catcher_exn : Type :=
| UnboundLocalError (name : string)
| Builtin (e : exn).

(** [d[k] = v] on a dictionary kept in insertion order: the value of a
    key that is there is replaced in place, a new key goes last. *)
Fixpoint dict_set {V} (d : list (string * V)) (k : string) (v : V)
  : list (string * V) :=
  match d with
  | [] => [(k, v)]
  | (k', v') :: rest =>
      if String.eqb k' k then (k, v) :: rest
      else (k', v') :: dict_set rest k v
  end.

(** [d.update(other)]. *)
Definition dict_update {V} (d other : list (string * V))
  : list (string * V) :=
  fold_left (fun d kv => dict_set d (fst kv) (snd kv)) other d.

(** [if k in d: d.pop(k)]. *)
Definition dict_discard {V} (k : string) (d : list (string * V))
  : list (string * V) :=
  filter (fun kv => negb (String.eqb (fst kv) k)) d.

Section Catcher.
Variable V : Type.

(** The three variables of [init_quant] the [Catcher] writes to. *)
Record caught : Type := mkCaught {
  inps : list V;
  attention_mask : list V;
  layer_kwargs : list (string * V)
}.

(** [Catcher.forward], called with the positional arguments [args] and
    the keyword arguments [kwargs]: it never returns; the result is what
    the three variables hold when it raises, and the exception. *)
Definition Catcher_forward (args : list V) (kwargs : list (string * V))
    (st : caught) : caught * catcher_exn :=
  match args with
  | hidden_states :: rest =>
      match rest with
      | [] => (st, Builtin IndexError)            (* args[1] *)
      | attn_mask :: _ =>
          (mkCaught (inps st ++ [hidden_states])
                    (attention_mask st ++ [attn_mask])
                    (dict_update (layer_kwargs st) kwargs),
           Builtin (ValueError EmptyString))
      end
  | [] =>
      match kwargs with
      | [] => (st, Builtin IndexError)            (* list(kwargs.keys())[0] *)
      | (first_key, hidden_states) :: _ =>
          (* [attn_mask] has not been assigned *)
          (mkCaught (inps st ++ [hidden_states]) (attention_mask st)
                    (layer_kwargs st),
           UnboundLocalError "attn_mask")
      end
  end.

(** [except ValueError]. *)
Definition is_ValueError (e : catcher_exn) : bool :=
  match e with
  | Builtin (ValueError _) => true
  | _ => false
  end.

(** The part of [init_quant] from the patch of layer 0 to the captured
    input, for a model that is not asked to prepare its inputs again (the
    branch of [XLMRobertaForSequenceClassification]).  The forward pass
    of the model is taken to reach layer 0 with [args] and [kwargs] and to
    let its exception through.  The result is the exception that leaves
    [init_quant], with layer 0 still wrapped, or the captured
    [layer_kwargs], [inps] and [attention_mask]. *)
Definition capture_first_layer_input (args : list V)
    (kwargs : list (string * V))
  : catcher_exn + (list (string * V) * V * V) :=
  let (st, e) := Catcher_forward args kwargs (mkCaught [] [] []) in
  if is_ValueError e then
    (* modules[0] = modules[0].module *)
    let layer_kwargs := dict_discard "input_ids" (layer_kwargs st) in
    match inps st, attention_mask st with
    | hidden :: _, m :: _ => inr (layer_kwargs, hidden, m)
    | _, _ => inl (Builtin IndexError)
    end
  else inl e.

Lemma dict_set_fresh (d : list (string * V)) k v :
  ~ In k (map fst d) -> dict_set d k v = d ++ [(k, v)].
Proof.
  induction d as [| [k' v'] d IH]; intros Hk; cbn [dict_set app].
  - reflexivity.
  - destruct (String.eqb_spec k' k) as [-> | Hne].
    + exfalso. apply Hk. left. reflexivity.
    + rewrite IH; [reflexivity |]. intros Hin. apply Hk. right. exact Hin.
Qed.

Lemma dict_update_fresh (other : list (string * V)) : forall d,
  NoDup (map fst (d ++ other)) -> dict_update d other = d ++ other.
Proof.
  unfold dict_update.
  induction other as [| [k v] other IH]; intros d Hnd; cbn [fold_left].
  - rewrite app_nil_r. reflexivity.
  - cbn [fst snd].
    assert (Hd : d ++ (k, v) :: other = (d ++ [(k, v)]) ++ other)
      by (rewrite <- app_assoc; reflexivity).
    rewrite dict_set_fresh.
    + rewrite IH; [symmetry; exact Hd | rewrite <- Hd; exact Hnd].
    + rewrite map_app in Hnd. cbn [map fst] in Hnd.
      apply NoDup_remove_2 in Hnd. intros Hin. apply Hnd.
      apply in_or_app. left. exact Hin.
Qed.

(** X20.  The input of the first layer is captured exactly when the layer is
    called with at least two positional arguments: the first two are then
    the captured hidden states and attention mask, and the captured
    keyword arguments are those of the call without [input_ids].  A call
    with one positional argument ends in an [IndexError], one with
    keyword arguments only in the [UnboundLocalError] of [attn_mask];
    neither is caught by [except ValueError], so [init_quant] ends there
    with layer 0 still wrapped. *)
Theorem capture_needs_two_positional_arguments
    (args : list V) (kwargs : list (string * V)) :
  NoDup (map fst kwargs) ->
  ((exists r, capture_first_layer_input args kwargs = inr r) <->
   (2 <= length args)%nat) /\
  (forall hidden m rest,
     args = hidden :: m :: rest ->
     capture_first_layer_input args kwargs
       = inr (dict_discard "input_ids" kwargs, hidden, m)) /\
  (length args = 1%nat ->
   capture_first_layer_input args kwargs = inl (Builtin IndexError)) /\
  (args = [] -> kwargs <> [] ->
   capture_first_layer_input args kwargs
     = inl (UnboundLocalError "attn_mask")).
Proof.
  intros Hnd.
  assert (Htwo : forall hidden m rest,
             args = hidden :: m :: rest ->
             capture_first_layer_input args kwargs
               = inr (dict_discard "input_ids" kwargs, hidden, m)).
  { intros hidden m rest ->.
    unfold capture_first_layer_input, Catcher_forward.
    cbn [is_ValueError inps attention_mask layer_kwargs app].
    rewrite (dict_update_fresh kwargs [] Hnd). reflexivity. }
  split; [| split; [exact Htwo | split]].
  - split.
    + intros [r Hr].
      destruct args as [| h [| m rest]]; [| | cbn [length]; lia].
      * unfold capture_first_layer_input, Catcher_forward in Hr.
        destruct kwargs as [| [k v] kw]; discriminate.
      * discriminate.
    + intros Hlen. destruct args as [| h [| m rest]];
        [cbn in Hlen; lia | cbn in Hlen; lia |].
      eexists. apply (Htwo h m rest eq_refl).
  - intros Hlen. destruct args as [| h [| m rest]];
      [discriminate | reflexivity | discriminate].
  - intros -> Hkw. destruct kwargs as [| [k v] kw]; [congruence |].
    reflexivity.
Qed.

End Catcher.

Lemma capture_needs_two_positional_arguments_witness :
  capture_first_layer_input Q [1; 2]
    [("input_ids"%string, 3); ("head_mask"%string, 4)]
    = inr ([("head_mask"%string, 4)], 1, 2) /\
  capture_first_layer_input Q [1]
    [("input_ids"%string, 3); ("head_mask"%string, 4)]
    = inl (Builtin IndexError).
Proof.
  assert (Hnd : NoDup (map fst [("input_ids"%string, 3);
                                ("head_mask"%string, 4)])).
  { constructor; [| constructor; [| constructor]].
    - intros [H | []]. discriminate H.
    - intros []. }
  destruct (capture_needs_two_positional_arguments Q [1; 2] _ Hnd)
    as (_ & Htwo & _).
  destruct (capture_needs_two_positional_arguments Q [1] _ Hnd)
    as (_ & _ & Hone & _).
  split; [exact (Htwo 1 2 [] eq_refl) | exact (Hone eq_refl)].
Defined.

(* ================================================================== *)
(** * [_sanitize_kwargs] *)

(** [k in module_signature], for the names of the parameters of the
    module's [forward]. *)
Definition in_signature (module_signature : list string) (k : string)
  : bool :=
  existsb (String.eqb k) module_signature.

(** The loop over [inputs_kwargs.items()], a dictionary kept in insertion
    order. *)
Definition _sanitize_kwargs {V} (inputs_kwargs : list (string * V))
    (module_signature : list string) : list (string * V) :=
  fold_left (fun sanitized_kwargs kv =>
               if in_signature module_signature (fst kv)
               then dict_set sanitized_kwargs (fst kv) (snd kv)
               else sanitized_kwargs)
            inputs_kwargs [].

Lemma sanitize_fold {V} sig (kw : list (string * V)) : forall acc,
  NoDup (map fst (acc ++ kw)) ->
  fold_left (fun acc kv =>
               if in_signature sig (fst kv)
               then dict_set acc (fst kv) (snd kv) else acc) kw acc
    = acc ++ filter (fun kv => in_signature sig (fst kv)) kw.
Proof.
  induction kw as [| [k v] kw IH]; intros acc Hnd; cbn [fold_left filter].
  - rewrite app_nil_r. reflexivity.
  - cbn [fst snd].
    assert (Hk : ~ In k (map fst acc)).
    { rewrite map_app in Hnd. cbn [map fst] in Hnd.
      apply NoDup_remove_2 in Hnd. intros Hin. apply Hnd.
      apply in_or_app. left. exact Hin. }
    assert (Hrest : NoDup (map fst (acc ++ kw))).
    { rewrite map_app in *. cbn [map fst] in Hnd.
      apply NoDup_remove_1 in Hnd. exact Hnd. }
    destruct (in_signature sig k).
    + rewrite (dict_set_fresh V acc k v Hk), IH.
      * rewrite <- app_assoc. reflexivity.
      * rewrite <- app_assoc. exact Hnd.
    + apply IH. exact Hrest.
Qed.

Lemma lookup_filter_key {V} (P : string -> bool) k (d : list (string * V)) :
  lookup k (filter (fun kv => P (fst kv)) d)
    = if P k then lookup k d else None.
Proof.
  induction d as [| [k' v'] d IH]; cbn [filter lookup fst].
  - destruct (P k); reflexivity.
  - destruct (String.eqb_spec k' k) as [-> | Hne].
    + destruct (P k) eqn:E; [| exact IH].
      cbn [lookup]. rewrite String.eqb_refl. reflexivity.
    + destruct (P k'); [| exact IH].
      cbn [lookup]. destruct (String.eqb_spec k' k); [contradiction |].
      exact IH.
Qed.

(** X21.  The sanitized keyword arguments, read as a dictionary: a name of the
    signature has the value it had, any other name is absent; the order of
    the entries is kept, and sanitizing again changes nothing. *)
Theorem sanitize_kwargs_keeps_supported {V}
    (inputs_kwargs : list (string * V)) (module_signature : list string) :
  NoDup (map fst inputs_kwargs) ->
  (forall k,
     lookup k (_sanitize_kwargs inputs_kwargs module_signature)
       = if in_signature module_signature k then lookup k inputs_kwargs
         else None) /\
  _sanitize_kwargs inputs_kwargs module_signature
    = filter (fun kv => in_signature module_signature (fst kv))
             inputs_kwargs /\
  _sanitize_kwargs (_sanitize_kwargs inputs_kwargs module_signature)
                   module_signature
    = _sanitize_kwargs inputs_kwargs module_signature.
Proof.
  intros Hnd.
  assert (Hfilter : forall kw : list (string * V),
            NoDup (map fst kw) ->
            _sanitize_kwargs kw module_signature
              = filter (fun kv => in_signature module_signature (fst kv))
                       kw).
  { intros kw Hkw. unfold _sanitize_kwargs.
    rewrite sanitize_fold by exact Hkw. reflexivity. }
  split; [| split].
  - intros k. rewrite (Hfilter _ Hnd).
    apply (lookup_filter_key (in_signature module_signature)).
  - apply Hfilter. exact Hnd.
  - rewrite (Hfilter _ Hnd). rewrite Hfilter.
    + set (P := fun kv : string * V =>
                  in_signature module_signature (fst kv)).
      induction inputs_kwargs as [| kv kw IH]; cbn [filter]; auto.
      destruct (P kv) eqn:E; cbn [filter].
      * rewrite E. f_equal. apply IH.
        cbn [map] in Hnd. apply NoDup_cons_iff in Hnd. tauto.
      * apply IH. cbn [map] in Hnd. apply NoDup_cons_iff in Hnd. tauto.
    + clear Hfilter.
      induction inputs_kwargs as [| [k v] kw IH]; cbn [filter map];
        [constructor |].
      cbn [map fst] in Hnd. apply NoDup_cons_iff in Hnd.
      destruct Hnd as [Hk Hkw]. cbn [fst].
      destruct (in_signature module_signature k); [| apply IH; exact Hkw].
      cbn [map fst]. constructor; [| apply IH; exact Hkw].
      intros Hin. apply Hk. apply in_map_iff in Hin.
      destruct Hin as [[k' v'] [Ek Hin]]. apply filter_In in Hin.
      cbn [fst] in Ek. subst k'. apply in_map_iff.
      exists (k, v'). split; [reflexivity | tauto].
Qed.

Lemma sanitize_kwargs_keeps_supported_witness :
  _sanitize_kwargs
    [("attention_mask"%string, 1); ("cache_position"%string, 2);
     ("head_mask"%string, 3)]
    ["hidden_states"; "attention_mask"; "head_mask"]%string
  = [("attention_mask"%string, 1); ("head_mask"%string, 3)] /\
  lookup "cache_position"
    (_sanitize_kwargs
       [("attention_mask"%string, 1); ("cache_position"%string, 2);
        ("head_mask"%string, 3)]
       ["hidden_states"; "attention_mask"; "head_mask"]%string)
  = None.
Proof.
  assert (Hnd : NoDup (map fst [("attention_mask"%string, 1);
                                ("cache_position"%string, 2);
                                ("head_mask"%string, 3)])).
  { repeat constructor; cbn; intuition discriminate. }
  destruct (@sanitize_kwargs_keeps_supported Q _
              ["hidden_states"; "attention_mask"; "head_mask"]%string Hnd)
    as (Hlook & Hfilter & _).
  split; [rewrite Hfilter; reflexivity |].
  rewrite (Hlook "cache_position"%string). reflexivity.
Defined.
